(** * Blackjack round engine: game logic and session actions

    A shallow embedding of [src/lib/game-logic.ts] and
    [src/app/api/game/actions.ts], followed by the properties of the
    round engine stated over it.

    Conventions of the embedding:
    - a JavaScript [number] holding a score is a [Z] (scores are small
      whole numbers); one holding money (balance, bet, payout) is a
      [float], the IEEE-754 double that JavaScript computes with: [+],
      [-], [*], [<=] and [>] on money are the operations of [PrimFloat],
      rounding, infinities and [NaN] included;
    - an optional field is an [option]; [undefined] and [null] are [None];
    - an array is a [list] in array order, so [pop] takes from the end;
    - the server actions run in the monad [M]: the session store, the
      stream of random identifiers and seeds, and a fault for the places
      where the source dereferences a value that its non-null assertion
      [deck.pop()!] promised;
    - [console.log] calls are not modelled. *)

From Stdlib Require Import ZArith QArith Lia.
From Stdlib Require Import Floats.PrimFloat Floats.SpecFloat Floats.FloatOps.
From Stdlib Require Floats.FloatAxioms.
From stdpp Require Import base list strings option relations.

Open Scope Z_scope.

(** ** Types (as used by the two source files) *)

Inductive Suit := hearts | diamonds | clubs | spades.

Inductive Rank := RA | R2 | R3 | R4 | R5 | R6 | R7 | R8 | R9 | R10 | RJ | RQ | RK.

(** [hidden] is written only by the actions; cards fresh from a deck do
    not carry the field. *)
Record CardType := mkCard {
  suit : Suit;
  rank : Rank;
  hidden : option bool
}.

Inductive GameResult :=
  playerWin | dealerWin | push | blackjack | bust | dealerBust.

Inductive GameStateTag := betting | playing | dealerTurn | gameOver.

Record ProvablyFairData := mkProvablyFair {
  gameId : string;
  serverSeed : string;
  hashedServerSeed : string;
  clientSeed : string;
  nonce : Z;
  completed : bool
}.

Record GameSession := mkSession {
  id : string;
  deck : list CardType;
  dealerCards : list CardType;
  playerCards : list CardType;
  gameState : GameStateTag;
  balance : float;
  bet : float;
  gameResult : option GameResult;
  provablyFair : option ProvablyFairData
}.

(** What a client receives for one card: [suit] and [rank] are present
    only in the second object literal of [convertToClientCards]. *)
Record ClientCardType := mkClientCard {
  c_id : string;
  c_suit : option Suit;
  c_rank : option Rank;
  c_hidden : bool;
  c_isNew : bool;
  c_isInitialDeal : bool
}.

Record ClientProvablyFair := mkClientProvablyFair {
  v_gameId : string;
  v_clientSeed : string;
  v_hashedServerSeed : string;
  v_serverSeed : option string;
  v_nonce : Z;
  v_completed : bool
}.

Record ClientGameState := mkView {
  sessionId : string;
  v_dealerCards : list ClientCardType;
  v_playerCards : list ClientCardType;
  v_gameState : GameStateTag;
  v_balance : float;
  v_bet : float;
  dealerScore : Z;
  playerScore : Z;
  v_gameResult : option GameResult;
  message : string;
  v_provablyFair : option ClientProvablyFair
}.

#[global] Instance Suit_eq_dec : EqDecision Suit.
Proof. solve_decision. Defined.
#[global] Instance Rank_eq_dec : EqDecision Rank.
Proof. solve_decision. Defined.
#[global] Instance GameResult_eq_dec : EqDecision GameResult.
Proof. solve_decision. Defined.
#[global] Instance GameStateTag_eq_dec : EqDecision GameStateTag.
Proof. solve_decision. Defined.

(** Truthiness of an optional boolean field ([card.hidden ? .. : ..]). *)
Definition truthy (b : option bool) : bool :=
  match b with
  | Some true => true
  | _ => false
  end.

(** ** game-logic.ts: the pure part *)

Definition suits : list Suit := [hearts; diamonds; clubs; spades].

Definition ranks : list Rank :=
  [RA; R2; R3; R4; R5; R6; R7; R8; R9; R10; RJ; RQ; RK].

(** The nested [for .. of] loops that fill [newDeck] / [orderedDeck]. *)
Definition orderedDeck : list CardType :=
  s ← suits; r ← ranks; [mkCard s r None].

(** [parseInt(card.rank, 10)] on the rank strings that reach it. The
    letter ranks are filtered out before the call; [0] stands for the
    value that is never used. *)
Definition parseInt (r : Rank) : Z :=
  match r with
  | R2 => 2 | R3 => 3 | R4 => 4 | R5 => 5 | R6 => 6
  | R7 => 7 | R8 => 8 | R9 => 9 | R10 => 10
  | RA | RJ | RQ | RK => 0
  end.

(** One turn of the [for (const card of cards)] loop of [calculateScore],
    on the pair of locals [(score, aces)]. *)
Definition scoreCard (acc : Z * nat) (card : CardType) : Z * nat :=
  let '(score, aces) := acc in
  if decide (rank card = RA) then (score + 11, S aces)
  else if bool_decide (rank card ∈ [RK; RQ; RJ]) then (score + 10, aces)
  else (score + parseInt (rank card), aces).

(** [while (score > 21 && aces > 0) { score -= 10; aces-- }]: the loop
    counts [aces] down, which is the recursion. *)
Fixpoint adjustAces (score : Z) (aces : nat) : Z :=
  match aces with
  | O => score
  | S aces' => if 21 <? score then adjustAces (score - 10) aces' else score
  end.

Definition calculateScore (cards : list CardType) : Z :=
  let '(score, aces) := fold_left scoreCard cards (0, O) in
  adjustAces score aces.

Definition determineGameResult (playerCards dealerCards : list CardType) : GameResult :=
  let playerScore := calculateScore playerCards in
  let dealerScore := calculateScore dealerCards in
  if 21 <? playerScore then bust
  else if 21 <? dealerScore then dealerBust
  else if (playerScore =? 21) && (length playerCards =? 2)%nat then
    if (dealerScore =? 21) && (length dealerCards =? 2)%nat then push
    else blackjack
  else if dealerScore <? playerScore then playerWin
  else if playerScore <? dealerScore then dealerWin
  else push.

Definition calculatePayout (bet : float) (result : GameResult) : float :=
  match result with
  | playerWin | dealerBust => (bet * 2)%float
  | push => bet
  | blackjack => (bet * 2.5)%float
  | _ => 0%float
  end.

(** ** The rules of sections 4.3 and 4.4, as the specification words them *)

(** "numerics = face value, face cards = 10, A = 11 initially" *)
Definition cardValue (r : Rank) : Z :=
  match r with
  | RA => 11
  | R2 => 2 | R3 => 3 | R4 => 4 | R5 => 5 | R6 => 6
  | R7 => 7 | R8 => 8 | R9 => 9 | R10 => 10
  | RJ | RQ | RK => 10
  end.

Definition softTotal (cards : list CardType) : Z :=
  foldr (λ card total, cardValue (rank card) + total) 0 cards.

Definition aceCount (cards : list CardType) : nat :=
  length (filter (λ card, rank card = RA) cards).

(** "while total > 21 and at least one Ace is still counted as 11,
    subtract 10 from total and decrement that count": one downgrade. *)
Inductive downgrade : relation (Z * nat) :=
  | downgrade_ace total soft :
      21 < total → downgrade (total, S soft) (total - 10, soft).

(** "natural blackjack (score = 21 with exactly 2 cards)" *)
Definition natural (cards : list CardType) : Prop :=
  calculateScore cards = 21 ∧ length cards = 2%nat.

(** The four precedence rules of section 4.4; each rule carries the
    failure of the rules before it. *)
Inductive Resolves (player dealer : list CardType) : GameResult → Prop :=
  | resolves_bust :
      21 < calculateScore player →
      Resolves player dealer bust
  | resolves_dealerBust :
      calculateScore player ≤ 21 → 21 < calculateScore dealer →
      Resolves player dealer dealerBust
  | resolves_natural_push :
      calculateScore player ≤ 21 → calculateScore dealer ≤ 21 →
      natural player → natural dealer →
      Resolves player dealer push
  | resolves_blackjack :
      calculateScore player ≤ 21 → calculateScore dealer ≤ 21 →
      natural player → ¬ natural dealer →
      Resolves player dealer blackjack
  | resolves_playerWin :
      calculateScore player ≤ 21 → calculateScore dealer ≤ 21 →
      ¬ natural player → calculateScore dealer < calculateScore player →
      Resolves player dealer playerWin
  | resolves_dealerWin :
      calculateScore player ≤ 21 → calculateScore dealer ≤ 21 →
      ¬ natural player → calculateScore player < calculateScore dealer →
      Resolves player dealer dealerWin
  | resolves_equal_push :
      calculateScore player ≤ 21 → calculateScore dealer ≤ 21 →
      ¬ natural player → calculateScore player = calculateScore dealer →
      Resolves player dealer push.

(** The payout table of section 4.4, as a multiple of the bet. *)
Definition payoutMultiple (result : GameResult) : Q :=
  match result with
  | playerWin => 2%Q
  | dealerBust => 2%Q
  | push => 1%Q
  | blackjack => 2.5%Q
  | bust => 0%Q
  | dealerWin => 0%Q
  end.

(** The exact value of a finite double, as a rational; the infinities
    and [NaN] have none. *)
Definition exactQ (x : float) : option Q :=
  match Prim2SF x with
  | S754_zero _ => Some 0%Q
  | S754_finite s m e =>
      let magnitude :=
        if (0 <=? e)%Z then inject_Z (Z.pos m * 2 ^ e)
        else (Z.pos m # Z.to_pos (2 ^ (- e)))%Q in
      Some (if s then (- magnitude)%Q else magnitude)
  | S754_infinity _ | S754_nan => None
  end.

(** The double [x] holds exactly the rational [q]. *)
Definition holds (x : float) (q : Q) : Prop :=
  ∃ q', exactQ x = Some q' ∧ (q' == q)%Q.

Definition holdsb (x : float) (q : Q) : bool :=
  match exactQ x with
  | Some q' => Qeq_bool q' q
  | None => false
  end.

(** The double made from the whole number [n]. *)
Definition whole (n : Z) : float := of_uint63 (Uint63Axioms.of_Z n).

Definition outcomes : list GameResult :=
  [playerWin; dealerWin; push; blackjack; bust; dealerBust].

(** On the whole bet [n], every payout is exactly the multiple of the
    table. *)
Definition payoutExact (n : Z) : bool :=
  holdsb (whole n) (inject_Z n)
  && forallb (λ result,
                holdsb (calculatePayout (whole n) result)
                       (payoutMultiple result * inject_Z n))
       outcomes.

(** A card as it comes from a deck. *)
Definition card (r : Rank) (s : Suit) : CardType := mkCard s r None.

(** ** What a client entry shows of a card *)

(** The entry carries neither the suit nor the rank of a card. *)
Definition opaque (e : ClientCardType) : Prop :=
  c_suit e = None ∧ c_rank e = None.

(** The entry [e] stands at [index] in the result of
    [convertToClientCards cards markNewCard isInitialDeal hideDealer]
    for the card [c]. *)
Definition entryOf (cards : list CardType) (markNewCard isInitialDeal hideDealer : bool)
    (index : nat) (c : CardType) (e : ClientCardType) : Prop :=
  c_isNew e = markNewCard && (index =? length cards - 1)%nat
  ∧ c_isInitialDeal e = isInitialDeal
  ∧ if truthy (hidden c)
    then c_suit e = None ∧ c_rank e = None ∧ c_hidden e = true
    else c_suit e = Some (suit c) ∧ c_rank e = Some (rank c)
         ∧ c_hidden e = hideDealer && (0 <? index)%nat.

(** Entry by entry, [out] is the projection of [l], whose first element
    stands at [start]. *)
Definition entriesOf (cards : list CardType) (markNewCard isInitialDeal hideDealer : bool)
    (start : nat) (l : list CardType) (out : list ClientCardType) : Prop :=
  length out = length l
  ∧ ∀ k c e, l !! k = Some c → out !! k = Some e →
      entryOf cards markNewCard isInitialDeal hideDealer (start + k) c e.

(** The provably-fair part of a view, read against the record of the
    session it was made from: every field is copied, and the server seed
    is present exactly when the record is completed. *)
Definition seedGuarded (record : option ProvablyFairData)
    (shown : option ClientProvablyFair) : Prop :=
  match record, shown with
  | None, None => True
  | Some pf, Some c =>
      v_gameId c = gameId pf ∧ v_clientSeed c = clientSeed pf
      ∧ v_hashedServerSeed c = hashedServerSeed pf
      ∧ v_nonce c = nonce pf ∧ v_completed c = completed pf
      ∧ v_serverSeed c = (if completed pf then Some (serverSeed pf) else None)
  | _, _ => False
  end.

(** ** Field updates on the session object *)

Definition with_deck (d : list CardType) (s : GameSession) : GameSession :=
  mkSession (id s) d (dealerCards s) (playerCards s) (gameState s)
            (balance s) (bet s) (gameResult s) (provablyFair s).

Definition with_dealerCards (cs : list CardType) (s : GameSession) : GameSession :=
  mkSession (id s) (deck s) cs (playerCards s) (gameState s)
            (balance s) (bet s) (gameResult s) (provablyFair s).

Definition with_playerCards (cs : list CardType) (s : GameSession) : GameSession :=
  mkSession (id s) (deck s) (dealerCards s) cs (gameState s)
            (balance s) (bet s) (gameResult s) (provablyFair s).

Definition with_gameState (g : GameStateTag) (s : GameSession) : GameSession :=
  mkSession (id s) (deck s) (dealerCards s) (playerCards s) g
            (balance s) (bet s) (gameResult s) (provablyFair s).

Definition with_balance (b : float) (s : GameSession) : GameSession :=
  mkSession (id s) (deck s) (dealerCards s) (playerCards s) (gameState s)
            b (bet s) (gameResult s) (provablyFair s).

Definition with_bet (b : float) (s : GameSession) : GameSession :=
  mkSession (id s) (deck s) (dealerCards s) (playerCards s) (gameState s)
            (balance s) b (gameResult s) (provablyFair s).

Definition with_gameResult (r : option GameResult) (s : GameSession) : GameSession :=
  mkSession (id s) (deck s) (dealerCards s) (playerCards s) (gameState s)
            (balance s) (bet s) r (provablyFair s).

Definition with_provablyFair (p : option ProvablyFairData) (s : GameSession) : GameSession :=
  mkSession (id s) (deck s) (dealerCards s) (playerCards s) (gameState s)
            (balance s) (bet s) (gameResult s) p.

(** [{ ...card, hidden: h }] *)
Definition with_hidden (h : bool) (card : CardType) : CardType :=
  mkCard (suit card) (rank card) (Some h).

(** [{ ...view, message: m }] and [{ ...view, bet: b }] *)
Definition with_message (m : string) (v : ClientGameState) : ClientGameState :=
  mkView (sessionId v) (v_dealerCards v) (v_playerCards v) (v_gameState v)
         (v_balance v) (v_bet v) (dealerScore v) (playerScore v)
         (v_gameResult v) m (v_provablyFair v).

Definition with_view_bet (b : float) (v : ClientGameState) : ClientGameState :=
  mkView (sessionId v) (v_dealerCards v) (v_playerCards v) (v_gameState v)
         (v_balance v) b (dealerScore v) (playerScore v)
         (v_gameResult v) (message v) (v_provablyFair v).

(** [Array.prototype.pop]: the last element and the array without it. *)
Definition pop (d : list CardType) : option (CardType * list CardType) :=
  match reverse d with
  | [] => None
  | c :: r => Some (c, reverse r)
  end.

(** [[a[i], a[j]] = [a[j], a[i]]] *)
Definition swap (a : list CardType) (i j : nat) : list CardType :=
  match a !! i, a !! j with
  | Some x, Some y => <[j:=x]> (<[i:=y]> a)
  | _, _ => a
  end.

(** ** The world of a server action *)

(** The session store behind [getSession] / [createSession] /
    [updateSession] (one record per client, held in the
    [blackjack_session] cookie), and the position in the stream of random
    draws ([uuidv4], [generateSeed], [Math.random]). *)
Record World := mkWorld {
  cookie : option GameSession;
  tick : nat
}.

(** A computation either faults ([None]) or returns a value and the next
    world. A fault stands for a run that the embedding does not follow:
    the source throws there (scoring [undefined] in the dealer's loop),
    or goes on with [undefined] where its types promised a card (a pop
    from an empty deck, an index outside the ordered deck). The
    theorems below either show that the action returns or are about the
    runs that do. *)
Definition M (A : Type) : Type := World → option (A * World).

#[global] Instance M_ret : MRet M := λ A a w, Some (a, w).

#[global] Instance M_bind : MBind M := λ A B f m w,
  match m w with
  | Some (a, w') => f a w'
  | None => None
  end.

Definition fault {A : Type} : M A := λ _, None.

(** Modelled from the spec: [lib/session-utils] is not among the source
    files. Section 6 gives it as opaque persistence,
    [loadSession -> GameSession | none] and [saveSession(GameSession)],
    read then written once per action: a single cell. *)
Definition getSession : M (option GameSession) := λ w, Some (cookie w, w).

Definition createSession (s : GameSession) : M unit :=
  λ w, Some (tt, mkWorld (Some s) (tick w)).

Definition updateSession (s : GameSession) : M unit :=
  λ w, Some (tt, mkWorld (Some s) (tick w)).

(** [cookieStore.delete("blackjack_session")] *)
Definition deleteSessionCookie : M unit :=
  λ w, Some (tt, mkWorld None (tick w)).

(** Modelled from the spec: the index generator [generateShuffledDeck] of
    [lib/provably-fair] is not among the source files. Section 4.2
    gives it as a keyed deterministic generator of 52 shuffle indices
    into the ordered deck: a function of the two seeds whose results
    have length 52 and stay inside the deck. *)
Definition shuffleContract (gen : string → string → list nat) : Prop :=
  ∀ serverSeed clientSeed,
    length (gen serverSeed clientSeed) = 52%nat ∧
    Forall (λ index, (index < 52)%nat) (gen serverSeed clientSeed).

(** ** A sample table, for running the actions on concrete data *)

Definition sampleIds : nat → string := λ _, "3f2b8c1e-0000-4000-8000-000000000000".
Definition sampleSeeds : nat → nat → string := λ _ _, "5eed".
Definition sampleRandom : nat → nat := λ n, n.
Definition sampleHash : string → string := λ seed, seed.

(** The generator that leaves the deck in order. *)
Definition identityShuffle : string → string → list nat := λ _ _, seq 0 52.

Definition sampleRecord : ProvablyFairData :=
  mkProvablyFair "game" "server-seed" "hash" "client-seed" 0 false.

(** A round in progress: 50 staked out of 1000, the dealer on 16 with the
    six face down, the player on 20, and a whole ordered deck to draw
    from (its last card is the king of spades). *)
Definition sampleSession : GameSession :=
  mkSession "session" orderedDeck
    [with_hidden false (card RK spades); with_hidden true (card R6 hearts)]
    [with_hidden false (card RK hearts); with_hidden false (card RQ hearts)]
    playing 950%float 50%float None (Some sampleRecord).

Definition sampleWorld : World := mkWorld (Some sampleSession) 0.

(** A collision-free identifier generator: [n] strokes for draw [n]. *)
Fixpoint tally (n : nat) : string :=
  match n with
  | O => EmptyString
  | S n' => String.append "i" (tally n')
  end.

(** A table waiting for a bet, and a round that was put back out of the
    [playing] state with its cards still on the table. *)
Definition idleSession : GameSession :=
  mkSession "session" [] [] [] betting 1000%float 0%float None (Some sampleRecord).

Definition pausedSession : GameSession := with_gameState gameOver sampleSession.

(** The sample round with the dealer on 17, and with an empty deck. *)
Definition patSession : GameSession :=
  with_dealerCards
    [with_hidden false (card RK spades); with_hidden true (card R7 hearts)] sampleSession.

Definition drySession : GameSession := with_deck [] sampleSession.


Section Engine.

(** The random sources, by position in the stream of draws, and the two
    functions of [lib/provably-fair] that the actions import. *)
Variable uuid_at : nat → string.
Variable seed_at : nat → nat → string.
Variable random_at : nat → nat.
Variable hashSeed : string → string.
Variable generateShuffledDeck : string → string → list nat.

Definition uuidv4 : M string :=
  λ w, Some (uuid_at (tick w), mkWorld (cookie w) (S (tick w))).

Definition generateSeed (bytes : nat) : M string :=
  λ w, Some (seed_at bytes (tick w), mkWorld (cookie w) (S (tick w))).

(** [Math.floor(Math.random() * n)]: some index below [n]. *)
Definition randomBelow (n : nat) : M nat :=
  λ w, Some ((random_at (tick w) mod n)%nat, mkWorld (cookie w) (S (tick w))).

(** *** game-logic.ts: the part with effects *)

(** [for (let i = newDeck.length - 1; i > 0; i--)] *)
Fixpoint shuffleDown (i : nat) (newDeck : list CardType) : M (list CardType) :=
  match i with
  | O => mret newDeck
  | S i' =>
      j ← randomBelow (i + 1);
      shuffleDown i' (swap newDeck i j)
  end.

Definition createDeck : M (list CardType) :=
  let newDeck := orderedDeck in
  shuffleDown (length newDeck - 1) newDeck.

(** [for (const index of shuffleIndices) shuffledDeck.push(orderedDeck[index])].
    An index outside the ordered deck would store [undefined] in a
    [CardType[]]; the embedding faults there. *)
Fixpoint pushShuffled (shuffleIndices : list nat) (shuffledDeck : list CardType)
  : M (list CardType) :=
  match shuffleIndices with
  | [] => mret shuffledDeck
  | index :: rest =>
      match orderedDeck !! index with
      | Some card => pushShuffled rest (shuffledDeck ++ [card])
      | None => fault
      end
  end.

Definition createProvablyFairDeck (serverSeed clientSeed : string) : M (list CardType) :=
  shuffleIndices ← mret (generateShuffledDeck serverSeed clientSeed);
  pushShuffled shuffleIndices [].

(** The callback of [cards.map((card, index) => ..)]. *)
Definition clientCard (cards : list CardType)
    (markNewCard isInitialDeal hideDealer : bool)
    (card : CardType) (index : nat) : M ClientCardType :=
  if truthy (hidden card) then
    i ← uuidv4;
    mret (mkClientCard i None None true
            (markNewCard && (index =? length cards - 1)%nat) isInitialDeal)
  else
    let shouldHide := hideDealer && (0 <? index)%nat in
    i ← uuidv4;
    mret (mkClientCard i (Some (suit card)) (Some (rank card)) shouldHide
            (markNewCard && (index =? length cards - 1)%nat) isInitialDeal).

(** [Array.prototype.map] with a callback that draws identifiers. *)
Fixpoint mapIndexed {A B : Type} (f : A → nat → M B) (index : nat) (l : list A)
  : M (list B) :=
  match l with
  | [] => mret []
  | x :: rest =>
      y ← f x index;
      ys ← mapIndexed f (S index) rest;
      mret (y :: ys)
  end.

Definition convertToClientCards (cards : list CardType)
    (markNewCard isInitialDeal hideDealer : bool) : M (list ClientCardType) :=
  mapIndexed (clientCard cards markNewCard isInitialDeal hideDealer) 0 cards.

(** *** actions.ts *)

Definition createClientGameState (session : GameSession)
    (markNewCard isInitialDeal hideDealer : bool) : M ClientGameState :=
  let provablyFairData :=
    match provablyFair session with
    | Some pf =>
        Some (mkClientProvablyFair (gameId pf) (clientSeed pf) (hashedServerSeed pf)
                (if completed pf then Some (serverSeed pf) else None)
                (nonce pf) (completed pf))
    | None => None
    end in
  dealerCards' ← convertToClientCards (dealerCards session) markNewCard isInitialDeal hideDealer;
  playerCards' ← convertToClientCards (playerCards session) markNewCard isInitialDeal false;
  let dealerScore :=
    if hideDealer then 0
    else calculateScore
           (map (λ card, if truthy (hidden card) then with_hidden false card else card)
                (dealerCards session)) in
  let playerScore := calculateScore (playerCards session) in
  mret (mkView (id session) dealerCards' playerCards' (gameState session)
          (balance session) (bet session) dealerScore playerScore
          (gameResult session) "" provablyFairData).

(** The four lines that make a fresh provably-fair record; they occur
    in [initializeGame], [placeBet] and [newRound]. *)
Definition freshProvablyFair : M ProvablyFairData :=
  gameId ← uuidv4;
  serverSeed ← generateSeed 32;
  hashedServerSeed ← mret (hashSeed serverSeed);
  clientSeed ← generateSeed 16;
  let nonce := 0 in
  mret (mkProvablyFair gameId serverSeed hashedServerSeed clientSeed nonce false).

Definition initializeGame (initialBalance : float) : M ClientGameState :=
  deleteSessionCookie;;
  provablyFairData ← freshProvablyFair;
  sid ← uuidv4;
  let session :=
    mkSession sid [] [] [] betting initialBalance 0%float None (Some provablyFairData) in
  createSession session;;
  createClientGameState session false false false.

(** The object literal returned when no session is found. *)
Definition sessionExpired : ClientGameState :=
  mkView "" [] [] betting 1000%float 0%float 0 0 None
         "Session expired. Please start a new game." None.

(** [session.deck.pop()!] followed by a use of the card. On an empty
    deck the source goes on with [undefined] where the assertion promised
    a card (a hand entry without suit and rank, a score that is not a
    number); the embedding faults there. *)
Definition popCard (session : GameSession) : M (CardType * GameSession) :=
  match pop (deck session) with
  | Some (card, rest) => mret (card, with_deck rest session)
  | None => fault
  end.

(** A [sessionId?: string] argument in a condition: absent and empty
    are both falsy. *)
Definition given (sessionId : option string) : bool :=
  match sessionId with
  | Some s => negb (String.eqb s "")
  | None => false
  end.

Definition placeBet (bet : float) (sessionId : option string) : M ClientGameState :=
  session ← getSession;
  session ←
    (match session with
     | None =>
         if given sessionId then
           provablyFairData ← freshProvablyFair;
           let session :=
             mkSession (default "" sessionId) [] [] [] betting 1000%float 0%float None
                       (Some provablyFairData) in
           createSession session;;
           mret (Some session)
         else mret None
     | Some _ => mret session
     end);
  match session with
  | None => initializeGame 1000%float
  | Some session =>
      if (bet <=? 0)%float || (balance session <? bet)%float then
        view ← createClientGameState session false false false;
        mret (with_message "Invalid bet amount" view)
      else
        newDeck ←
          (match provablyFair session with
           | Some pf => createProvablyFairDeck (serverSeed pf) (clientSeed pf)
           | None => createDeck
           end);
        let session := with_deck newDeck session in
        let session := with_bet bet session in
        let session := with_balance (balance session - bet)%float session in
        let session := with_gameState playing session in
        let session := with_gameResult None session in
        '(d1, session) ← popCard session;
        '(d2, session) ← popCard session;
        let session :=
          with_dealerCards [with_hidden false d1; with_hidden true d2] session in
        '(p1, session) ← popCard session;
        '(p2, session) ← popCard session;
        let session :=
          with_playerCards [with_hidden false p1; with_hidden false p2] session in
        updateSession session;;
        createClientGameState session false true false
  end.

Definition playerHit (sessionId : option string) : M ClientGameState :=
  session ← getSession;
  match session with
  | None => mret sessionExpired
  | Some session =>
      if negb (bool_decide (gameState session = playing)) then
        view ← createClientGameState session false false false;
        mret (with_message "Invalid game state for hit action" view)
      else
        '(newCard, session) ← popCard session;
        let session :=
          with_playerCards (playerCards session ++ [with_hidden false newCard]) session in
        let playerScore := calculateScore (playerCards session) in
        let session :=
          if 21 <? playerScore then
            let session :=
              with_dealerCards (map (with_hidden false) (dealerCards session)) session in
            let session := with_gameResult (Some bust) session in
            with_gameState gameOver session
          else session in
        updateSession session;;
        createClientGameState session true false false
  end.

(** [while (dealerScore < 17)] of [playerStand]. [stack] is the deck
    read from its end, so its head is what [deck.pop()] returns. On an
    empty deck the source pushes [undefined] and the next
    [calculateScore] throws on [card.rank]: a fault. The views built
    inside the loop are overwritten before anything reads them; only
    their draws from the identifier stream remain. *)
Fixpoint dealerLoop (stack : list CardType) (session : GameSession) : M GameSession :=
  if calculateScore (dealerCards session) <? 17 then
    match stack with
    | [] => fault
    | newCard :: stack' =>
        let session := with_deck (reverse stack') session in
        let session := with_dealerCards (dealerCards session ++ [newCard]) session in
        updateSession session;;
        lastGameState ← createClientGameState session true false false;
        dealerLoop stack' session
    end
  else mret session.

(** The settlement at the end of [playerStand], from "Determine game
    result" to "Mark the game as completed": four assignments to the
    session object. *)
Definition settle (session : GameSession) : GameSession :=
  let result := determineGameResult (playerCards session) (dealerCards session) in
  let session := with_gameResult (Some result) session in
  let session := with_gameState gameOver session in
  let session :=
    if negb (bool_decide (result = dealerWin)) && negb (bool_decide (result = bust))
    then with_balance (balance session + calculatePayout (bet session) result)%float session
    else session in
  match provablyFair session with
  | Some pf =>
      with_provablyFair
        (Some (mkProvablyFair (gameId pf) (serverSeed pf) (hashedServerSeed pf)
                 (clientSeed pf) (nonce pf) true)) session
  | None => session
  end.

Definition playerStand (sessionId : option string) : M ClientGameState :=
  session ← getSession;
  match session with
  | None => mret sessionExpired
  | Some session =>
      forced ←
        (if negb (bool_decide (gameState session = playing)) then
           if (0 <? length (playerCards session))%nat
              && (0 <? length (dealerCards session))%nat
              && negb (bool_decide (is_Some (gameResult session)))
           then
             let session := with_gameState playing session in
             updateSession session;;
             mret (Some session)
           else mret None
         else mret (Some session));
      match forced with
      | None =>
          view ← createClientGameState session false false false;
          mret (with_message
                  "Invalid game state for stand action. Please start a new game." view)
      | Some session =>
          let session :=
            with_dealerCards (map (with_hidden false) (dealerCards session)) session in
          let session := with_gameState dealerTurn session in
          updateSession session;;
          lastGameState ← createClientGameState session true false false;
          session ← dealerLoop (reverse (deck session)) session;
          let session := settle session in
          updateSession session;;
          createClientGameState session false false false
      end
  end.

Definition newRound (sessionId : option string) : M ClientGameState :=
  session ← getSession;
  match session with
  | None =>
      if given sessionId then mret sessionExpired
      else initializeGame 1000%float
  | Some session =>
      let currentBet := bet session in
      let session := with_gameState betting session in
      let session := with_bet 0%float session in
      let session := with_gameResult None session in
      let session := with_dealerCards [] session in
      let session := with_playerCards [] session in
      session ←
        (match provablyFair session with
         | Some _ =>
             provablyFairData ← freshProvablyFair;
             mret (with_provablyFair (Some provablyFairData) session)
         | None => mret session
         end);
      updateSession session;;
      clientState ← createClientGameState session false false false;
      mret (with_view_bet currentBet clientState)
  end.


(** The five exported server actions, each with its arguments. *)
Inductive Action :=
  | InitializeGame (initialBalance : float)
  | PlaceBet (bet : float) (sessionId : option string)
  | PlayerHit (sessionId : option string)
  | PlayerStand (sessionId : option string)
  | NewRound (sessionId : option string).

Definition perform (a : Action) : M ClientGameState :=
  match a with
  | InitializeGame initialBalance => initializeGame initialBalance
  | PlaceBet bet sessionId => placeBet bet sessionId
  | PlayerHit sessionId => playerHit sessionId
  | PlayerStand sessionId => playerStand sessionId
  | NewRound sessionId => newRound sessionId
  end.

(** The raw server seed a view carries, if any. *)
Definition shownSeed (v : ClientGameState) : option string :=
  match v_provablyFair v with
  | Some shown => v_serverSeed shown
  | None => None
  end.

(** The provably-fair record of the stored session, if any. *)
Definition storedRecord (w : World) : option ProvablyFairData :=
  match cookie w with
  | Some session => provablyFair session
  | None => None
  end.

(** The view [v] shows the server seed of the session stored in [w]
    exactly when that session's record is completed, and shows none
    when nothing is stored. *)
Definition seedWithheld (v : ClientGameState) (w : World) : Prop :=
  shownSeed v
  = match storedRecord w with
    | Some pf => if completed pf then Some (serverSeed pf) else None
    | None => None
    end.

(** Partial correctness of a computation: from a world in [P], every
    result that is returned satisfies [Q] with the world it leaves. *)
Definition hoare {A : Type} (P : World → Prop) (m : M A) (Q : A → World → Prop) : Prop :=
  ∀ w a w', P w → m w = Some (a, w') → Q a w'.

(** A session in play holds the dealer's two cards and, between the
    deck and the player's hand, the other fifty; the player holds at
    most 21. *)
Definition wellStocked (session : GameSession) : Prop :=
  gameState session = playing →
  length (dealerCards session) = 2%nat
  ∧ (length (deck session) + length (playerCards session) = 50)%nat
  ∧ (length (playerCards session) ≤ 21)%nat.

Definition stocked (w : World) : Prop :=
  ∀ session, cookie w = Some session → wellStocked session.

(** The worlds the actions can produce, starting with nothing stored. *)
Inductive Reachable : World → Prop :=
  | reach_empty t : Reachable (mkWorld None t)
  | reach_step w a v w' :
      Reachable w → perform a w = Some (v, w') → Reachable w'.

(** The world after a sequence of requests, when none of them faults. *)
Fixpoint performAll (requests : list Action) (w : World) : option World :=
  match requests with
  | [] => Some w
  | a :: rest =>
      match perform a w with
      | Some (_, w') => performAll rest w'
      | None => None
      end
  end.

(** The total of a hand with every Ace at 1. *)
Definition hardTotal (cards : list CardType) : Z :=
  softTotal cards - 10 * Z.of_nat (aceCount cards).

(** A card without its [hidden] flag: what the deck held. *)
Definition face (c : CardType) : CardType := mkCard (suit c) (rank c) None.

#[global] Instance CardType_eq_dec : EqDecision CardType.
Proof. solve_decision. Defined.

(** ** The actions as a transition system on the stored session *)

(** The record commits to its seed. *)
Definition committed (record : ProvablyFairData) : Prop :=
  hashedServerSeed record = hashSeed (serverSeed record).

(** [newDeck] is a deck [placeBet] can make for the session [base]: the
    ordered deck read through the indices generated from the record's
    seeds, or, without a record, the ordered deck rearranged. *)
Definition madeFor (base : GameSession) (newDeck : list CardType) : Prop :=
  match provablyFair base with
  | Some pf =>
      Forall2 (λ index c, orderedDeck !! index = Some c)
              (generateShuffledDeck (serverSeed pf) (clientSeed pf)) newDeck
  | None => newDeck ≡ₚ orderedDeck
  end.

(** The balance a session starts with: the argument of
    [initializeGame], or 1000 when a bet or a new round finds nothing
    stored. *)
Definition startsWith (a : Action) (found : option GameSession) (bal : float) : Prop :=
  match a with
  | InitializeGame initialBalance => bal = initialBalance
  | PlaceBet _ _ | NewRound _ => bal = 1000%float ∧ found = None
  | PlayerHit _ | PlayerStand _ => False
  end.

(** The session a bet is placed on: the one found, or the one
    [placeBet] makes when it finds none and is given an identifier. *)
Definition betsOn (sessionId : option string) (found : option GameSession)
    (base : GameSession) : Prop :=
  found = Some base
  ∨ (found = None ∧ given sessionId = true
     ∧ ∃ record, base = mkSession (default "" sessionId) [] [] [] betting 1000%float 0%float None
                          (Some record)
                 ∧ committed record ∧ completed record = false).

(** The condition under which [playerStand] puts a session back in the
    [playing] state. *)
Definition forcible (session : GameSession) : Prop :=
  playerCards session ≠ [] ∧ dealerCards session ≠ [] ∧ gameResult session = None.

(** The session an action stores, from the one it found, when it stores
    one that differs from it. *)
Inductive Transition (a : Action) (found : option GameSession) : GameSession → Prop :=
  | t_fresh sid bal record :
      startsWith a found bal → committed record → completed record = false →
      Transition a found
        (mkSession sid [] [] [] betting bal 0%float None (Some record))
  | t_deal b sessionId base newDeck rest p2 p1 d2 d1 :
      a = PlaceBet b sessionId → betsOn sessionId found base →
      (b <=? 0)%float = false → (balance base <? b)%float = false →
      madeFor base newDeck → newDeck = rest ++ [p2; p1; d2; d1] →
      Transition a found
        (mkSession (id base) rest
           [with_hidden false d1; with_hidden true d2]
           [with_hidden false p1; with_hidden false p2]
           playing (balance base - b)%float b None (provablyFair base))
  | t_hit sessionId session c rest :
      a = PlayerHit sessionId → found = Some session →
      gameState session = playing → deck session = rest ++ [c] →
      calculateScore (playerCards session ++ [with_hidden false c]) ≤ 21 →
      Transition a found
        (with_playerCards (playerCards session ++ [with_hidden false c])
           (with_deck rest session))
  | t_bust sessionId session c rest :
      a = PlayerHit sessionId → found = Some session →
      gameState session = playing → deck session = rest ++ [c] →
      21 < calculateScore (playerCards session ++ [with_hidden false c]) →
      Transition a found
        (with_gameState gameOver
           (with_gameResult (Some bust)
              (with_dealerCards (map (with_hidden false) (dealerCards session))
                 (with_playerCards (playerCards session ++ [with_hidden false c])
                    (with_deck rest session)))))
  | t_stand sessionId session drawn rest :
      a = PlayerStand sessionId → found = Some session →
      gameState session = playing ∨ forcible session →
      reverse (deck session) = drawn ++ rest →
      17 ≤ calculateScore (map (with_hidden false) (dealerCards session) ++ drawn) →
      Transition a found
        (settle
           (mkSession (id session) (reverse rest)
              (map (with_hidden false) (dealerCards session) ++ drawn)
              (playerCards session) dealerTurn (balance session) (bet session)
              (gameResult session) (provablyFair session)))
  | t_newRound sessionId session fresh :
      a = NewRound sessionId → found = Some session →
      match provablyFair session, fresh with
      | Some _, Some record => committed record ∧ completed record = false
      | None, None => True
      | _, _ => False
      end →
      Transition a found
        (mkSession (id session) (deck session) [] [] betting (balance session) 0%float None
           fresh).

(** What holds of every session the actions store (see
    [Transition_sound]): no session rests in the [dealerTurn] state; one
    in the [betting] state holds no cards; one in the [gameOver] state
    has a result; one in the [playing] state has two dealer cards, no
    result and a player's hand that is not bust; out of the [betting]
    state the deck and the two hands together are the 52 cards, flags
    aside; and there is a record, which commits to its seed. *)
Definition sound (session : GameSession) : Prop :=
  gameState session ≠ dealerTurn
  ∧ (gameState session = betting →
     dealerCards session = [] ∧ playerCards session = [])
  ∧ (gameState session = gameOver → is_Some (gameResult session))
  ∧ (gameState session = playing →
     length (dealerCards session) = 2%nat ∧ gameResult session = None
     ∧ calculateScore (playerCards session) ≤ 21)
  ∧ (gameState session ≠ betting →
     face <$> (deck session ++ dealerCards session ++ playerCards session)
     ≡ₚ orderedDeck)
  ∧ ∃ record, provablyFair session = Some record ∧ committed record.

(** Modelled from the spec: section 8 asks of the absent generator that
    its output be a permutation of all 52 indices, for every pair of
    seeds. *)
Definition shufflePermutes (gen : string → string → list nat) : Prop :=
  ∀ serverSeed clientSeed, gen serverSeed clientSeed ≡ₚ seq 0 52.

(** The provably-fair part of the view [v] is the client's copy of the
    record of the session stored in [w]: same identifier, client seed,
    hash, nonce and flag, and the server seed only under the flag. *)
Definition mirrors (v : ClientGameState) (w : World) : Prop :=
  seedGuarded (storedRecord w) (v_provablyFair v).

(** Every record stored commits to its seed. *)
Definition recordsCommitted (w : World) : Prop :=
  ∀ session record,
    cookie w = Some session → provablyFair session = Some record → committed record.


(** The view [v] reports the session: its identifier, state, balance
    and result, and the scores of the two hands. *)
Definition reports (v : ClientGameState) (session : GameSession) : Prop :=
  sessionId v = id session
  ∧ v_gameState v = gameState session
  ∧ v_balance v = balance session
  ∧ v_gameResult v = gameResult session
  ∧ playerScore v = calculateScore (playerCards session)
  ∧ dealerScore v = calculateScore (dealerCards session).

(** The view an action returns reports the session it leaves stored,
    and its bet unless the action is [newRound]; with nothing stored the
    view is the "session expired" one. *)
Definition faithful (a : Action) (v : ClientGameState) (w : World) : Prop :=
  match cookie w with
  | Some session =>
      reports v session ∧ ((∀ sessionId, a ≠ NewRound sessionId) → v_bet v = bet session)
  | None => v = sessionExpired
  end.

(** A session in the round that a bet [b] on [base] opened: the bet is
    deducted, the record is that of [base], and the round is either in
    play or lost by a bust. *)
Definition inRound (base : GameSession) (b : float) (session : GameSession) : Prop :=
  bet session = b
  ∧ balance session = (balance base - b)%float
  ∧ provablyFair session = provablyFair base
  ∧ (gameState session = playing
     ∨ (gameState session = gameOver ∧ gameResult session = Some bust)).


(** ** Running a computation *)

Lemma run_bind {A B : Type} (m : M A) (f : A → M B) (w : World) :
  (m ≫= f) w = match m w with Some (a, w') => f a w' | None => None end.
Proof. reflexivity. Qed.

Lemma run_bind_Some {A B : Type} (m : M A) (f : A → M B) w a w' :
  m w = Some (a, w') → (m ≫= f) w = f a w'.
Proof. intros H. rewrite run_bind, H. reflexivity. Qed.

Lemma run_ret {A : Type} (a : A) (w : World) : (mret a : M A) w = Some (a, w).
Proof. reflexivity. Qed.

(** ** Scoring *)

Lemma scoreCard_value score aces c :
  scoreCard (score, aces) c
  = (score + cardValue (rank c),
     if decide (rank c = RA) then S aces else aces).
Proof.
  unfold scoreCard. destruct c as [s r h]; simpl.
  destruct r; reflexivity.
Qed.

Lemma fold_scoreCard cards : ∀ score aces,
  fold_left scoreCard cards (score, aces)
  = (score + softTotal cards, (aces + aceCount cards)%nat).
Proof.
  induction cards as [|c cards IH]; intros score aces; cbn [fold_left].
  - simpl. f_equal; [lia | unfold aceCount; simpl; lia].
  - rewrite scoreCard_value, IH. cbn [softTotal foldr]. unfold aceCount. rewrite filter_cons.
    destruct (decide (rank c = RA)); simpl; f_equal;
      try fold (softTotal cards); lia.
Qed.

Lemma adjustAces_downgrades aces : ∀ score,
  ∃ k, (k ≤ aces)%nat
       ∧ rtc downgrade (score, aces) (adjustAces score aces, (aces - k)%nat)
       ∧ (adjustAces score aces ≤ 21 ∨ k = aces).
Proof.
  induction aces as [|aces IH]; intros score; simpl.
  - exists 0%nat. split; [lia|]. split; [apply rtc_refl | right; lia].
  - destruct (21 <? score) eqn:Hgt.
    + apply Z.ltb_lt in Hgt. destruct (IH (score - 10)) as (k & Hk & Hrun & Hend).
      exists (S k). split; [lia|]. split.
      * eapply rtc_l; [apply downgrade_ace, Hgt|].
        replace (S aces - S k)%nat with (aces - k)%nat by lia. exact Hrun.
      * destruct Hend as [Hle|Hk']; [left; exact Hle | right; congruence].
    + apply Z.ltb_ge in Hgt.
      exists 0%nat. split; [lia|]. split; [apply rtc_refl | left; exact Hgt].
Qed.

(** C2. [calculateScore] starts from the sum of the card values with
    every Ace at 11, then downgrades one Ace at a time (ten points off,
    one Ace fewer counted as 11) while the total is above 21 and an Ace
    is still counted as 11; it stops at the first total that is at most
    21, or when no such Ace is left. A-K scores 21, A-A scores 12 and
    K-Q-2 scores 22. *)
Theorem calculateScore_soft_hard :
  (∀ cards : list CardType,
     ∃ k, (k ≤ aceCount cards)%nat
          ∧ rtc downgrade (softTotal cards, aceCount cards)
                          (calculateScore cards, (aceCount cards - k)%nat)
          ∧ (calculateScore cards ≤ 21 ∨ k = aceCount cards))
  ∧ (∀ s1 s2, calculateScore [card RA s1; card RK s2] = 21)
  ∧ (∀ s1 s2, calculateScore [card RA s1; card RA s2] = 12)
  ∧ (∀ s1 s2 s3, calculateScore [card RK s1; card RQ s2; card R2 s3] = 22).
Proof.
  split; [|repeat split; reflexivity].
  intros cards. unfold calculateScore.
  rewrite fold_scoreCard. simpl. apply adjustAces_downgrades.
Qed.

(** ** Hand resolution and payout *)

Lemma natural_test cards :
  (calculateScore cards =? 21) && (length cards =? 2)%nat = true ↔ natural cards.
Proof.
  unfold natural. rewrite andb_true_iff, Z.eqb_eq, Nat.eqb_eq. reflexivity.
Qed.

Lemma natural_test_false cards :
  (calculateScore cards =? 21) && (length cards =? 2)%nat = false ↔ ¬ natural cards.
Proof.
  rewrite <- natural_test. destruct (_ && _); split; intros; congruence.
Qed.

Lemma determineGameResult_resolves player dealer :
  Resolves player dealer (determineGameResult player dealer).
Proof.
  unfold determineGameResult.
  destruct (Z.ltb_spec 21 (calculateScore player)) as [Hp|Hp];
    [apply resolves_bust; exact Hp|].
  destruct (Z.ltb_spec 21 (calculateScore dealer)) as [Hd|Hd];
    [apply resolves_dealerBust; assumption|].
  destruct ((calculateScore player =? 21) && (length player =? 2)%nat) eqn:Hnp.
  - apply natural_test in Hnp.
    destruct ((calculateScore dealer =? 21) && (length dealer =? 2)%nat) eqn:Hnd.
    + apply natural_test in Hnd. apply resolves_natural_push; assumption.
    + apply natural_test_false in Hnd. apply resolves_blackjack; assumption.
  - apply natural_test_false in Hnp.
    destruct (Z.ltb_spec (calculateScore dealer) (calculateScore player));
      [apply resolves_playerWin; assumption|].
    destruct (Z.ltb_spec (calculateScore player) (calculateScore dealer));
      [apply resolves_dealerWin; assumption|].
    apply resolves_equal_push; try assumption. lia.
Qed.

Lemma Resolves_functional player dealer r1 r2 :
  Resolves player dealer r1 → Resolves player dealer r2 → r1 = r2.
Proof.
  destruct 1; destruct 1; try reflexivity; try lia; try contradiction.
Qed.

(** C3. [determineGameResult] follows the precedence of section 4.4:
    a player total above 21 is [bust]; otherwise a dealer total above
    21 is [dealerBust]; otherwise a two-card 21 of the player is [push]
    against a two-card 21 of the dealer and [blackjack] against
    anything else; otherwise the higher total wins and equal totals
    are [push]. The outcome the rules allow is the one the function
    returns, and it is the only one. The three examples of section 8
    follow. *)
Theorem determineGameResult_precedence :
  (∀ player dealer result,
     Resolves player dealer result ↔ determineGameResult player dealer = result)
  ∧ (∀ s1 s2 s3 s4,
       determineGameResult [card RA s1; card RK s2] [card RK s3; card RQ s4] = blackjack)
  ∧ (∀ s1 s2 s3 s4,
       determineGameResult [card RA s1; card RK s2] [card RA s3; card RQ s4] = push)
  ∧ (∀ s1 s2 s3 s4,
       determineGameResult [card R10 s1; card R9 s2] [card R10 s3; card R8 s4] = playerWin).
Proof.
  split; [|repeat split; reflexivity].
  intros player dealer result. split.
  - intros H. eapply Resolves_functional; [apply determineGameResult_resolves | exact H].
  - intros <-. apply determineGameResult_resolves.
Qed.

Lemma holdsb_holds (x : float) (q : Q) : holdsb x q = true → holds x q.
Proof.
  unfold holdsb, holds. destruct (exactQ x) as [q'|]; [|discriminate].
  intros Heq. exists q'. split; [reflexivity|]. apply Qeq_bool_iff, Heq.
Qed.

Lemma holds_holdsb (x : float) (q : Q) : holds x q → holdsb x q = true.
Proof.
  unfold holdsb, holds. intros (q' & -> & Heq). apply Qeq_bool_iff, Heq.
Qed.

Lemma payoutExact_to_1000 : forallb payoutExact (seqZ 0 1001) = true.
Proof. vm_compute. reflexivity. Qed.

Lemma outcomes_complete (result : GameResult) : result ∈ outcomes.
Proof. destruct result; unfold outcomes; set_solver. Qed.

(** C4 (as amended). [calculatePayout] returns the double product
    [bet * 2] on [playerWin] and [dealerBust], the bet itself on [push],
    the double product [bet * 2.5] on [blackjack], and 0 on [bust] and
    [dealerWin]. For every whole bet from 0 to 1000 the double returned
    is exactly the multiple of the table (2, 1, 2.5 or 0 times the bet);
    a bet of 100 pays 250 on [blackjack], 100 on [push], 0 on
    [dealerWin]. *)
Theorem calculatePayout_table :
  (∀ bet : float,
     calculatePayout bet playerWin = (bet * 2)%float
     ∧ calculatePayout bet dealerBust = (bet * 2)%float
     ∧ calculatePayout bet push = bet
     ∧ calculatePayout bet blackjack = (bet * 2.5)%float
     ∧ calculatePayout bet bust = 0%float
     ∧ calculatePayout bet dealerWin = 0%float)
  ∧ (∀ (n : Z) (result : GameResult),
       0 ≤ n ≤ 1000 →
       holds (whole n) (inject_Z n)
       ∧ holds (calculatePayout (whole n) result) (payoutMultiple result * inject_Z n))
  ∧ calculatePayout 100 blackjack = 250%float
  ∧ calculatePayout 100 push = 100%float
  ∧ calculatePayout 100 dealerWin = 0%float.
Proof.
  split; [intros bet; repeat split|].
  split; [|repeat split; reflexivity].
  intros n result Hn.
  assert (payoutExact n = true) as Hexact.
  { apply (proj1 (forallb_forall payoutExact (seqZ 0 1001)) payoutExact_to_1000).
    apply list_elem_of_In, elem_of_seqZ. lia. }
  unfold payoutExact in Hexact. apply andb_true_iff in Hexact as [Hbet Hpay].
  split; [apply holdsb_holds, Hbet|].
  apply holdsb_holds.
  apply (proj1 (forallb_forall _ outcomes) Hpay result).
  apply list_elem_of_In, outcomes_complete.
Qed.

(** A payout that is not the multiple of the table. The bet
    9007199254740994 (2^53 + 2, a whole number that a double holds
    exactly) pays 22517998136852484 on a blackjack, one less than two
    and a half times the bet, which no double holds; and twice the bet
    2^1023 is [Infinity]. *)
Lemma calculatePayout_blackjack_rounds :
  holds 9007199254740994 (inject_Z 9007199254740994)
  ∧ holds (calculatePayout 9007199254740994 blackjack) (inject_Z 22517998136852484)
  ∧ ¬ holds (calculatePayout 9007199254740994 blackjack)
        (payoutMultiple blackjack * inject_Z 9007199254740994)
  ∧ calculatePayout 0x1p1023 playerWin = infinity
  ∧ exactQ (calculatePayout 0x1p1023 playerWin) = None.
Proof.
  split; [apply holdsb_holds; vm_compute; reflexivity|].
  split; [apply holdsb_holds; vm_compute; reflexivity|].
  split; [|split; vm_compute; reflexivity].
  intros Hexact. apply holds_holdsb in Hexact. vm_compute in Hexact. discriminate Hexact.
Qed.

(** ** The client view *)

Lemma calculateScore_ranks (f : CardType → CardType) cards :
  (∀ c, rank (f c) = rank c) → calculateScore (map f cards) = calculateScore cards.
Proof.
  intros Hf. unfold calculateScore.
  enough (∀ acc, fold_left scoreCard (map f cards) acc = fold_left scoreCard cards acc)
    as -> by reflexivity.
  induction cards as [|c cards IH]; intros [score aces]; [reflexivity|].
  cbn [map fold_left]. rewrite IH. f_equal.
  unfold scoreCard. rewrite Hf. reflexivity.
Qed.

Lemma clientCard_run cards m i h c index w :
  ∃ e, clientCard cards m i h c index w = Some (e, mkWorld (cookie w) (S (tick w)))
       ∧ entryOf cards m i h index c e.
Proof.
  unfold clientCard, entryOf.
  destruct (truthy (hidden c)); eexists; (split; [reflexivity|]); simpl; auto.
Qed.

Lemma mapIndexed_run cards m i h l : ∀ start w,
  ∃ out, mapIndexed (clientCard cards m i h) start l w
         = Some (out, mkWorld (cookie w) (tick w + length l))
         ∧ entriesOf cards m i h start l out.
Proof.
  induction l as [|c l IH]; intros start w; cbn [mapIndexed].
  - exists []. split.
    + rewrite run_ret. destruct w; simpl. do 3 f_equal. lia.
    + split; [reflexivity|]. intros k c e Hk. rewrite lookup_nil in Hk. discriminate.
  - destruct (clientCard_run cards m i h c start w) as (e & He & Hentry).
    rewrite (run_bind_Some _ _ _ _ _ He).
    destruct (IH (S start) (mkWorld (cookie w) (S (tick w)))) as (out & Hout & Hlen & Hall).
    rewrite (run_bind_Some _ _ _ _ _ Hout). rewrite run_ret.
    exists (e :: out). split; [|split].
    + simpl. do 3 f_equal. lia.
    + simpl. congruence.
    + intros [|k] c' e' Hc He'; simpl in Hc, He'.
      * injection Hc as <-. injection He' as <-.
        replace (start + 0)%nat with start by lia. exact Hentry.
      * replace (start + S k)%nat with (S start + k)%nat by lia. eauto.
Qed.

Lemma convertToClientCards_run cards m i h w :
  ∃ out, convertToClientCards cards m i h w
         = Some (out, mkWorld (cookie w) (tick w + length cards))
         ∧ entriesOf cards m i h 0 cards out.
Proof. apply mapIndexed_run. Qed.

(** [createClientGameState] never faults and never touches the store;
    its result copies the scalar fields of the session. *)
Lemma createClientGameState_run session m i h w :
  ∃ dealer' player' shown,
    createClientGameState session m i h w
    = Some (mkView (id session) dealer' player' (gameState session)
              (balance session) (bet session)
              (if h then 0 else calculateScore (dealerCards session))
              (calculateScore (playerCards session))
              (gameResult session) "" shown,
            mkWorld (cookie w)
              (tick w + length (dealerCards session) + length (playerCards session)))
    ∧ entriesOf (dealerCards session) m i h 0 (dealerCards session) dealer'
    ∧ entriesOf (playerCards session) m i false 0 (playerCards session) player'
    ∧ seedGuarded (provablyFair session) shown.
Proof.
  unfold createClientGameState.
  destruct (convertToClientCards_run (dealerCards session) m i h w) as (dc & Hdc & Hd).
  rewrite (run_bind_Some _ _ _ _ _ Hdc).
  destruct (convertToClientCards_run (playerCards session) m i false
              (mkWorld (cookie w) (tick w + length (dealerCards session))))
    as (pc & Hpc & Hp).
  rewrite (run_bind_Some _ _ _ _ _ Hpc). rewrite run_ret.
  eexists dc, pc, _. split; [|split; [exact Hd | split; [exact Hp|]]].
  - simpl. do 3 f_equal. destruct h; [reflexivity|].
    apply calculateScore_ranks. intros c. destruct (truthy (hidden c)); reflexivity.
  - unfold seedGuarded. destruct (provablyFair session); simpl; auto 10.
Qed.

(** ** The provably-fair deck *)

Lemma pushShuffled_run shuffleIndices : ∀ shuffledDeck w,
  Forall (λ index, (index < 52)%nat) shuffleIndices →
  ∃ drawn, pushShuffled shuffleIndices shuffledDeck w = Some (shuffledDeck ++ drawn, w)
           ∧ length drawn = length shuffleIndices
           ∧ ∀ k index, shuffleIndices !! k = Some index →
               drawn !! k = orderedDeck !! index.
Proof.
  induction shuffleIndices as [|index rest IH]; intros acc w Hrange; cbn [pushShuffled].
  - exists []. rewrite app_nil_r. split; [reflexivity|]. split; [reflexivity|].
    intros k index Hk. rewrite lookup_nil in Hk. discriminate.
  - apply Forall_cons in Hrange as [Hindex Hrest].
    destruct (orderedDeck !! index) as [c|] eqn:Hc.
    + destruct (IH (acc ++ [c]) w Hrest) as (drawn & Hrun & Hlen & Hall).
      exists (c :: drawn). rewrite Hrun, <- app_assoc. split; [reflexivity|].
      split; [simpl; congruence|].
      intros [|k] index' Hk; simpl in Hk; simpl.
      * injection Hk as <-. symmetry. exact Hc.
      * apply Hall, Hk.
    + apply lookup_ge_None in Hc. change (length orderedDeck) with 52%nat in Hc. lia.
Qed.

(** C1. With the index generator a function of the two seeds (52
    indices into the ordered deck, section 4.2), two calls of
    [createProvablyFairDeck] with the same seeds return the same
    sequence of 52 cards, whatever the state of the session store and
    of the random streams at either call; the deck is the ordered deck
    read through the indices, and neither call changes the world. *)
Theorem createProvablyFairDeck_deterministic :
  shuffleContract generateShuffledDeck →
  ∀ (serverSeed clientSeed : string) (w1 w2 : World),
    ∃ shuffled,
      createProvablyFairDeck serverSeed clientSeed w1 = Some (shuffled, w1)
      ∧ createProvablyFairDeck serverSeed clientSeed w2 = Some (shuffled, w2)
      ∧ length shuffled = 52%nat
      ∧ ∀ k index, generateShuffledDeck serverSeed clientSeed !! k = Some index →
          shuffled !! k = orderedDeck !! index.
Proof.
  intros Hgen serverSeed clientSeed w1 w2.
  destruct (Hgen serverSeed clientSeed) as [Hlen Hrange].
  unfold createProvablyFairDeck. rewrite !run_bind, !run_ret.
  destruct (pushShuffled_run _ [] w1 Hrange) as (d1 & Hrun1 & Hlen1 & Hall1).
  destruct (pushShuffled_run _ [] w2 Hrange) as (d2 & Hrun2 & Hlen2 & Hall2).
  assert (d1 = d2) as <-.
  { apply list_eq. intros k.
    destruct (generateShuffledDeck serverSeed clientSeed !! k) as [index|] eqn:Hk.
    - rewrite (Hall1 _ _ Hk), (Hall2 _ _ Hk). reflexivity.
    - apply lookup_ge_None in Hk.
      rewrite (proj2 (lookup_ge_None d1 k)), (proj2 (lookup_ge_None d2 k)) by lia.
      reflexivity. }
  exists d1. rewrite Hrun1, Hrun2. simpl.
  split; [reflexivity|]. split; [reflexivity|]. split; [lia | exact Hall1].
Qed.

(** ** Concealment in the client view *)

(** A card whose [hidden] flag is set is sent as a placeholder: no
    suit, no rank, [hidden: true]. *)
Lemma convertToClientCards_hidden_opaque cards m i h w out w' k c e :
  convertToClientCards cards m i h w = Some (out, w') →
  cards !! k = Some c → out !! k = Some e → hidden c = Some true →
  opaque e ∧ c_hidden e = true.
Proof.
  intros Hrun Hc He Hhid.
  destruct (convertToClientCards_run cards m i h w) as (out' & Hrun' & _ & Hall).
  rewrite Hrun in Hrun'. injection Hrun' as -> _.
  destruct (Hall k c e Hc He) as (_ & _ & Hentry).
  rewrite Hhid in Hentry. simpl in Hentry. unfold opaque. tauto.
Qed.

(** With [hideDealer] set the reported dealer score is 0. *)
Lemma createClientGameState_hideDealer_score session m i w v w' :
  createClientGameState session m i true w = Some (v, w') → dealerScore v = 0.
Proof.
  intros Hrun.
  destruct (createClientGameState_run session m i true w) as (dc & pc & pf & Hrun' & _).
  rewrite Hrun in Hrun'. injection Hrun' as -> _. reflexivity.
Qed.

(** Without [hideDealer] the reported dealer score counts every dealer
    card, the ones whose [hidden] flag is set included. *)
Lemma createClientGameState_score_counts_hidden session m i w v w' :
  createClientGameState session m i false w = Some (v, w') →
  dealerScore v = calculateScore (dealerCards session).
Proof.
  intros Hrun.
  destruct (createClientGameState_run session m i false w) as (dc & pc & pf & Hrun' & _).
  rewrite Hrun in Hrun'. injection Hrun' as -> _. reflexivity.
Qed.

(** C5 (where the code departs from the claim). With [hideDealer] set,
    a dealer card after the first whose own [hidden] flag is clear is
    only marked [hidden: true]: its entry still carries the suit and
    the rank. Here the dealer holds the king of spades and the six of
    hearts, both face up. *)
Theorem convertToClientCards_hideDealer_sends_rank :
  ∀ w : World,
    ∃ first second w',
      convertToClientCards
        [with_hidden false (card RK spades); with_hidden false (card R6 hearts)]
        false false true w
      = Some ([first; second], w')
      ∧ c_hidden second = true
      ∧ c_suit second = Some hearts
      ∧ c_rank second = Some R6
      ∧ ¬ opaque second.
Proof.
  intros w. do 3 eexists. split; [reflexivity|]. simpl.
  repeat split; try reflexivity. intros [H _]. discriminate H.
Qed.

(** ** Rejected bets *)

Lemma invalid_bet_test (b bal : float) :
  (b <=? 0)%float = true ∨ (bal <? b)%float = true → (b <=? 0)%float || (bal <? b)%float = true.
Proof.
  intros [Hle|Hgt].
  - rewrite Hle. reflexivity.
  - rewrite Hgt. apply orb_true_r.
Qed.

(** Comparing two doubles the other way round gives the opposite
    answer, or none either way when one of them is [NaN]. *)
Lemma SFcompare_flip (f1 f2 : spec_float) :
  SFcompare f2 f1 = CompOpp <$> SFcompare f1 f2.
Proof.
  destruct f1 as [s1|s1| |s1 m1 e1], f2 as [s2|s2| |s2 m2 e2];
    try destruct s1; try destruct s2; try reflexivity; cbn;
    rewrite (Z.compare_antisym e1 e2); destruct (e1 ?= e2); cbn;
    rewrite ?CompOpp_involutive, ?(Pos.compare_cont_antisym m2 m1 Eq),
      ?(Pos.compare_cont_antisym m1 m2 Eq); reflexivity.
Qed.

(** A bet with [0 < bet <= balance] passes the test of [placeBet]. *)
Lemma bet_in_range_passes (b bal : float) :
  (0 <? b)%float = true → (b <=? bal)%float = true →
  (b <=? 0)%float = false ∧ (bal <? b)%float = false.
Proof.
  rewrite !FloatAxioms.ltb_spec, !FloatAxioms.leb_spec. unfold SFltb, SFleb.
  rewrite (SFcompare_flip (Prim2SF 0) (Prim2SF b)).
  rewrite (SFcompare_flip (Prim2SF b) (Prim2SF bal)).
  destruct (SFcompare (Prim2SF 0) (Prim2SF b)) as [[]|];
    destruct (SFcompare (Prim2SF b) (Prim2SF bal)) as [[]|]; cbn;
    intros H1 H2; try discriminate H1; try discriminate H2; split; reflexivity.
Qed.

(** C9. On an existing session, a bet that is not positive or that
    exceeds the balance (either comparison of the source's test holds,
    as doubles compare) is answered with the view of the untouched
    session under the message "Invalid bet amount"; the stored session
    (deck, hands, bet, balance, state and all) is the one found. *)
Theorem placeBet_invalid_no_mutation :
  ∀ (b : float) (sessionId : option string) (w : World) (session : GameSession),
    cookie w = Some session →
    (b <=? 0)%float = true ∨ (balance session <? b)%float = true →
    ∃ v w',
      placeBet b sessionId w = Some (v, w')
      ∧ cookie w' = Some session
      ∧ message v = "Invalid bet amount"
      ∧ v_gameState v = gameState session
      ∧ v_balance v = balance session
      ∧ v_bet v = bet session
      ∧ v_gameResult v = gameResult session
      ∧ length (v_dealerCards v) = length (dealerCards session)
      ∧ length (v_playerCards v) = length (playerCards session).
Proof.
  intros b sessionId w session Hcookie Hbad.
  unfold placeBet. rewrite run_bind. cbn [getSession]. rewrite Hcookie.
  rewrite run_bind, run_ret. rewrite (invalid_bet_test _ _ Hbad).
  destruct (createClientGameState_run session false false false w)
    as (dc & pc & pf & Hview & [Hd _] & [Hp _] & _).
  rewrite (run_bind_Some _ _ _ _ _ Hview), run_ret.
  do 2 eexists. split; [reflexivity|]. simpl. auto 10.
Qed.

(** ** Rules for [hoare] *)

Lemma hoare_bind {A B : Type} (P : World → Prop) (R : A → World → Prop)
    (Q : B → World → Prop) (m : M A) (f : A → M B) :
  hoare P m R → (∀ a, hoare (R a) (f a) Q) → hoare P (m ≫= f) Q.
Proof.
  intros Hm Hf w b w' HP Hrun. rewrite run_bind in Hrun.
  destruct (m w) as [[a w1]|] eqn:Hmw; [|discriminate].
  exact (Hf a w1 b w' (Hm w a w1 HP Hmw) Hrun).
Qed.

Lemma hoare_ret {A : Type} (P : World → Prop) (Q : A → World → Prop) (a : A) :
  (∀ w, P w → Q a w) → hoare P (mret a) Q.
Proof. intros H w a' w' HP Hrun. injection Hrun as <- <-. auto. Qed.

Lemma hoare_weaken {A : Type} (P P' : World → Prop) (Q Q' : A → World → Prop) (m : M A) :
  hoare P' m Q' → (∀ w, P w → P' w) → (∀ a w, Q' a w → Q a w) → hoare P m Q.
Proof. intros H HP HQ w a w' Hw Hrun. eapply HQ, H; eauto. Qed.

Lemma hoare_any {A : Type} (P : World → Prop) (m : M A) : hoare P m (λ _ _, True).
Proof. intros w a w' _ _. exact I. Qed.

Lemma hoare_fault {A : Type} (P : World → Prop) (Q : A → World → Prop) :
  hoare P fault Q.
Proof. intros w a w' _ Hrun. discriminate Hrun. Qed.

Lemma hoare_getSession (P : World → Prop) :
  hoare P getSession (λ found w, P w ∧ cookie w = found).
Proof. intros w a w' HP Hrun. injection Hrun as <- <-. auto. Qed.

Lemma hoare_updateSession (P : World → Prop) session :
  hoare P (updateSession session) (λ _ w, cookie w = Some session).
Proof. intros w a w' _ Hrun. injection Hrun as _ <-. reflexivity. Qed.

Lemma hoare_createSession (P : World → Prop) session :
  hoare P (createSession session) (λ _ w, cookie w = Some session).
Proof. intros w a w' _ Hrun. injection Hrun as _ <-. reflexivity. Qed.

Lemma hoare_createClientGameState (P : World → Prop) session m i h :
  (∀ w t, P w → P (mkWorld (cookie w) t)) →
  hoare P (createClientGameState session m i h)
    (λ v w, P w ∧ seedGuarded (provablyFair session) (v_provablyFair v)
            ∧ message v = "" ∧ v_gameResult v = gameResult session
            ∧ v_gameState v = gameState session).
Proof.
  intros Hstable w v w' HP Hrun.
  destruct (createClientGameState_run session m i h w) as (dc & pc & pf & Hrun' & _ & _ & Hseed).
  rewrite Hrun in Hrun'. injection Hrun' as -> ->. simpl. auto.
Qed.

(** ** The server seed in the views *)

Lemma seedGuarded_withheld session v w :
  cookie w = Some session →
  seedGuarded (provablyFair session) (v_provablyFair v) →
  seedWithheld v w.
Proof.
  intros Hcookie Hseed. unfold seedWithheld, storedRecord, shownSeed.
  rewrite Hcookie. unfold seedGuarded in Hseed.
  destruct (provablyFair session), (v_provablyFair v); tauto.
Qed.

Lemma hoare_show session m i h :
  hoare (λ w, cookie w = Some session) (createClientGameState session m i h) seedWithheld.
Proof.
  eapply hoare_weaken;
    [apply (hoare_createClientGameState (λ w, cookie w = Some session)) | |].
  - intros w t Hw. exact Hw.
  - intros w Hw. exact Hw.
  - intros v w (Hcookie & Hseed & _). eapply seedGuarded_withheld; eauto.
Qed.

Lemma hoare_show_message session msg :
  hoare (λ w, cookie w = Some session)
    (view ← createClientGameState session false false false;
     mret (with_message msg view))
    seedWithheld.
Proof.
  eapply hoare_bind; [apply hoare_createClientGameState; auto|].
  intros view. apply hoare_ret. intros w (Hcookie & Hseed & _).
  eapply seedGuarded_withheld; eauto.
Qed.

Lemma hoare_store_show (P : World → Prop) session m i h :
  hoare P (updateSession session;; createClientGameState session m i h) seedWithheld.
Proof.
  eapply hoare_bind; [apply hoare_updateSession|]. intros ?. apply hoare_show.
Qed.

Lemma sessionExpired_withheld (P : World → Prop) :
  (∀ w, P w → cookie w = None) → hoare P (mret sessionExpired) seedWithheld.
Proof.
  intros HP. apply hoare_ret. intros w Hw.
  unfold seedWithheld, storedRecord. rewrite (HP w Hw). reflexivity.
Qed.

Lemma initializeGame_withheld (P : World → Prop) initialBalance :
  hoare P (initializeGame initialBalance) seedWithheld.
Proof.
  unfold initializeGame.
  eapply hoare_bind; [apply hoare_any|]. intros ?.
  eapply hoare_bind; [apply hoare_any|]. intros pf.
  eapply hoare_bind; [apply hoare_any|]. intros sid.
  eapply hoare_bind; [apply hoare_createSession|]. intros ?. apply hoare_show.
Qed.

Lemma placeBet_withheld b sessionId :
  hoare (λ _, True) (placeBet b sessionId) seedWithheld.
Proof.
  unfold placeBet.
  eapply hoare_bind; [apply hoare_getSession|]. intros found.
  eapply hoare_bind with
    (R := λ session w, match session with
                       | Some s => cookie w = Some s
                       | None => True
                       end).
  { destruct found as [s|].
    - apply hoare_ret. intros w [_ Hw]. exact Hw.
    - destruct (given sessionId).
      + eapply hoare_bind; [apply hoare_any|]. intros pf.
        eapply hoare_bind; [apply hoare_createSession|]. intros ?.
        apply hoare_ret. intros w Hw. exact Hw.
      + apply hoare_ret. auto. }
  intros [session|]; [|apply initializeGame_withheld].
  destruct ((b <=? 0)%float || (balance session <? b)%float);
    [apply hoare_show_message|].
  eapply hoare_bind; [apply hoare_any|]. intros newDeck.
  eapply hoare_bind; [apply hoare_any|]. intros [d1 s1].
  eapply hoare_bind; [apply hoare_any|]. intros [d2 s2].
  eapply hoare_bind; [apply hoare_any|]. intros [p1 s3].
  eapply hoare_bind; [apply hoare_any|]. intros [p2 s4].
  apply hoare_store_show.
Qed.

Lemma playerHit_withheld sessionId :
  hoare (λ _, True) (playerHit sessionId) seedWithheld.
Proof.
  unfold playerHit.
  eapply hoare_bind; [apply hoare_getSession|]. intros [session|].
  - destruct (negb (bool_decide (gameState session = playing))).
    + eapply hoare_weaken; [apply hoare_show_message| |]; [|auto].
      intros w [_ Hw]. exact Hw.
    + eapply hoare_bind; [apply hoare_any|]. intros [newCard s1].
      apply hoare_store_show.
  - apply sessionExpired_withheld. intros w [_ Hw]. exact Hw.
Qed.

Lemma playerStand_withheld sessionId :
  hoare (λ _, True) (playerStand sessionId) seedWithheld.
Proof.
  unfold playerStand.
  eapply hoare_bind; [apply hoare_getSession|]. intros [session|].
  - eapply hoare_bind with
      (R := λ forced w, match forced with
                        | Some _ => True
                        | None => cookie w = Some session
                        end).
    { destruct (negb (bool_decide (gameState session = playing))).
      - destruct (_ && _).
        + eapply hoare_bind; [apply hoare_any|]. intros ?. apply hoare_ret. auto.
        + apply hoare_ret. intros w [_ Hw]. exact Hw.
      - apply hoare_ret. auto. }
    intros [s1|]; [|apply hoare_show_message].
    eapply hoare_bind; [apply hoare_any|]. intros ?.
    eapply hoare_bind; [apply hoare_any|]. intros lastGameState.
    eapply hoare_bind; [apply hoare_any|]. intros s2.
    apply hoare_store_show.
  - apply sessionExpired_withheld. intros w [_ Hw]. exact Hw.
Qed.

Lemma newRound_withheld sessionId :
  hoare (λ _, True) (newRound sessionId) seedWithheld.
Proof.
  unfold newRound.
  eapply hoare_bind; [apply hoare_getSession|]. intros [session|].
  - eapply hoare_bind; [apply hoare_any|]. intros s1.
    eapply hoare_bind; [apply hoare_updateSession|]. intros ?.
    eapply hoare_bind; [apply hoare_createClientGameState; auto|].
    intros view. apply hoare_ret. intros w (Hcookie & Hseed & _).
    eapply seedGuarded_withheld; eauto.
  - destruct (given sessionId).
    + apply sessionExpired_withheld. intros w [_ Hw]. exact Hw.
    + apply initializeGame_withheld.
Qed.

(** The view follows the flag: whatever the stored session and whichever
    of the five actions runs, the view it returns carries the raw server
    seed exactly when the provably-fair record of the session now stored
    is completed: with [completed = false] the field is absent, with
    [completed = true] it is that record's seed; a view returned when
    no session is stored carries none. This says nothing of when the
    flag is up: a bet on a settled session is dealt under the completed
    record of the round before. *)
Theorem serverSeed_withheld_until_completed :
  ∀ (a : Action) (w : World) (v : ClientGameState) (w' : World),
    perform a w = Some (v, w') →
    shownSeed v
    = match storedRecord w' with
      | Some pf => if completed pf then Some (serverSeed pf) else None
      | None => None
      end.
Proof.
  intros a w v w' Hrun.
  assert (hoare (λ _, True) (perform a) seedWithheld) as H.
  { destruct a; simpl.
    - apply initializeGame_withheld.
    - apply placeBet_withheld.
    - apply playerHit_withheld.
    - apply playerStand_withheld.
    - apply newRound_withheld. }
  exact (H w v w' I Hrun).
Qed.

(** ** The dealer's turn *)

Lemma adjustAces_lower aces : ∀ score,
  score - 10 * Z.of_nat aces ≤ adjustAces score aces.
Proof.
  induction aces as [|aces IH]; intros score; cbn [adjustAces]; [lia|].
  destruct (21 <? score); [specialize (IH (score - 10))|]; lia.
Qed.

Lemma softTotal_lower cards :
  Z.of_nat (length cards) + 10 * Z.of_nat (aceCount cards) ≤ softTotal cards.
Proof.
  induction cards as [|c cards IH]; [reflexivity|].
  cbn [softTotal foldr length]. fold (softTotal cards).
  unfold aceCount in *. rewrite filter_cons.
  destruct (decide (rank c = RA)) as [->|Hna]; cbn [length cardValue]; [lia|].
  assert (1 ≤ cardValue (rank c)) by (destruct (rank c); simpl; lia). lia.
Qed.

(** Every card adds at least one point, however the Aces are counted. *)
Lemma calculateScore_ge_length cards :
  Z.of_nat (length cards) ≤ calculateScore cards.
Proof.
  unfold calculateScore. rewrite fold_scoreCard.
  change (Z.of_nat (length cards)
          ≤ adjustAces (0 + softTotal cards) (0 + aceCount cards)%nat).
  rewrite Z.add_0_l, Nat.add_0_l.
  pose proof (adjustAces_lower (aceCount cards) (softTotal cards)).
  pose proof (softTotal_lower cards). lia.
Qed.

(** With enough cards left, the loop returns; what it drew is the
    shortest run of cards from the end of the deck that brings the
    dealer to 17 or more. *)
Lemma dealerLoop_run stack : ∀ session w,
  deck session = reverse stack →
  (17 ≤ length (dealerCards session) + length stack)%nat →
  ∃ drawn rest session' w',
    stack = drawn ++ rest
    ∧ dealerLoop stack session w = Some (session', w')
    ∧ session' = with_dealerCards (dealerCards session ++ drawn)
                   (with_deck (reverse rest) session)
    ∧ (∀ n, (n < length drawn)%nat →
         calculateScore (dealerCards session ++ take n drawn) < 17)
    ∧ 17 ≤ calculateScore (dealerCards session ++ drawn).
Proof.
  induction stack as [|c stack IH]; intros session w Hdeck Hlen; cbn [dealerLoop].
  - pose proof (calculateScore_ge_length (dealerCards session)) as Hge.
    simpl in Hlen.
    destruct (Z.ltb_spec (calculateScore (dealerCards session)) 17); [lia|].
    exists [], [], session, w. rewrite !app_nil_r.
    split; [reflexivity|]. split; [reflexivity|]. split.
    + destruct session; simpl in *; subst. reflexivity.
    + split; [simpl; intros; lia | assumption].
  - destruct (Z.ltb_spec (calculateScore (dealerCards session)) 17) as [Hlt|Hge].
    + set (s1 := with_dealerCards (dealerCards (with_deck (reverse stack) session) ++ [c])
                   (with_deck (reverse stack) session)).
      rewrite run_bind. cbn [updateSession].
      destruct (createClientGameState_run s1 true false false
                  (mkWorld (Some s1) (tick w))) as (dc & pc & pf & Hview & _).
      rewrite (run_bind_Some _ _ _ _ _ Hview).
      edestruct (IH s1) as (drawn & rest & s' & w' & Hstack & Hrun & Hs' & Hbelow & Hfinal).
      { reflexivity. }
      { subst s1. simpl. rewrite length_app. simpl in *. lia. }
      assert (∀ l, dealerCards s1 ++ l = dealerCards session ++ c :: l) as Happ
        by (intros l; subst s1; simpl; rewrite <- app_assoc; reflexivity).
      exists (c :: drawn), rest, s', w'.
      split; [rewrite Hstack; reflexivity|]. split; [exact Hrun|]. split; [|split].
      * rewrite Hs'. subst s1. unfold with_dealerCards, with_deck. simpl.
        rewrite <- app_assoc. reflexivity.
      * intros [|n] Hn; cbn [take].
        -- rewrite app_nil_r. exact Hlt.
        -- rewrite <- Happ. apply Hbelow. simpl in Hn. lia.
      * rewrite <- Happ. exact Hfinal.
    + exists [], (c :: stack), session, w. rewrite !app_nil_r.
      split; [reflexivity|]. split; [reflexivity|]. split.
      * destruct session; simpl in *; subst. reflexivity.
      * split; [simpl; intros; lia | assumption].
Qed.

(** What the settlement writes and what it leaves alone. *)
Lemma settle_fields session :
  deck (settle session) = deck session
  ∧ dealerCards (settle session) = dealerCards session
  ∧ playerCards (settle session) = playerCards session
  ∧ gameState (settle session) = gameOver
  ∧ gameResult (settle session)
    = Some (determineGameResult (playerCards session) (dealerCards session))
  ∧ bet (settle session) = bet session
  ∧ balance (settle session)
    = (match determineGameResult (playerCards session) (dealerCards session) with
       | dealerWin | bust => balance session
       | result => (balance session + calculatePayout (bet session) result)%float
       end)
  ∧ (completed <$> provablyFair (settle session))
    = ((λ _, true) <$> provablyFair session).
Proof.
  unfold settle. cbv zeta.
  destruct (determineGameResult (playerCards session) (dealerCards session));
    destruct (provablyFair session) eqn:Hpf; simpl;
    rewrite ?Hpf; simpl; rewrite ?Hpf; simpl; repeat split; reflexivity.
Qed.

(** C7. A stand on a session in the [playing] state (with enough cards
    left for the dealer) returns: the dealer's cards are turned face
    up (each of them is stored with [hidden = false], the hole card
    included, and the view shows each with its suit and rank and not
    hidden), then cards are taken one by one from the end of the deck
    while the dealer's score is below 17, stopping at the first score
    of 17 or more, so the final dealer hand scores at least 17; the
    result is the one [determineGameResult] gives for the two hands,
    the payout for it is added to the balance unless the result is
    [dealerWin] or [bust], and the state is [gameOver]. *)
Theorem playerStand_dealer_draws_to_17 :
  ∀ (sessionId : option string) (w : World) (session : GameSession),
    cookie w = Some session →
    gameState session = playing →
    (17 ≤ length (dealerCards session) + length (deck session))%nat →
    ∃ drawn v w' session',
      playerStand sessionId w = Some (v, w')
      ∧ cookie w' = Some session'
      ∧ deck session = deck session' ++ reverse drawn
      ∧ dealerCards session' = map (with_hidden false) (dealerCards session) ++ drawn
      ∧ (∀ n, (n < length drawn)%nat →
           calculateScore (map (with_hidden false) (dealerCards session) ++ take n drawn)
           < 17)
      ∧ 17 ≤ calculateScore (dealerCards session')
      ∧ playerCards session' = playerCards session
      ∧ gameResult session'
        = Some (determineGameResult (playerCards session) (dealerCards session'))
      ∧ gameState session' = gameOver
      ∧ bet session' = bet session
      ∧ balance session'
        = (match determineGameResult (playerCards session) (dealerCards session') with
           | dealerWin | bust => balance session
           | result => (balance session + calculatePayout (bet session) result)%float
           end)
      ∧ v_gameState v = gameOver
      ∧ v_gameResult v = gameResult session'
      ∧ v_balance v = balance session'
      ∧ (∀ k d, dealerCards session !! k = Some d →
           dealerCards session' !! k = Some (mkCard (suit d) (rank d) (Some false)))
      ∧ (∀ k d, dealerCards session !! k = Some d →
           ∃ e, v_dealerCards v !! k = Some e
                ∧ c_suit e = Some (suit d) ∧ c_rank e = Some (rank d)
                ∧ c_hidden e = false).
Proof.
  intros sessionId w session Hcookie Hplaying Hcards.
  unfold playerStand. rewrite run_bind. cbn [getSession]. rewrite Hcookie.
  rewrite Hplaying. rewrite bool_decide_eq_true_2 by reflexivity. cbn [negb].
  rewrite run_bind, run_ret. cbv zeta.
  set (s1 := with_gameState dealerTurn
               (with_dealerCards (map (with_hidden false) (dealerCards session)) session)).
  rewrite run_bind. cbn [updateSession].
  destruct (createClientGameState_run s1 true false false (mkWorld (Some s1) (tick w)))
    as (dc & pc & pf & Hview & _).
  rewrite (run_bind_Some _ _ _ _ _ Hview). clear Hview dc pc pf.
  match goal with |- context [(_ ≫= _) ?w1] => set (wl := w1) end.
  destruct (dealerLoop_run (reverse (deck s1)) s1 wl)
    as (drawn & rest & s2 & w2 & Hstack & Hloop & Hs2 & Hbelow & Hfinal).
  { symmetry. apply reverse_involutive. }
  { subst s1. simpl. rewrite length_reverse, length_map. exact Hcards. }
  rewrite (run_bind_Some _ _ _ _ _ Hloop).
  assert (dealerCards s2 = map (with_hidden false) (dealerCards session) ++ drawn) as Hdealer
    by (rewrite Hs2; reflexivity).
  assert (playerCards s2 = playerCards session) as Hplayer by (rewrite Hs2; reflexivity).
  assert (balance s2 = balance session) as Hbalance by (rewrite Hs2; reflexivity).
  assert (bet s2 = bet session) as Hbet by (rewrite Hs2; reflexivity).
  assert (deck s2 = reverse rest) as Hdeck by (rewrite Hs2; reflexivity).
  clear Hs2.
  rewrite run_bind. cbn [updateSession].
  destruct (createClientGameState_run (settle s2) false false false
              (mkWorld (Some (settle s2)) (tick w2)))
    as (dc & pc & pf & Hview & [Hlength Hentries] & _).
  rewrite Hview. clear Hview.
  destruct (settle_fields s2) as (Fdeck & Fdealer & Fplayer & Fstate & Fresult & Fbet & Fbal & _).
  rewrite Fdealer, Hdealer in Hlength, Hentries.
  assert (∀ k d, dealerCards session !! k = Some d →
            (map (with_hidden false) (dealerCards session) ++ drawn) !! k
            = Some (mkCard (suit d) (rank d) (Some false))) as Hshown.
  { intros k d Hd. apply lookup_app_l_Some.
    change (map (with_hidden false) (dealerCards session))
      with (with_hidden false <$> dealerCards session).
    rewrite list_lookup_fmap, Hd. reflexivity. }
  assert (∀ k d, dealerCards session !! k = Some d →
            ∃ e, dc !! k = Some e
                 ∧ c_suit e = Some (suit d) ∧ c_rank e = Some (rank d)
                 ∧ c_hidden e = false) as Hseen.
  { intros k d Hd. pose proof (Hshown k d Hd) as Hk.
    destruct (lookup_lt_is_Some_2 dc k) as [e He].
    { rewrite Hlength. apply lookup_lt_is_Some. eauto. }
    exists e. split; [exact He|].
    destruct (Hentries k _ e Hk He) as (_ & _ & Hentry). cbn in Hentry.
    destruct Hentry as (Hsuit & Hrank & Hhidden). auto. }
  exists drawn. eexists. eexists. exists (settle s2).
  split; [reflexivity|]. split; [reflexivity|].
  cbn [v_gameState v_gameResult v_balance v_dealerCards].
  rewrite Fdeck, Fdealer, Fplayer, Fstate, Fresult, Fbet, Fbal.
  rewrite Hdealer, Hplayer, Hbalance, Hbet, Hdeck.
  repeat match goal with |- _ ∧ _ => split end; try assumption; try reflexivity.
  rewrite <- reverse_app, <- Hstack. subst s1. simpl.
  symmetry. apply reverse_involutive.
Qed.

(** ** The player's hit *)

Lemma pop_snoc (rest : list CardType) (c : CardType) :
  pop (rest ++ [c]) = Some (c, rest).
Proof. unfold pop. rewrite reverse_snoc, reverse_involutive. reflexivity. Qed.

(** The session a hit leaves, from the one it found and the card on
    top of the deck. *)
Lemma playerHit_playing_run sessionId w session c rest :
  cookie w = Some session → gameState session = playing →
  deck session = rest ++ [c] →
  ∃ v w' session',
    playerHit sessionId w = Some (v, w')
    ∧ cookie w' = Some session'
    ∧ createClientGameState session' true false false (mkWorld (Some session') (tick w))
      = Some (v, w')
    ∧ session'
      = (let drew := with_playerCards (playerCards session ++ [with_hidden false c])
                       (with_deck rest session) in
         if 21 <? calculateScore (playerCards session ++ [with_hidden false c])
         then with_gameState gameOver
                (with_gameResult (Some bust)
                   (with_dealerCards (map (with_hidden false) (dealerCards session)) drew))
         else drew).
Proof.
  intros Hcookie Hplaying Hdeck.
  unfold playerHit. rewrite run_bind. cbn [getSession]. rewrite Hcookie.
  rewrite Hplaying. rewrite bool_decide_eq_true_2 by reflexivity. cbn [negb].
  unfold popCard. rewrite Hdeck, pop_snoc. rewrite run_bind, run_ret. cbv zeta.
  rewrite run_bind. cbn [updateSession].
  match goal with
  | |- context [createClientGameState ?sF _ _ _ ?wF] =>
      destruct (createClientGameState_run sF true false false wF)
        as (dc & pc & pf & Hview & _); rewrite Hview;
      eexists; eexists; exists sF
  end.
  split; [reflexivity|]. split; [reflexivity|]. split; [exact Hview | reflexivity].
Qed.

Lemma revealed_entries cards m i out :
  Forall (λ c, hidden c = Some false) cards →
  entriesOf cards m i false 0 cards out →
  Forall2 (λ c e, c_suit e = Some (suit c) ∧ c_rank e = Some (rank c) ∧ c_hidden e = false)
          cards out.
Proof.
  intros Hshown [Hlen Hall]. apply Forall2_same_length_lookup.
  split; [symmetry; exact Hlen|].
  intros k c e Hc He. destruct (Hall k c e Hc He) as (_ & _ & Hentry).
  rewrite Forall_lookup in Hshown. rewrite (Hshown k c Hc) in Hentry. exact Hentry.
Qed.

(** C8. A hit on a session in the [playing] state takes the card at
    the end of the deck into the player's hand, face up. If the hand
    then scores more than 21, the state is [gameOver] with result
    [bust], the dealer keeps the same cards with every [hidden] flag
    cleared (the view shows each of them with suit and rank), and the
    balance is what it was; otherwise the state is still [playing]
    and the dealer's cards are untouched. *)
Theorem playerHit_draws_and_busts :
  ∀ (sessionId : option string) (w : World) (session : GameSession)
    (c : CardType) (rest : list CardType),
    cookie w = Some session →
    gameState session = playing →
    deck session = rest ++ [c] →
    ∃ v w' session',
      playerHit sessionId w = Some (v, w')
      ∧ cookie w' = Some session'
      ∧ playerCards session' = playerCards session ++ [with_hidden false c]
      ∧ deck session' = rest
      ∧ balance session' = balance session
      ∧ (21 < calculateScore (playerCards session') →
           gameState session' = gameOver
           ∧ gameResult session' = Some bust
           ∧ dealerCards session' = map (with_hidden false) (dealerCards session)
           ∧ v_gameState v = gameOver
           ∧ v_gameResult v = Some bust
           ∧ v_balance v = balance session
           ∧ Forall2 (λ d e, c_suit e = Some (suit d) ∧ c_rank e = Some (rank d)
                             ∧ c_hidden e = false)
                     (dealerCards session) (v_dealerCards v))
      ∧ (calculateScore (playerCards session') ≤ 21 →
           gameState session' = playing
           ∧ gameResult session' = gameResult session
           ∧ dealerCards session' = dealerCards session
           ∧ v_gameState v = playing).
Proof.
  intros sessionId w session c rest Hcookie Hplaying Hdeck.
  destruct (playerHit_playing_run sessionId w session c rest Hcookie Hplaying Hdeck)
    as (v & w' & s' & Hrun & Hstored & Hview & Hs').
  exists v, w', s'. split; [exact Hrun|]. split; [exact Hstored|].
  destruct (createClientGameState_run s' true false false (mkWorld (Some s') (tick w)))
    as (dc & pc & pf & Hview' & Hdealer & _).
  rewrite Hview in Hview'. injection Hview' as -> _.
  cbv zeta in Hs'.
  destruct (Z.ltb_spec 21 (calculateScore (playerCards session ++ [with_hidden false c])))
    as [Hbust|Hfine]; subst s'; cbn.
  - repeat split; try reflexivity; try lia.
    cbn in Hdealer.
    apply (revealed_entries _ true false) in Hdealer.
    + apply Forall2_fmap_l in Hdealer. exact Hdealer.
    + apply Forall_fmap, Forall_true. reflexivity.
  - repeat split; try reflexivity; try exact Hplaying; lia.
Qed.

(** ** A round that ends by the player's bust *)

Lemma show_message_run session msg w :
  ∃ v w',
    (view ← createClientGameState session false false false;
     mret (with_message msg view)) w = Some (v, w')
    ∧ cookie w' = cookie w
    ∧ message v = msg
    ∧ seedGuarded (provablyFair session) (v_provablyFair v).
Proof.
  destruct (createClientGameState_run session false false false w)
    as (dc & pc & pf & Hview & _ & _ & Hseed).
  rewrite (run_bind_Some _ _ _ _ _ Hview), run_ret.
  do 2 eexists. split; [reflexivity|]. simpl. auto.
Qed.

Lemma seedGuarded_open record shown :
  seedGuarded record shown →
  (completed <$> record) = Some false →
  match shown with Some c => v_serverSeed c | None => None end = None.
Proof.
  unfold seedGuarded.
  destruct record as [pf|], shown as [c|]; simpl; try tauto; try discriminate.
  intros (_ & _ & _ & _ & _ & Hseed) [= Hopen]. rewrite Hopen in Hseed. exact Hseed.
Qed.

(** The frame of a bust: when a hit on a [playing] session draws the
    card that takes the player above 21, the round is over with result
    [bust] and the call leaves the provably-fair record (so its
    [completed] field), the balance and the bet as they were. If
    [completed] was false before the call it is false after it (a
    round dealt on a settled session starts with it true): the view of
    the bust
    carries no server seed, and the hits and stands that may still
    follow on the busted session are turned away with views that carry
    none and leave the session as it is. *)
Theorem playerHit_bust_frame :
  ∀ (sessionId : option string) (w : World) (session : GameSession)
    (c : CardType) (rest : list CardType),
    cookie w = Some session →
    gameState session = playing →
    deck session = rest ++ [c] →
    21 < calculateScore (playerCards session ++ [with_hidden false c]) →
    ∃ v w' session',
      playerHit sessionId w = Some (v, w')
      ∧ cookie w' = Some session'
      ∧ gameState session' = gameOver
      ∧ gameResult session' = Some bust
      ∧ provablyFair session' = provablyFair session
      ∧ balance session' = balance session
      ∧ bet session' = bet session
      ∧ ((completed <$> provablyFair session) = Some false →
           (completed <$> provablyFair session') = Some false
           ∧ shownSeed v = None
           ∧ ∀ again : option string,
               (∃ v2 w2, playerHit again w' = Some (v2, w2)
                         ∧ cookie w2 = Some session' ∧ shownSeed v2 = None)
               ∧ (∃ v2 w2, playerStand again w' = Some (v2, w2)
                           ∧ cookie w2 = Some session' ∧ shownSeed v2 = None)).
Proof.
  intros sessionId w session c rest Hcookie Hplaying Hdeck Hbust.
  destruct (playerHit_playing_run sessionId w session c rest Hcookie Hplaying Hdeck)
    as (v & w' & s' & Hrun & Hstored & Hview & Hs').
  exists v, w', s'. split; [exact Hrun|]. split; [exact Hstored|].
  cbv zeta in Hs'. rewrite (proj2 (Z.ltb_lt _ _) Hbust) in Hs'.
  assert (gameState s' = gameOver) as Hover by (rewrite Hs'; reflexivity).
  assert (gameResult s' = Some bust) as Hresult by (rewrite Hs'; reflexivity).
  assert (provablyFair s' = provablyFair session) as Hpf by (rewrite Hs'; reflexivity).
  split; [exact Hover|]. split; [exact Hresult|]. split; [exact Hpf|].
  split; [rewrite Hs'; reflexivity|]. split; [rewrite Hs'; reflexivity|].
  intros Hopen. rewrite <- Hpf in Hopen. split; [exact Hopen|]. split.
  - destruct (createClientGameState_run s' true false false (mkWorld (Some s') (tick w)))
      as (dc & pc & pf & Hview' & _ & _ & Hseed).
    rewrite Hview in Hview'. injection Hview' as -> _.
    exact (seedGuarded_open _ _ Hseed Hopen).
  - intros again. split.
    + unfold playerHit. rewrite run_bind. cbn [getSession]. rewrite Hstored.
      rewrite Hover. cbn.
      destruct (show_message_run s' "Invalid game state for hit action" w')
        as (v2 & w2 & Hrun2 & Hcookie2 & _ & Hseed2).
      exists v2, w2. split; [exact Hrun2|]. split; [congruence|].
      exact (seedGuarded_open _ _ Hseed2 Hopen).
    + unfold playerStand. rewrite run_bind. cbn [getSession]. rewrite Hstored.
      rewrite Hover, Hresult.
      rewrite (bool_decide_eq_false_2 (gameOver = playing)) by discriminate.
      rewrite (bool_decide_eq_true_2 (is_Some (Some bust))) by eauto.
      cbn [negb]. rewrite andb_false_r. rewrite run_bind, run_ret.
      destruct (show_message_run s'
                  "Invalid game state for stand action. Please start a new game." w')
        as (v2 & w2 & Hrun2 & Hcookie2 & _ & Hseed2).
      exists v2, w2. split; [exact Hrun2|]. split; [congruence|].
      exact (seedGuarded_open _ _ Hseed2 Hopen).
Qed.

(** ** Reachable sessions never run out of cards *)

Lemma pop_Some deck0 c rest : pop deck0 = Some (c, rest) → deck0 = rest ++ [c].
Proof.
  unfold pop. destruct (reverse deck0) as [|c' r] eqn:Hrev; [discriminate|].
  intros [= <- <-]. rewrite <- (reverse_involutive deck0), Hrev.
  apply reverse_cons.
Qed.

Lemma hoare_popCard {B : Type} (P : World → Prop) session
    (f : CardType * GameSession → M B) (Q : B → World → Prop) :
  (∀ c rest, deck session = rest ++ [c] → hoare P (f (c, with_deck rest session)) Q) →
  hoare P (popCard session ≫= f) Q.
Proof.
  intros Hf. unfold popCard. destruct (pop (deck session)) as [[c rest]|] eqn:Hpop.
  - apply pop_Some in Hpop. intros w b w' HP Hrun. rewrite run_bind, run_ret in Hrun.
    exact (Hf c rest Hpop w b w' HP Hrun).
  - intros w b w' _ Hrun. discriminate Hrun.
Qed.

Lemma hoare_pure {A : Type} (P : World → Prop) (fact : Prop) (m : M A)
    (Q : A → World → Prop) :
  (fact → hoare P m Q) → hoare (λ w, fact ∧ P w) m Q.
Proof. intros H w a w' [Hfact HP]. exact (H Hfact w a w' HP). Qed.

Lemma swap_length a i j : length (swap a i j) = length a.
Proof.
  unfold swap. destruct (a !! i), (a !! j); try reflexivity.
  rewrite !length_insert. reflexivity.
Qed.

Lemma hoare_shuffleDown i : ∀ (P : World → Prop) newDeck,
  hoare P (shuffleDown i newDeck) (λ shuffled _, length shuffled = length newDeck).
Proof.
  induction i as [|i IH]; intros P newDeck; cbn [shuffleDown].
  - apply hoare_ret. reflexivity.
  - eapply hoare_bind; [apply hoare_any|]. intros j.
    eapply hoare_weaken; [apply (IH (λ _, True) (swap newDeck (S i) j)) | auto |].
    intros shuffled w Hlen. cbn beta in *. rewrite Hlen. apply swap_length.
Qed.

Lemma hoare_createDeck (P : World → Prop) :
  hoare P createDeck (λ newDeck _, length newDeck = 52%nat).
Proof. unfold createDeck. apply hoare_shuffleDown. Qed.

Lemma hoare_createProvablyFairDeck (P : World → Prop) serverSeed clientSeed :
  shuffleContract generateShuffledDeck →
  hoare P (createProvablyFairDeck serverSeed clientSeed)
    (λ shuffled _, length shuffled = 52%nat).
Proof.
  intros Hgen w shuffled w' _ Hrun.
  destruct (Hgen serverSeed clientSeed) as [Hlen Hrange].
  unfold createProvablyFairDeck in Hrun. rewrite run_bind, run_ret in Hrun.
  destruct (pushShuffled_run _ [] w Hrange) as (drawn & Hpush & Hdrawn & _).
  rewrite Hpush in Hrun. injection Hrun as <- _. simpl. lia.
Qed.

Lemma wellStocked_idle session : gameState session ≠ playing → wellStocked session.
Proof. intros Hidle Hplaying. contradiction. Qed.

Lemma hoare_store_show_stocked (P : World → Prop) session m i h :
  wellStocked session →
  hoare P (updateSession session;; createClientGameState session m i h)
    (λ _ w, stocked w).
Proof.
  intros Hs. eapply hoare_bind; [apply hoare_updateSession|]. intros ?.
  eapply hoare_weaken;
    [apply (hoare_createClientGameState (λ w, cookie w = Some session)) | |]; auto.
  intros v w [Hcookie _] s' Hs'. rewrite Hcookie in Hs'. injection Hs' as <-. exact Hs.
Qed.

Lemma hoare_show_message_stocked session msg :
  hoare stocked
    (view ← createClientGameState session false false false;
     mret (with_message msg view))
    (λ _ w, stocked w).
Proof.
  eapply hoare_bind; [apply (hoare_createClientGameState stocked); auto|].
  intros view. apply hoare_ret. intros w [Hw _]. exact Hw.
Qed.

Lemma initializeGame_stocked (P : World → Prop) initialBalance :
  hoare P (initializeGame initialBalance) (λ _ w, stocked w).
Proof.
  unfold initializeGame.
  eapply hoare_bind; [apply hoare_any|]. intros ?.
  eapply hoare_bind; [apply hoare_any|]. intros pf.
  eapply hoare_bind; [apply hoare_any|]. intros sid.
  apply (hoare_store_show_stocked (λ _, True)).
  apply wellStocked_idle. discriminate.
Qed.

Lemma placeBet_stocked b sessionId :
  shuffleContract generateShuffledDeck →
  hoare stocked (placeBet b sessionId) (λ _ w, stocked w).
Proof.
  intros Hgen. unfold placeBet.
  eapply hoare_bind; [apply hoare_getSession|]. intros found.
  eapply hoare_bind with
    (R := λ session w, match session with
                       | Some _ => stocked w
                       | None => True
                       end).
  { destruct found as [s|].
    - apply hoare_ret. intros w [Hw _]. exact Hw.
    - destruct (given sessionId).
      + eapply hoare_bind; [apply hoare_any|]. intros pf.
        eapply hoare_bind; [apply hoare_createSession|]. intros ?.
        apply hoare_ret. intros w Hw s' Hs'. rewrite Hw in Hs'. injection Hs' as <-.
        apply wellStocked_idle. discriminate.
      + apply hoare_ret. auto. }
  intros [session|]; [|apply initializeGame_stocked].
  destruct ((b <=? 0)%float || (balance session <? b)%float);
    [apply hoare_show_message_stocked|].
  eapply hoare_bind with (R := λ newDeck _, length newDeck = 52%nat ∧ True).
  { eapply hoare_weaken with (Q' := λ newDeck _, length newDeck = 52%nat);
      [|intros w Hw; exact Hw | intros a w Hw; split; [exact Hw | exact I]].
    destruct (provablyFair session).
    - apply hoare_createProvablyFairDeck, Hgen.
    - apply hoare_createDeck. }
  intros newDeck. apply hoare_pure. intros Hlen. cbv zeta.
  apply hoare_popCard. intros d1 r1 H1.
  apply hoare_popCard. intros d2 r2 H2.
  apply hoare_popCard. intros p1 r3 H3.
  apply hoare_popCard. intros p2 r4 H4.
  apply hoare_store_show_stocked. intros _. cbn in *.
  subst newDeck r1 r2 r3. rewrite !length_app in Hlen. simpl in Hlen.
  repeat split; lia.
Qed.

Lemma playerHit_stocked sessionId :
  hoare stocked (playerHit sessionId) (λ _ w, stocked w).
Proof.
  unfold playerHit.
  eapply hoare_bind; [apply hoare_getSession|]. intros [session|].
  - destruct (bool_decide (gameState session = playing)) eqn:Hplaying; cbn [negb].
    + apply bool_decide_eq_true_1 in Hplaying.
      apply hoare_popCard. intros c rest Hdeck. cbv zeta.
      eapply hoare_weaken with (P' := λ w, wellStocked session ∧ True);
        [|intros w [Hw Hfound]; split; [exact (Hw session Hfound) | exact I]
         |intros a w Hw; exact Hw].
      apply hoare_pure. intros Hstock.
      destruct (Hstock Hplaying) as (Hdealer & Hcount & Hhand).
      apply hoare_store_show_stocked.
      cbn [playerCards with_playerCards with_deck].
      destruct (Z.ltb_spec 21 (calculateScore (playerCards session ++ [with_hidden false c])))
        as [Hbust|Hfine].
      * apply wellStocked_idle. discriminate.
      * intros _. cbn.
        pose proof (calculateScore_ge_length (playerCards session ++ [with_hidden false c]))
          as Hge.
        rewrite Hdeck in Hcount. rewrite !length_app in *. simpl in *.
        repeat split; lia.
    + eapply hoare_weaken;
        [apply hoare_show_message_stocked | intros w [Hw _]; exact Hw
         | intros a w Hw; exact Hw].
  - apply hoare_ret. intros w [Hw _]. exact Hw.
Qed.

Lemma playerStand_stocked sessionId :
  hoare stocked (playerStand sessionId) (λ _ w, stocked w).
Proof.
  unfold playerStand.
  eapply hoare_bind; [apply hoare_getSession|]. intros [session|].
  - eapply hoare_bind with
      (R := λ forced w, match forced with
                        | Some _ => True
                        | None => stocked w
                        end).
    { destruct (negb (bool_decide (gameState session = playing))).
      - destruct (_ && _).
        + eapply hoare_bind; [apply hoare_any|]. intros ?. apply hoare_ret. auto.
        + apply hoare_ret. intros w [Hw _]. exact Hw.
      - apply hoare_ret. auto. }
    intros [s1|]; [|apply hoare_show_message_stocked].
    eapply hoare_bind; [apply hoare_any|]. intros ?.
    eapply hoare_bind; [apply hoare_any|]. intros lastGameState.
    eapply hoare_bind; [apply hoare_any|]. intros s2.
    apply hoare_store_show_stocked. apply wellStocked_idle.
    destruct (settle_fields s2) as (_ & _ & _ & Hover & _). rewrite Hover. discriminate.
  - apply hoare_ret. intros w [Hw _]. exact Hw.
Qed.

Lemma newRound_stocked sessionId :
  hoare stocked (newRound sessionId) (λ _ w, stocked w).
Proof.
  unfold newRound.
  eapply hoare_bind; [apply hoare_getSession|]. intros [session|].
  - cbv zeta.
    eapply hoare_bind with (R := λ s1 _, gameState s1 = betting ∧ True).
    { destruct (provablyFair _).
      - eapply hoare_bind; [apply hoare_any|]. intros pf. apply hoare_ret. auto.
      - apply hoare_ret. auto. }
    intros s1. apply hoare_pure. intros Hbetting.
    eapply hoare_bind; [apply hoare_updateSession|]. intros ?.
    eapply hoare_bind;
      [apply (hoare_createClientGameState (λ w, cookie w = Some s1)); auto|].
    intros view. apply hoare_ret. intros w [Hcookie _] s' Hs'.
    rewrite Hcookie in Hs'. injection Hs' as <-.
    apply wellStocked_idle. rewrite Hbetting. discriminate.
  - destruct (given sessionId).
    + apply hoare_ret. intros w [Hw _]. exact Hw.
    + apply initializeGame_stocked.
Qed.

(** Every world the actions can reach is stocked: a session in play
    holds two dealer cards and at least 29 cards in the deck, so neither
    a hit nor the dealer's turn can run out of cards. *)
Lemma reachable_stocked :
  shuffleContract generateShuffledDeck → ∀ w, Reachable w → stocked w.
Proof.
  intros Hgen w Hreach. induction Hreach as [t | w a v w' _ IH Hrun].
  - intros s Hs. discriminate Hs.
  - assert (hoare stocked (perform a) (λ _ w, stocked w)) as Hstep.
    { destruct a; simpl.
      - apply initializeGame_stocked.
      - apply placeBet_stocked, Hgen.
      - apply playerHit_stocked.
      - apply playerStand_stocked.
      - apply newRound_stocked. }
    exact (Hstep w v w' IH Hrun).
Qed.

Lemma performAll_reachable requests : ∀ w w',
  Reachable w → performAll requests w = Some w' → Reachable w'.
Proof.
  induction requests as [|a rest IH]; intros w w' Hreach Hrun; cbn [performAll] in Hrun.
  - injection Hrun as <-. exact Hreach.
  - destruct (perform a w) as [[v w1]|] eqn:Hstep; [|discriminate].
    eapply IH; [|exact Hrun]. eapply reach_step; eassumption.
Qed.

Lemma reachable_playing_deck w session :
  shuffleContract generateShuffledDeck →
  Reachable w → cookie w = Some session → gameState session = playing →
  (17 ≤ length (dealerCards session) + length (deck session))%nat
  ∧ ∃ rest c, deck session = rest ++ [c].
Proof.
  intros Hgen Hreach Hcookie Hplaying.
  destruct (reachable_stocked Hgen w Hreach session Hcookie Hplaying)
    as (Hdealer & Hcount & Hhand).
  split; [lia|].
  destruct (deck session) as [|c0 d] eqn:Hdeck using rev_ind; [simpl in Hcount; lia|].
  eauto.
Qed.

(** ** More on scoring *)

Lemma calculateScore_adjust cards :
  calculateScore cards = adjustAces (softTotal cards) (aceCount cards).
Proof.
  unfold calculateScore. rewrite fold_scoreCard.
  change (adjustAces (0 + softTotal cards) (0 + aceCount cards)%nat = 
          adjustAces (softTotal cards) (aceCount cards)).
  rewrite Z.add_0_l, Nat.add_0_l. reflexivity.
Qed.

Lemma softTotal_Permutation cards1 cards2 :
  cards1 ≡ₚ cards2 → softTotal cards1 = softTotal cards2.
Proof.
  induction 1 as [|c l1 l2 _ IH|c1 c2 l|l1 l2 l3 _ IH1 _ IH2];
    cbn [softTotal foldr]; try fold (softTotal l1); try fold (softTotal l2);
    try fold (softTotal l); lia.
Qed.

Lemma aceCount_Permutation cards1 cards2 :
  cards1 ≡ₚ cards2 → aceCount cards1 = aceCount cards2.
Proof. intros H. unfold aceCount. rewrite H. reflexivity. Qed.

Lemma softTotal_app cards1 cards2 :
  softTotal (cards1 ++ cards2) = softTotal cards1 + softTotal cards2.
Proof.
  induction cards1 as [|c l IH]; [reflexivity|].
  cbn [app softTotal foldr]. fold (softTotal (l ++ cards2)). fold (softTotal l). lia.
Qed.

Lemma aceCount_app cards1 cards2 :
  aceCount (cards1 ++ cards2) = (aceCount cards1 + aceCount cards2)%nat.
Proof. unfold aceCount. rewrite filter_app, length_app. reflexivity. Qed.

Lemma hardTotal_app cards1 cards2 :
  hardTotal (cards1 ++ cards2) = hardTotal cards1 + hardTotal cards2.
Proof. unfold hardTotal. rewrite softTotal_app, aceCount_app. lia. Qed.

Lemma hardTotal_ge_length cards : Z.of_nat (length cards) ≤ hardTotal cards.
Proof. unfold hardTotal. pose proof (softTotal_lower cards). lia. Qed.

(** The loop stops at the first total, counting down from the soft one
    in steps of ten, that is at most 21, or at the hard total. *)
Lemma adjustAces_first aces : ∀ score,
  ∃ k, (k ≤ aces)%nat
       ∧ adjustAces score aces = score - 10 * Z.of_nat k
       ∧ (adjustAces score aces ≤ 21 ∨ k = aces)
       ∧ (k = 0%nat ∨ 21 < adjustAces score aces + 10).
Proof.
  induction aces as [|aces IH]; intros score; cbn [adjustAces].
  - exists 0%nat. repeat split; lia.
  - destruct (Z.ltb_spec 21 score) as [Hgt|Hle].
    + destruct (IH (score - 10)) as (k & Hk & Heq & Hend & Hprev).
      exists (S k). repeat split; lia.
    + exists 0%nat. repeat split; lia.
Qed.

(** X1. The score does not depend on the order of the cards. *)
Theorem calculateScore_Permutation :
  ∀ cards1 cards2 : list CardType,
    cards1 ≡ₚ cards2 → calculateScore cards1 = calculateScore cards2.
Proof.
  intros cards1 cards2 H. rewrite !calculateScore_adjust.
  rewrite (softTotal_Permutation _ _ H), (aceCount_Permutation _ _ H). reflexivity.
Qed.

(** X2. The score lies between the hard total (every Ace at 1) and the
    soft total (every Ace at 11) and differs from the soft total by ten
    points for some of the Aces. It is above 21 exactly when the hard
    total is, and is then the hard total; otherwise it is the highest
    total not above 21 that counting some of the Aces at 1 can give. *)
Theorem calculateScore_best_total :
  ∀ cards : list CardType,
    hardTotal cards ≤ calculateScore cards ≤ softTotal cards
    ∧ (∃ k, (k ≤ aceCount cards)%nat
            ∧ calculateScore cards = softTotal cards - 10 * Z.of_nat k)
    ∧ (21 < calculateScore cards ↔ 21 < hardTotal cards)
    ∧ (21 < calculateScore cards → calculateScore cards = hardTotal cards)
    ∧ (calculateScore cards ≤ 21 →
       ∀ k, (k ≤ aceCount cards)%nat → softTotal cards - 10 * Z.of_nat k ≤ 21 →
            softTotal cards - 10 * Z.of_nat k ≤ calculateScore cards).
Proof.
  intros cards. rewrite calculateScore_adjust. unfold hardTotal.
  destruct (adjustAces_first (aceCount cards) (softTotal cards))
    as (k & Hk & Heq & Hend & Hprev).
  split; [lia|]. split; [exists k; split; [exact Hk | exact Heq]|].
  split; [lia|]. split; [lia|].
  intros Hfine k' Hk' Hfits. lia.
Qed.

(** X3. Every hand, bust or not, scores at least its number of cards
    (each card adds at least one point to the hard total); and a hand
    that is bust stays bust whatever is added to it. *)
Theorem calculateScore_bust_stays :
  ∀ cards more : list CardType,
    Z.of_nat (length cards) ≤ calculateScore cards
    ∧ (21 < calculateScore cards → 21 < calculateScore (cards ++ more)).
Proof.
  intros cards more. split; [apply calculateScore_ge_length|]. intros Hbust.
  pose proof (calculateScore_adjust cards) as Hc.
  pose proof (calculateScore_adjust (cards ++ more)) as Hm.
  destruct (adjustAces_first (aceCount cards) (softTotal cards))
    as (k & Hk & Heq & Hend & _).
  pose proof (adjustAces_lower (aceCount (cards ++ more)) (softTotal (cards ++ more))) as Hlow.
  pose proof (hardTotal_app cards more) as Happ.
  pose proof (hardTotal_ge_length more) as Hmore.
  unfold hardTotal in *. lia.
Qed.

(** X4. A dealer's two-card 21 does not beat a player's 21 made of three
    cards or more: the totals are equal and the round is a push. *)
Theorem determineGameResult_late_21_pushes :
  ∀ player dealer : list CardType,
    calculateScore player = 21 → length player ≠ 2%nat →
    calculateScore dealer = 21 →
    determineGameResult player dealer = push.
Proof.
  intros player dealer Hp Hlen Hd. unfold determineGameResult.
  rewrite Hp, Hd. cbn [Z.ltb Z.compare Pos.compare Pos.compare_cont Z.eqb Pos.eqb andb].
  destruct (Nat.eqb_spec (length player) 2); [contradiction|]. reflexivity.
Qed.

(** ** The decks *)

Lemma insert_Permutation (l : list CardType) i x y :
  l !! i = Some x → <[i:=y]> l ≡ₚ y :: delete i l.
Proof.
  intros Hi. pose proof (lookup_lt_Some _ _ _ Hi) as Hlt.
  rewrite insert_take_drop by exact Hlt. rewrite delete_take_drop.
  symmetry. apply Permutation_middle.
Qed.

Lemma swap_Permutation a i j : swap a i j ≡ₚ a.
Proof.
  unfold swap. destruct (a !! i) as [x|] eqn:Hi; [|reflexivity].
  destruct (a !! j) as [y|] eqn:Hj; [|reflexivity].
  assert (<[i:=y]> a !! j = Some y) as Hj'.
  { destruct (decide (i = j)) as [->|Hne].
    - apply list_lookup_insert_eq. eapply lookup_lt_Some, Hj.
    - rewrite list_lookup_insert_ne by exact Hne. exact Hj. }
  rewrite (insert_Permutation _ j y x Hj').
  pose proof (delete_Permutation _ _ _ Hj') as Hb.
  assert (y :: delete i a ≡ₚ y :: delete j (<[i:=y]> a)) as Hsame
    by (etransitivity; [symmetry; apply (insert_Permutation _ i x y Hi) | exact Hb]).
  apply Permutation_cons_inv in Hsame. rewrite <- Hsame.
  symmetry. apply delete_Permutation, Hi.
Qed.

Lemma shuffleDown_run i : ∀ newDeck w,
  ∃ shuffled w',
    shuffleDown i newDeck w = Some (shuffled, w')
    ∧ shuffled ≡ₚ newDeck ∧ cookie w' = cookie w.
Proof.
  induction i as [|i IH]; intros newDeck w; cbn [shuffleDown].
  - exists newDeck, w. split; [reflexivity|]. split; reflexivity.
  - rewrite run_bind. cbn [randomBelow].
    match goal with
    | |- context [shuffleDown i ?d ?w1] =>
        destruct (IH d w1) as (shuffled & w' & Hrun & Hperm & Hcookie)
    end.
    exists shuffled, w'. split; [exact Hrun|]. split; [|exact Hcookie].
    rewrite Hperm. apply swap_Permutation.
Qed.

Lemma orderedDeck_complete : ∀ s r, mkCard s r None ∈ orderedDeck.
Proof. intros [] []; apply (bool_decide_unpack _); vm_compute; exact I. Qed.

Lemma orderedDeck_NoDup : NoDup orderedDeck.
Proof. apply (bool_decide_unpack _). vm_compute. exact I. Qed.

(** X5. Whatever [Math.random] returns, [createDeck] returns the ordered
    deck rearranged: 52 cards, none twice, every suit and rank present,
    none carrying a [hidden] flag; the session store is not touched. *)
Theorem createDeck_permutes :
  ∀ w : World,
    ∃ newDeck w',
      createDeck w = Some (newDeck, w')
      ∧ newDeck ≡ₚ orderedDeck
      ∧ NoDup newDeck
      ∧ (∀ s r, mkCard s r None ∈ newDeck)
      ∧ length newDeck = 52%nat
      ∧ cookie w' = cookie w.
Proof.
  intros w. unfold createDeck.
  destruct (shuffleDown_run (length orderedDeck - 1) orderedDeck w)
    as (shuffled & w' & Hrun & Hperm & Hcookie).
  exists shuffled, w'. split; [exact Hrun|]. split; [exact Hperm|].
  split; [rewrite Hperm; apply orderedDeck_NoDup|].
  split; [intros s r; rewrite Hperm; apply orderedDeck_complete|].
  split; [rewrite Hperm; reflexivity | exact Hcookie].
Qed.

Lemma pushShuffled_fmap shuffleIndices w :
  Forall (λ index, (index < 52)%nat) shuffleIndices →
  pushShuffled shuffleIndices [] w
  = Some ((λ index, default (card RA hearts) (orderedDeck !! index)) <$> shuffleIndices, w).
Proof.
  intros Hrange.
  destruct (pushShuffled_run shuffleIndices [] w Hrange) as (drawn & Hrun & Hlen & Hall).
  rewrite Hrun. simpl. do 2 f_equal. apply list_eq. intros k.
  rewrite list_lookup_fmap.
  destruct (shuffleIndices !! k) as [index|] eqn:Hk; simpl.
  - rewrite (Hall k index Hk).
    rewrite Forall_lookup in Hrange. pose proof (Hrange k index Hk) as Hlt.
    destruct (orderedDeck !! index) as [c|] eqn:Hc; [reflexivity|].
    apply lookup_ge_None in Hc. change (length orderedDeck) with 52%nat in Hc. lia.
  - apply lookup_ge_None. apply lookup_ge_None in Hk. lia.
Qed.

Lemma Permutation_seq_range (l : list nat) n :
  l ≡ₚ seq 0 n → Forall (λ index, (index < n)%nat) l.
Proof.
  intros H. apply Forall_forall. intros index Hin. rewrite H in Hin.
  apply elem_of_seq in Hin. lia.
Qed.

(** X6. When the indices returned for the two seeds are a rearrangement
    of 0..51, [createProvablyFairDeck] returns the ordered deck
    rearranged the same way: card [k] of the result is card
    [indices[k]] of the ordered deck, so all 52 cards are there once. *)
Theorem createProvablyFairDeck_permutes :
  ∀ (serverSeed clientSeed : string) (w : World),
    generateShuffledDeck serverSeed clientSeed ≡ₚ seq 0 52 →
    ∃ shuffled,
      createProvablyFairDeck serverSeed clientSeed w = Some (shuffled, w)
      ∧ shuffled ≡ₚ orderedDeck
      ∧ NoDup shuffled
      ∧ (∀ s r, mkCard s r None ∈ shuffled)
      ∧ ∀ k index, generateShuffledDeck serverSeed clientSeed !! k = Some index →
          shuffled !! k = orderedDeck !! index.
Proof.
  intros serverSeed clientSeed w Hperm.
  pose proof (Permutation_seq_range _ _ Hperm) as Hrange.
  unfold createProvablyFairDeck. rewrite run_bind, run_ret.
  rewrite (pushShuffled_fmap _ w Hrange).
  set (pick := λ index, default (card RA hearts) (orderedDeck !! index)).
  assert (pick <$> generateShuffledDeck serverSeed clientSeed ≡ₚ orderedDeck) as Hdeck.
  { rewrite Hperm. reflexivity. }
  eexists. split; [reflexivity|]. split; [exact Hdeck|].
  split; [rewrite Hdeck; apply orderedDeck_NoDup|].
  split; [intros s r; rewrite Hdeck; apply orderedDeck_complete|].
  intros k index Hk. rewrite list_lookup_fmap, Hk. simpl. unfold pick.
  rewrite Forall_lookup in Hrange. pose proof (Hrange k index Hk) as Hlt.
  destruct (orderedDeck !! index) as [c|] eqn:Hc; [reflexivity|].
  apply lookup_ge_None in Hc. change (length orderedDeck) with 52%nat in Hc. lia.
Qed.

(** ** The shape of a view *)

Lemma clientCard_id cards m i h c index w e w' :
  clientCard cards m i h c index w = Some (e, w') → c_id e = uuid_at (tick w).
Proof.
  unfold clientCard. destruct (truthy (hidden c)); intros [= <- _]; reflexivity.
Qed.

Lemma mapIndexed_ids cards m i h l : ∀ start w out w',
  mapIndexed (clientCard cards m i h) start l w = Some (out, w') →
  c_id <$> out = uuid_at <$> seq (tick w) (length l).
Proof.
  induction l as [|c l IH]; intros start w out w' Hrun; cbn [mapIndexed] in Hrun.
  - injection Hrun as <- _. reflexivity.
  - rewrite run_bind in Hrun.
    destruct (clientCard_run cards m i h c start w) as (e & He & _).
    rewrite He in Hrun. rewrite run_bind in Hrun.
    destruct (mapIndexed (clientCard cards m i h) (S start) l
                (mkWorld (cookie w) (S (tick w)))) as [[out1 w1]|] eqn:Hrest;
      [|discriminate].
    injection Hrun as <- _. cbn [length seq fmap list_fmap].
    rewrite (clientCard_id _ _ _ _ _ _ _ _ _ He).
    f_equal. exact (IH _ _ _ _ Hrest).
Qed.

(** X7. [convertToClientCards] returns one entry per card, in order,
    each with the next identifier of the stream, and leaves the session
    store alone. Only the last entry can be marked new, and is exactly
    when [markNewCard] is set. An entry is marked hidden exactly when
    the card's own flag is set or [hideDealer] is set and the card is
    not the first; an entry that is not marked hidden carries the suit
    and rank of its card. *)
Theorem convertToClientCards_entries :
  ∀ (cards : list CardType) (markNewCard isInitialDeal hideDealer : bool) (w : World),
    ∃ out,
      convertToClientCards cards markNewCard isInitialDeal hideDealer w
      = Some (out, mkWorld (cookie w) (tick w + length cards))
      ∧ length out = length cards
      ∧ c_id <$> out = uuid_at <$> seq (tick w) (length cards)
      ∧ ∀ k c e, cards !! k = Some c → out !! k = Some e →
          c_isInitialDeal e = isInitialDeal
          ∧ (c_isNew e = true ↔ markNewCard = true ∧ S k = length cards)
          ∧ (c_hidden e = true ↔
             hidden c = Some true ∨ (hideDealer = true ∧ (0 < k)%nat))
          ∧ (c_hidden e = false →
             c_suit e = Some (suit c) ∧ c_rank e = Some (rank c)).
Proof.
  intros cards m i h w.
  destruct (convertToClientCards_run cards m i h w) as (out & Hrun & Hlen & Hall).
  exists out. split; [exact Hrun|]. split; [exact Hlen|].
  split; [exact (mapIndexed_ids _ _ _ _ _ _ _ _ _ Hrun)|].
  intros k c e Hc He. destruct (Hall k c e Hc He) as (Hnew & Hdeal & Hentry).
  pose proof (lookup_lt_Some _ _ _ Hc) as Hk. cbn [Nat.add] in *.
  split; [exact Hdeal|]. split.
  - rewrite Hnew, andb_true_iff, Nat.eqb_eq. split; intros [? ?]; split; (assumption || lia).
  - destruct (hidden c) as [[|]|] eqn:Hh; cbn [truthy] in Hentry;
      destruct Hentry as (Hs & Hr & Hhid); rewrite Hhid.
    + split; [split; [intros _; left; reflexivity | intros _; reflexivity]|].
      intros Habs. discriminate Habs.
    + split; [|intros _; split; assumption].
      rewrite andb_true_iff, Nat.ltb_lt. split.
      * intros [Hh' Hpos]. right. split; assumption.
      * intros [Habs|[Hh' Hpos]]; [discriminate Habs | split; assumption].
    + split; [|intros _; split; assumption].
      rewrite andb_true_iff, Nat.ltb_lt. split.
      * intros [Hh' Hpos]. right. split; assumption.
      * intros [Habs|[Hh' Hpos]]; [discriminate Habs | split; assumption].
Qed.

(** X8. With a collision-free identifier generator, the card entries of
    one view, dealer's and player's together, carry pairwise distinct
    identifiers. *)
Theorem createClientGameState_ids_distinct :
  (∀ a b, uuid_at a = uuid_at b → a = b) →
  ∀ (session : GameSession) (markNewCard isInitialDeal hideDealer : bool)
    (w : World) (v : ClientGameState) (w' : World),
    createClientGameState session markNewCard isInitialDeal hideDealer w = Some (v, w') →
    NoDup (c_id <$> (v_dealerCards v ++ v_playerCards v)).
Proof.
  intros Hinj session m i h w v w' Hrun.
  unfold createClientGameState in Hrun.
  destruct (convertToClientCards_run (dealerCards session) m i h w) as (dc & Hdc & Hd).
  rewrite (run_bind_Some _ _ _ _ _ Hdc) in Hrun.
  destruct (convertToClientCards_run (playerCards session) m i false
              (mkWorld (cookie w) (tick w + length (dealerCards session))))
    as (pc & Hpc & Hp).
  rewrite (run_bind_Some _ _ _ _ _ Hpc) in Hrun. rewrite run_ret in Hrun.
  injection Hrun as <- _. cbn [v_dealerCards v_playerCards].
  rewrite fmap_app.
  rewrite (mapIndexed_ids _ _ _ _ _ _ _ _ _ Hdc), (mapIndexed_ids _ _ _ _ _ _ _ _ _ Hpc).
  cbn [tick]. rewrite <- fmap_app, <- seq_app.
  apply NoDup_fmap_2; [intros a b; apply Hinj | apply NoDup_seq].
Qed.

(** ** Requests that find no session, or the wrong state *)

(** X9. With no session stored, a hit, a stand, and a new round asked
    for with a session identifier all answer with the "session expired"
    view and store nothing. *)
Theorem no_session_expired :
  ∀ (sessionId : option string) (w : World),
    cookie w = None →
    playerHit sessionId w = Some (sessionExpired, w)
    ∧ playerStand sessionId w = Some (sessionExpired, w)
    ∧ (given sessionId = true → newRound sessionId w = Some (sessionExpired, w)).
Proof.
  intros sessionId w Hnone.
  split; [|split].
  - unfold playerHit. rewrite run_bind. cbn [getSession]. rewrite Hnone. reflexivity.
  - unfold playerStand. rewrite run_bind. cbn [getSession]. rewrite Hnone. reflexivity.
  - intros Hgiven. unfold newRound. rewrite run_bind. cbn [getSession].
    rewrite Hnone, Hgiven. reflexivity.
Qed.

Lemma freshProvablyFair_run w :
  freshProvablyFair w
  = Some (mkProvablyFair (uuid_at (tick w)) (seed_at 32 (S (tick w)))
            (hashSeed (seed_at 32 (S (tick w)))) (seed_at 16 (S (S (tick w)))) 0 false,
          mkWorld (cookie w) (S (S (S (tick w))))).
Proof. reflexivity. Qed.

Lemma initializeGame_run initialBalance w :
  ∃ v w' record sid,
    initializeGame initialBalance w = Some (v, w')
    ∧ cookie w' = Some (mkSession sid [] [] [] betting initialBalance 0%float None (Some record))
    ∧ record = mkProvablyFair (uuid_at (tick w)) (seed_at 32 (S (tick w)))
                 (hashSeed (seed_at 32 (S (tick w)))) (seed_at 16 (S (S (tick w)))) 0 false
    ∧ v = mkView sid [] [] betting initialBalance 0%float 0 0 None ""
            (Some (mkClientProvablyFair (gameId record) (clientSeed record)
                     (hashedServerSeed record) None 0 false)).
Proof.
  unfold initializeGame. rewrite run_bind. cbn [deleteSessionCookie].
  rewrite run_bind, freshProvablyFair_run. rewrite run_bind. cbn [uuidv4 tick cookie].
  rewrite run_bind. cbn [createSession tick].
  do 4 eexists. split; [cbv; reflexivity|]. split; [reflexivity|]. split; reflexivity.
Qed.

(** X10. [initializeGame] replaces whatever was stored by a session in
    the [betting] state with the given balance, no bet, no cards and an
    empty deck, under a fresh record whose [hashedServerSeed] is the hash
    of its [serverSeed] and whose [completed] is false. The view shows
    that hash and no server seed. A bet or a new round asked for with no
    session stored and no session identifier does the same with a
    balance of 1000: the amount of the bet is dropped. *)
Theorem initializeGame_fresh :
  ∀ (initialBalance : float) (w : World),
    (∃ v w' record sid,
       initializeGame initialBalance w = Some (v, w')
       ∧ cookie w' = Some (mkSession sid [] [] [] betting initialBalance 0%float None
                             (Some record))
       ∧ hashedServerSeed record = hashSeed (serverSeed record)
       ∧ completed record = false
       ∧ v_gameState v = betting ∧ v_balance v = initialBalance
       ∧ (v_hashedServerSeed <$> v_provablyFair v) = Some (hashedServerSeed record)
       ∧ shownSeed v = None)
    ∧ (cookie w = None →
       ∀ (b : float) (sessionId : option string),
         given sessionId = false →
         placeBet b sessionId w = initializeGame 1000 w
         ∧ newRound sessionId w = initializeGame 1000 w).
Proof.
  intros initialBalance w. split.
  - destruct (initializeGame_run initialBalance w)
      as (v & w' & record & sid & Hrun & Hstored & Hrecord & Hv).
    exists v, w', record, sid. split; [exact Hrun|]. split; [exact Hstored|].
    rewrite Hv, Hrecord. repeat split; reflexivity.
  - intros Hnone b sessionId Hgiven. split.
    + unfold placeBet. rewrite run_bind. cbn [getSession]. rewrite Hnone, Hgiven.
      rewrite run_bind, run_ret. reflexivity.
    + unfold newRound. rewrite run_bind. cbn [getSession]. rewrite Hnone, Hgiven.
      reflexivity.
Qed.

(** X11. A hit on a session that is not in the [playing] state draws
    nothing: the answer is the view of the session under the message
    "Invalid game state for hit action", and the stored session is the
    one found. *)
Theorem playerHit_wrong_state :
  ∀ (sessionId : option string) (w : World) (session : GameSession),
    cookie w = Some session →
    gameState session ≠ playing →
    ∃ v w',
      playerHit sessionId w = Some (v, w')
      ∧ cookie w' = Some session
      ∧ message v = "Invalid game state for hit action"
      ∧ v_gameState v = gameState session
      ∧ v_balance v = balance session
      ∧ length (v_playerCards v) = length (playerCards session).
Proof.
  intros sessionId w session Hcookie Hstate.
  unfold playerHit. rewrite run_bind. cbn [getSession]. rewrite Hcookie.
  rewrite (bool_decide_eq_false_2 _ Hstate). cbn [negb].
  destruct (createClientGameState_run session false false false w)
    as (dc & pc & pf & Hview & _ & [Hp _] & _).
  rewrite (run_bind_Some _ _ _ _ _ Hview), run_ret.
  do 2 eexists. split; [reflexivity|]. cbn. auto.
Qed.

(** X12. A stand on a session that is not in the [playing] state and
    has an empty hand on either side, or a result already, changes
    nothing: the answer is the view of the session under the message
    "Invalid game state for stand action. Please start a new game." *)
Theorem playerStand_wrong_state :
  ∀ (sessionId : option string) (w : World) (session : GameSession),
    cookie w = Some session →
    gameState session ≠ playing →
    playerCards session = [] ∨ dealerCards session = [] ∨ is_Some (gameResult session) →
    ∃ v w',
      playerStand sessionId w = Some (v, w')
      ∧ cookie w' = Some session
      ∧ message v = "Invalid game state for stand action. Please start a new game."
      ∧ v_gameState v = gameState session
      ∧ v_balance v = balance session.
Proof.
  intros sessionId w session Hcookie Hstate Hstuck.
  unfold playerStand. rewrite run_bind. cbn [getSession]. rewrite Hcookie.
  rewrite (bool_decide_eq_false_2 _ Hstate). cbn [negb].
  assert ((0 <? length (playerCards session))%nat
          && (0 <? length (dealerCards session))%nat
          && negb (bool_decide (is_Some (gameResult session))) = false) as ->.
  { destruct Hstuck as [->|[->|Hres]].
    - reflexivity.
    - apply andb_false_iff. left. apply andb_false_r.
    - rewrite (bool_decide_eq_true_2 _ Hres). apply andb_false_r. }
  rewrite run_bind, run_ret.
  destruct (createClientGameState_run session false false false w)
    as (dc & pc & pf & Hview & _).
  rewrite (run_bind_Some _ _ _ _ _ Hview), run_ret.
  do 2 eexists. split; [reflexivity|]. cbn. auto.
Qed.

(** X13. A stand on a session that is not in the [playing] state but
    holds cards on both sides and no result goes on exactly as the stand
    on the same session put back in the [playing] state. *)
Theorem playerStand_forces_playing :
  ∀ (sessionId : option string) (t : nat) (session : GameSession),
    gameState session ≠ playing →
    playerCards session ≠ [] → dealerCards session ≠ [] → gameResult session = None →
    playerStand sessionId (mkWorld (Some session) t)
    = playerStand sessionId (mkWorld (Some (with_gameState playing session)) t).
Proof.
  intros sessionId t session Hstate Hplayer Hdealer Hresult.
  unfold playerStand. rewrite !run_bind. cbn [getSession cookie].
  rewrite (bool_decide_eq_false_2 _ Hstate).
  rewrite (bool_decide_eq_true_2 (gameState (with_gameState playing session) = playing))
    by reflexivity.
  cbn [negb]. rewrite Hresult.
  rewrite (bool_decide_eq_false_2 (is_Some None)) by (intros [? ?]; discriminate).
  destruct (playerCards session) as [|p ps]; [contradiction|].
  destruct (dealerCards session) as [|d ds] eqn:Hd; [contradiction|].
  cbn [length Nat.ltb Nat.leb andb negb].
  rewrite !run_bind. cbn [updateSession tick]. rewrite !run_ret. reflexivity.
Qed.

(** ** The dealer's turn at its edges *)

(** From the [playing] state, [playerStand] reveals the dealer's cards,
    runs the loop on the session in the [dealerTurn] state, settles and
    stores the result. *)
Lemma playerStand_playing_unfold sessionId w session :
  cookie w = Some session → gameState session = playing →
  ∃ w1,
    playerStand sessionId w
    = match dealerLoop (reverse (deck session))
              (with_gameState dealerTurn
                 (with_dealerCards (map (with_hidden false) (dealerCards session)) session))
              w1 with
      | Some (s2, w2) =>
          createClientGameState (settle s2) false false false
            (mkWorld (Some (settle s2)) (tick w2))
      | None => None
      end.
Proof.
  intros Hcookie Hplaying.
  unfold playerStand. rewrite run_bind. cbn [getSession]. rewrite Hcookie.
  rewrite Hplaying. rewrite bool_decide_eq_true_2 by reflexivity. cbn [negb].
  rewrite run_bind, run_ret. cbv zeta.
  set (s1 := with_gameState dealerTurn
               (with_dealerCards (map (with_hidden false) (dealerCards session)) session)).
  rewrite run_bind. cbn [updateSession].
  destruct (createClientGameState_run s1 true false false (mkWorld (Some s1) (tick w)))
    as (dc & pc & pf & Hview & _).
  rewrite (run_bind_Some _ _ _ _ _ Hview).
  match goal with |- ∃ _, (_ ≫= _) ?W = _ => exists W end.
  rewrite run_bind. change (deck s1) with (deck session).
  destruct (dealerLoop _ _ _) as [[s2 w2]|]; [|reflexivity].
  rewrite run_bind. reflexivity.
Qed.

(** X14. When the dealer's cards already score 17 or more at a stand,
    the dealer draws nothing and the deck is left as it is, an empty
    deck included: the dealer's cards are only turned face up (each is
    stored with [hidden = false]) before the round is settled. *)
Theorem playerStand_dealer_stands_pat :
  ∀ (sessionId : option string) (w : World) (session : GameSession),
    cookie w = Some session →
    gameState session = playing →
    17 ≤ calculateScore (dealerCards session) →
    ∃ v w' session',
      playerStand sessionId w = Some (v, w')
      ∧ cookie w' = Some session'
      ∧ deck session' = deck session
      ∧ dealerCards session' = map (with_hidden false) (dealerCards session)
      ∧ playerCards session' = playerCards session
      ∧ gameState session' = gameOver
      ∧ gameResult session'
        = Some (determineGameResult (playerCards session) (dealerCards session))
      ∧ Forall (λ c, hidden c = Some false) (dealerCards session').
Proof.
  intros sessionId w session Hcookie Hplaying Hpat.
  destruct (playerStand_playing_unfold sessionId w session Hcookie Hplaying) as (w1 & ->).
  set (s1 := with_gameState dealerTurn
               (with_dealerCards (map (with_hidden false) (dealerCards session)) session)).
  assert (dealerLoop (reverse (deck session)) s1 w1 = Some (s1, w1)) as ->.
  { destruct (reverse (deck session)); cbn [dealerLoop];
      subst s1; cbn [dealerCards with_gameState with_dealerCards];
      rewrite (calculateScore_ranks (with_hidden false)) by reflexivity;
      rewrite (proj2 (Z.ltb_ge _ _) Hpat); reflexivity. }
  destruct (createClientGameState_run (settle s1) false false false
              (mkWorld (Some (settle s1)) (tick w1))) as (dc & pc & pf & Hview & _).
  destruct (settle_fields s1) as (Fdeck & Fdealer & Fplayer & Fstate & Fresult & _).
  do 2 eexists. exists (settle s1). split; [exact Hview|]. split; [reflexivity|].
  rewrite Fdeck, Fdealer, Fplayer, Fstate, Fresult. subst s1. cbn.
  repeat match goal with |- _ ∧ _ => split end; try reflexivity.
  - f_equal. unfold determineGameResult.
    rewrite (calculateScore_ranks (with_hidden false)) by reflexivity.
    rewrite length_map. reflexivity.
  - apply Forall_forall. intros c Hc.
    apply list_elem_of_In, in_map_iff in Hc as (c0 & <- & _). reflexivity.
Qed.

Lemma dealerLoop_exhausts stack : ∀ session w,
  (∀ n, (n ≤ length stack)%nat →
        calculateScore (dealerCards session ++ take n stack) < 17) →
  dealerLoop stack session w = None.
Proof.
  induction stack as [|c stack IH]; intros session w Hbelow; cbn [dealerLoop].
  - specialize (Hbelow 0%nat (Nat.le_refl _)). cbn [take] in Hbelow.
    rewrite app_nil_r in Hbelow. rewrite (proj2 (Z.ltb_lt _ _) Hbelow). reflexivity.
  - pose proof (Hbelow 0%nat (Nat.le_0_l _)) as H0. cbn [take] in H0.
    rewrite app_nil_r in H0. rewrite (proj2 (Z.ltb_lt _ _) H0).
    rewrite run_bind. cbn [updateSession].
    match goal with
    | |- context [(createClientGameState ?s1 _ _ _ ≫= _) ?w1] =>
        destruct (createClientGameState_run s1 true false false w1)
          as (dc & pc & pf & Hview & _);
        rewrite (run_bind_Some _ _ _ _ _ Hview)
    end.
    apply IH. intros n Hn. cbn [dealerCards with_dealerCards].
    rewrite <- app_assoc. apply (Hbelow (S n)). simpl. lia.
Qed.

(** X15. When the deck runs out at a stand before the dealer reaches 17
    (the dealer is below 17 with every number of cards that the deck can
    still give), the action does not return: the loop takes [undefined]
    from the empty deck and the scoring that follows throws. *)
Theorem playerStand_deck_runs_out :
  ∀ (sessionId : option string) (w : World) (session : GameSession),
    cookie w = Some session →
    gameState session = playing →
    (∀ n, (n ≤ length (deck session))%nat →
          calculateScore (dealerCards session ++ take n (reverse (deck session))) < 17) →
    playerStand sessionId w = None.
Proof.
  intros sessionId w session Hcookie Hplaying Hbelow.
  destruct (playerStand_playing_unfold sessionId w session Hcookie Hplaying) as (w1 & ->).
  rewrite dealerLoop_exhausts; [reflexivity|].
  intros n Hn. cbn [dealerCards with_gameState with_dealerCards].
  rewrite length_reverse in Hn. specialize (Hbelow n Hn).
  rewrite <- (calculateScore_ranks (with_hidden false)) in Hbelow by reflexivity.
  rewrite fmap_app in Hbelow.
  rewrite <- (calculateScore_ranks (with_hidden false)
                (map (with_hidden false) (dealerCards session) ++ _)) by reflexivity.
  rewrite fmap_app.
  replace (with_hidden false <$> map (with_hidden false) (dealerCards session))
    with (with_hidden false <$> dealerCards session); [exact Hbelow|].
  rewrite <- list_fmap_compose. reflexivity.
Qed.

(** ** A new round, and the deal *)

(** X16. [newRound] on a stored session, in whatever state, puts it in
    the [betting] state with no cards, no result and a bet of 0, and
    keeps its identifier, balance and deck; a stake debited for a round
    still in play is not given back. A session that had a record gets a
    fresh one, not completed, whose hash is that of its seed. The view
    shows no server seed, and shows as its bet the bet the session had
    before, not the 0 now stored. *)
Theorem newRound_resets :
  ∀ (sessionId : option string) (w : World) (session : GameSession),
    cookie w = Some session →
    ∃ v w' session',
      newRound sessionId w = Some (v, w')
      ∧ cookie w' = Some session'
      ∧ gameState session' = betting
      ∧ dealerCards session' = [] ∧ playerCards session' = []
      ∧ gameResult session' = None
      ∧ bet session' = 0%float
      ∧ balance session' = balance session
      ∧ deck session' = deck session
      ∧ id session' = id session
      ∧ match provablyFair session with
        | Some _ =>
            ∃ record, provablyFair session' = Some record
                      ∧ serverSeed record = seed_at 32 (S (tick w))
                      ∧ hashedServerSeed record = hashSeed (serverSeed record)
                      ∧ completed record = false
        | None => provablyFair session' = None
        end
      ∧ v_bet v = bet session
      ∧ v_gameState v = betting
      ∧ shownSeed v = None.
Proof.
  intros sessionId w session Hcookie.
  unfold newRound. rewrite run_bind. cbn [getSession]. rewrite Hcookie. cbv zeta.
  rewrite run_bind.
  destruct (provablyFair session) as [old|] eqn:Hold;
    cbn [provablyFair with_playerCards with_dealerCards with_gameResult with_bet
         with_gameState]; rewrite Hold.
  - rewrite run_bind, freshProvablyFair_run, run_ret.
    rewrite run_bind. cbn [updateSession].
    match goal with
    | |- context [(createClientGameState ?sF _ _ _ ≫= _) ?wF] =>
        destruct (createClientGameState_run sF false false false wF)
          as (dc & pc & pf & Hview & _ & _ & Hseed);
        rewrite (run_bind_Some _ _ _ _ _ Hview), run_ret;
        do 2 eexists; exists sF
    end.
    split; [reflexivity|]. split; [reflexivity|]. cbn.
    repeat split; try reflexivity.
    + eexists. repeat split; reflexivity.
    + exact (seedGuarded_open _ _ Hseed eq_refl).
  - rewrite run_ret. rewrite run_bind. cbn [updateSession].
    match goal with
    | |- context [(createClientGameState ?sF _ _ _ ≫= _) ?wF] =>
        destruct (createClientGameState_run sF false false false wF)
          as (dc & pc & pf & Hview & _ & _ & Hseed);
        rewrite (run_bind_Some _ _ _ _ _ Hview), run_ret;
        do 2 eexists; exists sF
    end.
    split; [reflexivity|]. split; [reflexivity|]. cbn.
    repeat split; try reflexivity; try exact Hold.
    cbn in Hseed. rewrite Hold in Hseed. unfold shownSeed. cbn.
    destruct pf; [contradiction | reflexivity].
Qed.

Lemma valid_bet_test (b bal : float) :
  (b <=? 0)%float = false → (bal <? b)%float = false → (b <=? 0)%float || (bal <? b)%float = false.
Proof.
  intros Hpos Hle. rewrite Hpos, Hle. reflexivity.
Qed.

Lemma pop_run session : ∀ c rest,
  deck session = rest ++ [c] →
  ∀ w, popCard session w = Some ((c, with_deck rest session), w).
Proof.
  intros c rest Hdeck w. unfold popCard. rewrite Hdeck, pop_snoc. reflexivity.
Qed.

Lemma four_from_end (l : list CardType) :
  (4 ≤ length l)%nat → ∃ rest a b c d, l = rest ++ [a; b; c; d].
Proof.
  intros Hlen. exists (take (length l - 4) l).
  pose proof (take_drop (length l - 4) l) as Hsplit.
  destruct (drop (length l - 4) l) as [|a [|b [|c [|d [|e t]]]]] eqn:Hdrop;
    pose proof (f_equal length Hdrop) as Hn; rewrite length_drop in Hn; simpl in Hn;
    try lia.
  exists a, b, c, d. symmetry. exact Hsplit.
Qed.

(** The deal of [placeBet], from the deck just made. *)
Lemma placeBet_deal_run b sessionId w session newDeck rest p2 p1 d2 d1 w1 :
  cookie w = Some session →
  (b <=? 0)%float = false → (balance session <? b)%float = false →
  match provablyFair session with
  | Some pf => createProvablyFairDeck (serverSeed pf) (clientSeed pf) w
  | None => createDeck w
  end = Some (newDeck, w1) →
  newDeck = rest ++ [p2; p1; d2; d1] →
  let dealt :=
    mkSession (id session) rest
      [with_hidden false d1; with_hidden true d2]
      [with_hidden false p1; with_hidden false p2]
      playing (balance session - b)%float b None (provablyFair session) in
  placeBet b sessionId w
  = createClientGameState dealt false true false (mkWorld (Some dealt) (tick w1)).
Proof.
  intros Hcookie Hpos Hle Hdeck Hsplit dealt.
  unfold placeBet. rewrite run_bind. cbn [getSession]. rewrite Hcookie.
  rewrite run_bind, run_ret. rewrite (valid_bet_test _ _ Hpos Hle).
  rewrite run_bind.
  assert ((match provablyFair session with
           | Some pf => createProvablyFairDeck (serverSeed pf) (clientSeed pf)
           | None => createDeck
           end) w = Some (newDeck, w1)) as ->
    by (destruct (provablyFair session); exact Hdeck).
  cbv zeta.
  rewrite run_bind, (pop_run _ d1 (rest ++ [p2; p1; d2]))
    by (cbn; rewrite Hsplit, <- app_assoc; reflexivity).
  cbv beta iota. rewrite run_bind, (pop_run _ d2 (rest ++ [p2; p1]))
    by (cbn; rewrite <- app_assoc; reflexivity).
  cbv beta iota. rewrite run_bind, (pop_run _ p1 (rest ++ [p2]))
    by (cbn; rewrite <- app_assoc; reflexivity).
  cbv beta iota. rewrite run_bind, (pop_run _ p2 rest) by reflexivity.
  cbv beta iota. rewrite run_bind. cbn [updateSession]. reflexivity.
Qed.

Lemma createProvablyFairDeck_run serverSeed clientSeed w :
  shuffleContract generateShuffledDeck →
  ∃ shuffled,
    createProvablyFairDeck serverSeed clientSeed w = Some (shuffled, w)
    ∧ length shuffled = 52%nat
    ∧ ∀ k index, generateShuffledDeck serverSeed clientSeed !! k = Some index →
        shuffled !! k = orderedDeck !! index.
Proof.
  intros Hgen. destruct (Hgen serverSeed clientSeed) as [Hlen Hrange].
  unfold createProvablyFairDeck. rewrite run_bind, run_ret.
  destruct (pushShuffled_run _ [] w Hrange) as (drawn & Hrun & Hdrawn & Hall).
  exists drawn. split; [exact Hrun|]. split; [lia | exact Hall].
Qed.

(** X17. A bet that passes the test of [placeBet] (neither [bet <= 0]
    nor [bet > balance], as doubles compare) on a stored session with a
    provably-fair record is taken in whatever state the session is: a
    deck is made from the record's two seeds (card [k] is card
    [indices[k]] of the ordered deck), its last four cards go, in the
    order popped, to the dealer (first face up, second face down) and to
    the player, and 48 stay. The bet is debited, the state is [playing],
    the result is cleared and the record is kept as it is. In the view
    the dealer's second entry has no suit and no rank, and the dealer
    score next to it is that of both dealer cards. *)
Theorem placeBet_deals :
  shuffleContract generateShuffledDeck →
  ∀ (b : float) (sessionId : option string) (w : World) (session : GameSession)
    (record : ProvablyFairData),
    cookie w = Some session →
    provablyFair session = Some record →
    (b <=? 0)%float = false → (balance session <? b)%float = false →
    ∃ v w' session' newDeck d1 d2 p1 p2 e1 e2,
      placeBet b sessionId w = Some (v, w')
      ∧ cookie w' = Some session'
      ∧ (∀ k index,
           generateShuffledDeck (serverSeed record) (clientSeed record) !! k = Some index →
           newDeck !! k = orderedDeck !! index)
      ∧ newDeck = deck session' ++ [p2; p1; d2; d1]
      ∧ length (deck session') = 48%nat
      ∧ dealerCards session' = [with_hidden false d1; with_hidden true d2]
      ∧ playerCards session' = [with_hidden false p1; with_hidden false p2]
      ∧ gameState session' = playing
      ∧ gameResult session' = None
      ∧ bet session' = b
      ∧ balance session' = (balance session - b)%float
      ∧ provablyFair session' = Some record
      ∧ id session' = id session
      ∧ v_dealerCards v = [e1; e2]
      ∧ c_suit e1 = Some (suit d1) ∧ c_rank e1 = Some (rank d1) ∧ c_hidden e1 = false
      ∧ opaque e2 ∧ c_hidden e2 = true
      ∧ dealerScore v = calculateScore [d1; d2]
      ∧ playerScore v = calculateScore [p1; p2].
Proof.
  intros Hgen b sessionId w session record Hcookie Hrecord Hpos Hle.
  destruct (createProvablyFairDeck_run (serverSeed record) (clientSeed record) w Hgen)
    as (newDeck & Hdeck & Hlen & Hall).
  destruct (four_from_end newDeck) as (rest & p2 & p1 & d2 & d1 & Hsplit); [lia|].
  pose proof (placeBet_deal_run b sessionId w session newDeck rest p2 p1 d2 d1 w
                Hcookie Hpos Hle) as Hrun.
  rewrite Hrecord in Hrun. specialize (Hrun Hdeck Hsplit). cbv zeta in Hrun.
  rewrite Hrun.
  match goal with
  | |- context [createClientGameState ?sF _ _ _ ?wF] =>
      destruct (createClientGameState_run sF false true false wF)
        as (dc & pc & pf & Hview & [Hdlen Hd] & _); rewrite Hview; set (dealt := sF) in *
  end.
  cbn [dealerCards length] in Hdlen.
  destruct dc as [|e1 [|e2 [|e3 dc]]]; try discriminate Hdlen.
  destruct (Hd 0%nat _ e1 eq_refl eq_refl) as (_ & _ & Hs1 & Hr1 & Hh1).
  destruct (Hd 1%nat _ e2 eq_refl eq_refl) as (_ & _ & Hs2 & Hr2 & Hh2).
  do 2 eexists. exists dealt, newDeck, d1, d2, p1, p2, e1, e2.
  split; [reflexivity|]. split; [reflexivity|]. split; [exact Hall|].
  split; [exact Hsplit|]. split.
  { subst dealt. cbn. rewrite Hsplit, length_app in Hlen. simpl in Hlen. lia. }
  subst dealt. cbn.
  repeat split; try reflexivity; try assumption.
Qed.

(** ** Every action is a transition *)

Lemma view_keeps_cookie session m i h w v w' :
  createClientGameState session m i h w = Some (v, w') → cookie w' = cookie w.
Proof.
  intros Hrun.
  destruct (createClientGameState_run session m i h w) as (dc & pc & pf & Hrun' & _).
  rewrite Hrun in Hrun'. injection Hrun' as _ ->. reflexivity.
Qed.

Lemma message_keeps_cookie session msg w v w' :
  (view ← createClientGameState session false false false;
   mret (with_message msg view)) w = Some (v, w') →
  cookie w' = cookie w.
Proof.
  intros Hrun.
  destruct (show_message_run session msg w) as (v2 & w2 & Hrun' & Hcookie & _).
  rewrite Hrun in Hrun'. injection Hrun' as _ ->. exact Hcookie.
Qed.

Lemma initializeGame_transition a found initialBalance w v w' :
  startsWith a found initialBalance →
  initializeGame initialBalance w = Some (v, w') →
  ∃ session', cookie w' = Some session' ∧ Transition a found session'.
Proof.
  intros Hstart Hrun.
  destruct (initializeGame_run initialBalance w)
    as (v1 & w1 & record & sid & Hrun' & Hstored & Hrecord & _).
  rewrite Hrun in Hrun'. injection Hrun' as _ ->.
  eexists. split; [exact Hstored|].
  apply t_fresh; [exact Hstart | rewrite Hrecord; reflexivity..].
Qed.

Lemma playerHit_empty_deck sessionId w session :
  cookie w = Some session → gameState session = playing → deck session = [] →
  playerHit sessionId w = None.
Proof.
  intros Hcookie Hplaying Hdeck.
  unfold playerHit. rewrite run_bind. cbn [getSession]. rewrite Hcookie.
  rewrite Hplaying. rewrite bool_decide_eq_true_2 by reflexivity. cbn [negb].
  unfold popCard. rewrite Hdeck. reflexivity.
Qed.

Lemma playerHit_transition sessionId w v w' :
  playerHit sessionId w = Some (v, w') →
  cookie w' = cookie w
  ∨ ∃ session', cookie w' = Some session'
                ∧ Transition (PlayerHit sessionId) (cookie w) session'.
Proof.
  intros Hrun. destruct (cookie w) as [session|] eqn:Hcookie.
  - destruct (decide (gameState session = playing)) as [Hplaying|Hstate].
    + destruct (deck session) as [|c rest _] eqn:Hdeck using rev_ind.
      * rewrite (playerHit_empty_deck _ _ _ Hcookie Hplaying Hdeck) in Hrun. discriminate.
      * destruct (playerHit_playing_run sessionId w session c rest Hcookie Hplaying Hdeck)
          as (v1 & w1 & s' & Hrun' & Hstored & _ & Hs').
        rewrite Hrun in Hrun'. injection Hrun' as _ ->.
        right. exists s'. split; [exact Hstored|]. cbv zeta in Hs'. rewrite Hs'.
        destruct (Z.ltb_spec 21 (calculateScore (playerCards session ++ [with_hidden false c]))).
        -- eapply t_bust; eauto.
        -- eapply t_hit; eauto.
    + left. unfold playerHit in Hrun. rewrite run_bind in Hrun. cbn [getSession] in Hrun.
      rewrite Hcookie in Hrun. rewrite (bool_decide_eq_false_2 _ Hstate) in Hrun.
      cbn [negb] in Hrun. rewrite (message_keeps_cookie _ _ _ _ _ Hrun). exact Hcookie.
  - left. unfold playerHit in Hrun. rewrite run_bind in Hrun. cbn [getSession] in Hrun.
    rewrite Hcookie in Hrun. injection Hrun as _ <-. exact Hcookie.
Qed.

Lemma dealerLoop_inv stack : ∀ session w session' w',
  deck session = reverse stack →
  dealerLoop stack session w = Some (session', w') →
  ∃ drawn rest,
    stack = drawn ++ rest
    ∧ session' = with_dealerCards (dealerCards session ++ drawn)
                   (with_deck (reverse rest) session)
    ∧ 17 ≤ calculateScore (dealerCards session ++ drawn).
Proof.
  induction stack as [|c stack IH]; intros session w session' w' Hdeck Hrun;
    cbn [dealerLoop] in Hrun;
    destruct (Z.ltb_spec (calculateScore (dealerCards session)) 17) as [Hlt|Hge].
  - discriminate Hrun.
  - injection Hrun as <- _. exists [], []. rewrite !app_nil_r.
    split; [reflexivity|]. split; [|exact Hge].
    destruct session; simpl in *; subst. reflexivity.
  - rewrite run_bind in Hrun. cbn [updateSession] in Hrun.
    match type of Hrun with
    | context [(createClientGameState ?s1 _ _ _ ≫= _) ?w1] =>
        destruct (createClientGameState_run s1 true false false w1)
          as (dc & pc & pf & Hview & _);
        rewrite (run_bind_Some _ _ _ _ _ Hview) in Hrun;
        destruct (IH s1 _ _ _ eq_refl Hrun) as (drawn & rest & Hstack & Hs' & Hfinal)
    end.
    exists (c :: drawn), rest. split; [rewrite Hstack; reflexivity|].
    cbn [dealerCards with_dealerCards with_deck] in Hs', Hfinal.
    rewrite <- app_assoc in Hs', Hfinal. split; [|exact Hfinal].
    rewrite Hs'. reflexivity.
  - injection Hrun as <- _. exists [], (c :: stack). rewrite !app_nil_r.
    split; [reflexivity|]. split; [|exact Hge].
    destruct session; simpl in *; subst. reflexivity.
Qed.

Lemma playerStand_forced_run sessionId t session :
  gameState session ≠ playing → forcible session →
  playerStand sessionId (mkWorld (Some session) t)
  = playerStand sessionId (mkWorld (Some (with_gameState playing session)) t).
Proof.
  intros Hstate (Hplayer & Hdealer & Hresult).
  unfold playerStand. rewrite !run_bind. cbn [getSession cookie].
  rewrite (bool_decide_eq_false_2 _ Hstate).
  rewrite (bool_decide_eq_true_2 (gameState (with_gameState playing session) = playing))
    by reflexivity.
  cbn [negb]. rewrite Hresult.
  rewrite (bool_decide_eq_false_2 (is_Some None)) by (intros [? ?]; discriminate).
  destruct (playerCards session) as [|p ps]; [contradiction|].
  destruct (dealerCards session) as [|d ds] eqn:Hd; [contradiction|].
  cbn [length Nat.ltb Nat.leb andb negb].
  rewrite !run_bind. cbn [updateSession tick]. rewrite !run_ret. reflexivity.
Qed.

Lemma playerStand_stuck_run sessionId w session :
  cookie w = Some session → gameState session ≠ playing → ¬ forcible session →
  playerStand sessionId w
  = (view ← createClientGameState session false false false;
     mret (with_message
             "Invalid game state for stand action. Please start a new game." view)) w.
Proof.
  intros Hcookie Hstate Hstuck.
  unfold playerStand. rewrite run_bind. cbn [getSession]. rewrite Hcookie.
  rewrite (bool_decide_eq_false_2 _ Hstate). cbn [negb].
  assert ((0 <? length (playerCards session))%nat
          && (0 <? length (dealerCards session))%nat
          && negb (bool_decide (is_Some (gameResult session))) = false) as ->.
  { destruct (playerCards session) as [|p ps] eqn:Hp; [reflexivity|].
    destruct (dealerCards session) as [|d ds] eqn:Hd; [reflexivity|].
    destruct (gameResult session) as [r|] eqn:Hr.
    - rewrite (bool_decide_eq_true_2 (is_Some (Some r))) by eauto. reflexivity.
    - exfalso. apply Hstuck. unfold forcible. rewrite Hp, Hd, Hr.
      repeat split; discriminate. }
  rewrite run_bind, run_ret. reflexivity.
Qed.

Lemma playerStand_playing_transition sessionId w session v w' :
  cookie w = Some session → gameState session = playing →
  playerStand sessionId w = Some (v, w') →
  ∃ drawn rest,
    reverse (deck session) = drawn ++ rest
    ∧ 17 ≤ calculateScore (map (with_hidden false) (dealerCards session) ++ drawn)
    ∧ cookie w'
      = Some (settle
                (mkSession (id session) (reverse rest)
                   (map (with_hidden false) (dealerCards session) ++ drawn)
                   (playerCards session) dealerTurn (balance session) (bet session)
                   (gameResult session) (provablyFair session))).
Proof.
  intros Hcookie Hplaying Hrun.
  destruct (playerStand_playing_unfold sessionId w session Hcookie Hplaying) as (w1 & Heq).
  rewrite Heq in Hrun.
  destruct (dealerLoop _ _ w1) as [[s2 w2]|] eqn:Hloop; [|discriminate].
  apply dealerLoop_inv in Hloop; [|symmetry; apply reverse_involutive].
  destruct Hloop as (drawn & rest & Hstack & Hs2 & Hfinal).
  exists drawn, rest. split; [exact Hstack|]. split; [exact Hfinal|].
  rewrite (view_keeps_cookie _ _ _ _ _ _ _ Hrun). cbn [cookie]. rewrite Hs2. reflexivity.
Qed.

Lemma forcible_dec session : forcible session ∨ ¬ forcible session.
Proof.
  unfold forcible.
  destruct (playerCards session); [right; intros (H & _); congruence|].
  destruct (dealerCards session); [right; intros (_ & H & _); congruence|].
  destruct (gameResult session); [right; intros (_ & _ & H); discriminate|].
  left. repeat split; discriminate.
Qed.

Lemma playerStand_transition sessionId w v w' :
  playerStand sessionId w = Some (v, w') →
  cookie w' = cookie w
  ∨ ∃ session', cookie w' = Some session'
                ∧ Transition (PlayerStand sessionId) (cookie w) session'.
Proof.
  intros Hrun. destruct (cookie w) as [session|] eqn:Hcookie.
  - destruct (decide (gameState session = playing)) as [Hplaying|Hstate].
    + destruct (playerStand_playing_transition _ _ _ _ _ Hcookie Hplaying Hrun)
        as (drawn & rest & Hstack & Hfinal & Hstored).
      right. eexists. split; [exact Hstored|].
      eapply t_stand; eauto.
    + destruct (forcible_dec session) as [Hforce|Hstuck].
      * destruct w as [c t]. cbn [cookie] in Hcookie. subst c.
        rewrite (playerStand_forced_run _ _ _ Hstate Hforce) in Hrun.
        destruct (playerStand_playing_transition sessionId
                    (mkWorld (Some (with_gameState playing session)) t)
                    (with_gameState playing session) v w' eq_refl eq_refl Hrun)
          as (drawn & rest & Hstack & Hfinal & Hstored).
        right. eexists. split; [exact Hstored|].
        apply (t_stand _ _ sessionId session drawn rest); auto.
      * left. rewrite (playerStand_stuck_run _ _ _ Hcookie Hstate Hstuck) in Hrun.
        rewrite (message_keeps_cookie _ _ _ _ _ Hrun). exact Hcookie.
  - left. unfold playerStand in Hrun. rewrite run_bind in Hrun. cbn [getSession] in Hrun.
    rewrite Hcookie in Hrun. injection Hrun as _ <-. exact Hcookie.
Qed.

Lemma newRound_run sessionId w session :
  cookie w = Some session →
  ∃ v w' fresh,
    newRound sessionId w = Some (v, w')
    ∧ cookie w'
      = Some (mkSession (id session) (deck session) [] [] betting (balance session) 0%float
                None fresh)
    ∧ match provablyFair session, fresh with
      | Some _, Some record => committed record ∧ completed record = false
      | None, None => True
      | _, _ => False
      end.
Proof.
  intros Hcookie.
  unfold newRound. rewrite run_bind. cbn [getSession]. rewrite Hcookie. cbv zeta.
  rewrite run_bind.
  destruct (provablyFair session) as [old|] eqn:Hold;
    cbn [provablyFair with_playerCards with_dealerCards with_gameResult with_bet
         with_gameState]; rewrite Hold.
  - rewrite run_bind, freshProvablyFair_run, run_ret.
    rewrite run_bind. cbn [updateSession].
    match goal with
    | |- context [(createClientGameState ?sF _ _ _ ≫= _) ?wF] =>
        destruct (createClientGameState_run sF false false false wF)
          as (dc & pc & pf & Hview & _);
        rewrite (run_bind_Some _ _ _ _ _ Hview), run_ret
    end.
    do 3 eexists. split; [reflexivity|]. split; [reflexivity|].
    split; reflexivity.
  - rewrite run_ret. rewrite run_bind. cbn [updateSession].
    match goal with
    | |- context [(createClientGameState ?sF _ _ _ ≫= _) ?wF] =>
        destruct (createClientGameState_run sF false false false wF)
          as (dc & pc & pf & Hview & _);
        rewrite (run_bind_Some _ _ _ _ _ Hview), run_ret
    end.
    do 2 eexists. exists None. split; [reflexivity|]. split; [|exact I].
    cbv [with_playerCards with_dealerCards with_gameResult with_bet with_gameState cookie].
    cbn. rewrite Hold. reflexivity.
Qed.

Lemma newRound_transition sessionId w v w' :
  newRound sessionId w = Some (v, w') →
  cookie w' = cookie w
  ∨ ∃ session', cookie w' = Some session'
                ∧ Transition (NewRound sessionId) (cookie w) session'.
Proof.
  intros Hrun. destruct (cookie w) as [session|] eqn:Hcookie.
  - destruct (newRound_run sessionId w session Hcookie)
      as (v1 & w1 & fresh & Hrun' & Hstored & Hfresh).
    rewrite Hrun in Hrun'. injection Hrun' as _ ->.
    right. eexists. split; [exact Hstored|]. eapply t_newRound; eauto.
  - unfold newRound in Hrun. rewrite run_bind in Hrun. cbn [getSession] in Hrun.
    rewrite Hcookie in Hrun. destruct (given sessionId).
    + left. injection Hrun as _ <-. exact Hcookie.
    + right. eapply initializeGame_transition; [|exact Hrun]. split; reflexivity.
Qed.

Lemma popCard_inv session w c session' w' :
  popCard session w = Some ((c, session'), w') →
  w' = w ∧ ∃ rest, deck session = rest ++ [c] ∧ session' = with_deck rest session.
Proof.
  unfold popCard. destruct (pop (deck session)) as [[c0 rest]|] eqn:Hpop; [|discriminate].
  intros [= <- <- <-]. split; [reflexivity|]. exists rest.
  split; [apply pop_Some, Hpop | reflexivity].
Qed.

Lemma pushShuffled_inv shuffleIndices : ∀ shuffledDeck w shuffled w',
  pushShuffled shuffleIndices shuffledDeck w = Some (shuffled, w') →
  ∃ drawn, shuffled = shuffledDeck ++ drawn
           ∧ Forall2 (λ index c, orderedDeck !! index = Some c) shuffleIndices drawn.
Proof.
  induction shuffleIndices as [|index rest IH]; intros acc w shuffled w' Hrun;
    cbn [pushShuffled] in Hrun.
  - injection Hrun as <- _. exists []. rewrite app_nil_r. split; [reflexivity | constructor].
  - destruct (orderedDeck !! index) as [c|] eqn:Hc; [|discriminate].
    destruct (IH _ _ _ _ Hrun) as (drawn & -> & Hall).
    exists (c :: drawn). rewrite <- app_assoc. split; [reflexivity|].
    constructor; assumption.
Qed.

Lemma createDeck_inv w newDeck w1 :
  createDeck w = Some (newDeck, w1) → newDeck ≡ₚ orderedDeck.
Proof.
  unfold createDeck. cbv zeta. generalize (length orderedDeck - 1)%nat. intros n Hrun.
  destruct (shuffleDown_run n orderedDeck w) as (shuffled & w2 & Hrun' & Hperm & _).
  rewrite Hrun in Hrun'. injection Hrun' as -> _. exact Hperm.
Qed.

Lemma madeFor_run session w newDeck w1 :
  match provablyFair session with
  | Some pf => createProvablyFairDeck (serverSeed pf) (clientSeed pf)
  | None => createDeck
  end w = Some (newDeck, w1) →
  madeFor session newDeck.
Proof.
  unfold madeFor. destruct (provablyFair session) as [pf|]; intros Hrun.
  - unfold createProvablyFairDeck in Hrun. rewrite run_bind, run_ret in Hrun.
    destruct (pushShuffled_inv _ _ _ _ _ Hrun) as (drawn & -> & Hall). exact Hall.
  - exact (createDeck_inv _ _ _ Hrun).
Qed.

Lemma invalid_bet_iff (b bal : float) :
  (b <=? 0)%float || (bal <? b)%float = false → (b <=? 0)%float = false ∧ (bal <? b)%float = false.
Proof.
  intros H. apply orb_false_iff in H. exact H.
Qed.

Lemma placeBet_found b sessionId w base v w' :
  cookie w = Some base →
  placeBet b sessionId w = Some (v, w') →
  ((b <=? 0)%float || (balance base <? b)%float = true ∧ cookie w' = Some base)
  ∨ ∃ newDeck rest p2 p1 d2 d1,
      (b <=? 0)%float = false ∧ (balance base <? b)%float = false
      ∧ madeFor base newDeck ∧ newDeck = rest ++ [p2; p1; d2; d1]
      ∧ cookie w'
        = Some (mkSession (id base) rest
                  [with_hidden false d1; with_hidden true d2]
                  [with_hidden false p1; with_hidden false p2]
                  playing (balance base - b)%float b None (provablyFair base)).
Proof.
  intros Hcookie Hrun.
  unfold placeBet in Hrun. rewrite run_bind in Hrun. cbn [getSession] in Hrun.
  rewrite Hcookie in Hrun. rewrite run_bind, run_ret in Hrun.
  destruct ((b <=? 0)%float || (balance base <? b)%float) eqn:Htest.
  - left. split; [reflexivity|].
    rewrite (message_keeps_cookie _ _ _ _ _ Hrun). exact Hcookie.
  - right. apply invalid_bet_iff in Htest as [Hpos Hle].
    rewrite run_bind in Hrun.
    match type of Hrun with
    | context [match ?m w with _ => _ end] =>
        destruct (m w) as [[newDeck w1]|] eqn:Hdeck; [|discriminate]
    end.
    apply madeFor_run in Hdeck. cbv zeta in Hrun.
    rewrite run_bind in Hrun.
    destruct (popCard _ w1) as [[[d1 s1] w2]|] eqn:H1; [|discriminate].
    apply popCard_inv in H1 as (-> & r1 & Hr1 & ->). cbv beta iota in Hrun.
    rewrite run_bind in Hrun.
    destruct (popCard _ w1) as [[[d2 s2] w2]|] eqn:H2; [|discriminate].
    apply popCard_inv in H2 as (-> & r2 & Hr2 & ->). cbv beta iota in Hrun.
    rewrite run_bind in Hrun.
    destruct (popCard _ w1) as [[[p1 s3] w2]|] eqn:H3; [|discriminate].
    apply popCard_inv in H3 as (-> & r3 & Hr3 & ->). cbv beta iota in Hrun.
    rewrite run_bind in Hrun.
    destruct (popCard _ w1) as [[[p2 s4] w2]|] eqn:H4; [|discriminate].
    apply popCard_inv in H4 as (-> & r4 & Hr4 & ->). cbv beta iota in Hrun.
    rewrite run_bind in Hrun. cbn [updateSession] in Hrun.
    apply view_keeps_cookie in Hrun. cbn in Hr1, Hr2, Hr3, Hr4, Hrun.
    exists newDeck, r4, p2, p1, d2, d1.
    split; [exact Hpos|]. split; [exact Hle|]. split; [exact Hdeck|].
    split; [|exact Hrun].
    rewrite Hr1, Hr2, Hr3, Hr4, <- !app_assoc. reflexivity.
Qed.

Lemma placeBet_creates b sessionId w :
  cookie w = None → given sessionId = true →
  placeBet b sessionId w
  = placeBet b sessionId
      (mkWorld
         (Some (mkSession (default "" sessionId) [] [] [] betting 1000%float 0%float None
                  (Some (mkProvablyFair (uuid_at (tick w)) (seed_at 32 (S (tick w)))
                           (hashSeed (seed_at 32 (S (tick w))))
                           (seed_at 16 (S (S (tick w)))) 0 false))))
         (S (S (S (tick w))))).
Proof.
  intros Hnone Hgiven. unfold placeBet.
  rewrite !run_bind. cbn [getSession cookie]. rewrite Hnone, Hgiven.
  rewrite !run_bind, freshProvablyFair_run. cbn [createSession tick]. rewrite !run_ret.
  reflexivity.
Qed.

Lemma placeBet_transition b sessionId w v w' :
  placeBet b sessionId w = Some (v, w') →
  cookie w' = cookie w
  ∨ ∃ session', cookie w' = Some session'
                ∧ Transition (PlaceBet b sessionId) (cookie w) session'.
Proof.
  intros Hrun. destruct (cookie w) as [base|] eqn:Hcookie.
  - destruct (placeBet_found _ _ _ _ _ _ Hcookie Hrun)
      as [[_ Hsame]|(newDeck & rest & p2 & p1 & d2 & d1 & Hpos & Hle & Hmade & Hsplit & Hstored)].
    + left. exact Hsame.
    + right. eexists. split; [exact Hstored|].
      eapply t_deal; eauto. left. reflexivity.
  - right. destruct (given sessionId) eqn:Hgiven.
    + rewrite (placeBet_creates _ _ _ Hcookie Hgiven) in Hrun.
      match type of Hrun with
      | placeBet _ _ (mkWorld (Some ?base) ?t) = _ =>
          destruct (placeBet_found b sessionId (mkWorld (Some base) t) base v w' eq_refl Hrun)
            as [[_ Hsame]|(newDeck & rest & p2 & p1 & d2 & d1
                            & Hpos & Hle & Hmade & Hsplit & Hstored)]
      end.
      * eexists. split; [exact Hsame|].
        apply t_fresh; [split; reflexivity | reflexivity | reflexivity].
      * eexists. split; [exact Hstored|].
        eapply (t_deal _ _ b sessionId _ newDeck rest p2 p1 d2 d1); eauto.
        right. split; [reflexivity|]. split; [exact Hgiven|].
        eexists. split; [reflexivity|]. split; reflexivity.
    + unfold placeBet in Hrun. rewrite run_bind in Hrun. cbn [getSession] in Hrun.
      rewrite Hcookie, Hgiven in Hrun. rewrite run_bind, run_ret in Hrun.
      eapply initializeGame_transition; [|exact Hrun]. split; reflexivity.
Qed.

Lemma perform_step a w v w' :
  perform a w = Some (v, w') →
  cookie w' = cookie w
  ∨ ∃ session', cookie w' = Some session' ∧ Transition a (cookie w) session'.
Proof.
  intros Hrun. destruct a; cbn [perform] in Hrun.
  - right. eapply initializeGame_transition; [|exact Hrun]. reflexivity.
  - apply placeBet_transition in Hrun. exact Hrun.
  - apply playerHit_transition in Hrun. exact Hrun.
  - apply playerStand_transition in Hrun. exact Hrun.
  - apply newRound_transition in Hrun. exact Hrun.
Qed.

(** ** What the transitions keep *)

Lemma two_cards_fine (a b : CardType) : calculateScore [a; b] ≤ 21.
Proof.
  destruct a as [sa ra ha], b as [sb rb hb].
  destruct ra, rb; apply Z.leb_le; reflexivity.
Qed.

Lemma face_fmap_hidden h (l : list CardType) :
  face <$> map (with_hidden h) l = face <$> l.
Proof. induction l as [|c l IH]; [reflexivity|]. cbn. f_equal. exact IH. Qed.

Lemma orderedDeck_bare : Forall (λ c, face c = c) orderedDeck.
Proof. apply (bool_decide_unpack _). vm_compute. exact I. Qed.

Lemma face_fmap_bare (l : list CardType) : l ≡ₚ orderedDeck → face <$> l = l.
Proof.
  intros Hperm.
  assert (Forall (λ c, face c = c) l) as Hbare
    by (rewrite Hperm; apply orderedDeck_bare).
  clear Hperm. induction Hbare as [|c l Hc _ IH]; [reflexivity|]. cbn. rewrite Hc. f_equal. exact IH.
Qed.

Lemma Forall2_lookup_fmap (indices : list nat) (l : list CardType) :
  Forall2 (λ index c, orderedDeck !! index = Some c) indices l →
  l = (λ index, default (card RA hearts) (orderedDeck !! index)) <$> indices.
Proof.
  induction 1 as [|index c indices l Hc _ IH]; [reflexivity|].
  rewrite fmap_cons, Hc. cbn [default from_option]. f_equal. exact IH.
Qed.

Lemma madeFor_Permutation base newDeck :
  shufflePermutes generateShuffledDeck → madeFor base newDeck → newDeck ≡ₚ orderedDeck.
Proof.
  intros Hgen. unfold madeFor. destruct (provablyFair base) as [pf|]; [|auto].
  intros Hall. rewrite (Forall2_lookup_fmap _ _ Hall).
  rewrite (Hgen (serverSeed pf) (clientSeed pf)). reflexivity.
Qed.

Lemma settle_record session :
  provablyFair (settle session)
  = (λ pf, mkProvablyFair (gameId pf) (serverSeed pf) (hashedServerSeed pf)
             (clientSeed pf) (nonce pf) true) <$> provablyFair session.
Proof.
  unfold settle. cbv zeta.
  destruct (negb _ && negb _); cbn; destruct (provablyFair session) eqn:Hpf;
    cbn; rewrite ?Hpf; reflexivity.
Qed.

Lemma betsOn_record sessionId found base :
  (∀ s, found = Some s → sound s) → betsOn sessionId found base →
  ∃ record, provablyFair base = Some record ∧ committed record.
Proof.
  intros Hfound [->|(_ & _ & record & -> & Hrecord & _)].
  - destruct (Hfound base eq_refl) as (_ & _ & _ & _ & _ & Hrec). exact Hrec.
  - exists record. split; [reflexivity | exact Hrecord].
Qed.

(** A transition from a sound session, or from nothing, ends in a sound
    session. *)
Lemma Transition_sound a found session' :
  shufflePermutes generateShuffledDeck →
  (∀ s, found = Some s → sound s) →
  Transition a found session' → sound session'.
Proof.
  intros Hgen Hfound Hstep.
  destruct Hstep as
    [sid bal record Hstart Hrecord Hopen
    |b sessionId base newDeck rest p2 p1 d2 d1 _ Hbase Hpos Hle Hmade Hsplit
    |sessionId s c rest _ -> Hplaying Hdeck Hfine
    |sessionId s c rest _ -> Hplaying Hdeck Hbust
    |sessionId s drawn rest _ -> Hstate Hstack Hfinal
    |sessionId s fresh _ -> Hfresh].
  - unfold sound. cbn. repeat split; try discriminate; try congruence.
    exists record. split; [reflexivity | exact Hrecord].
  - unfold sound. cbn. repeat split; try discriminate; try reflexivity.
    + apply two_cards_fine.
    + intros _. pose proof (madeFor_Permutation _ _ Hgen Hmade) as Hperm.
      rewrite <- (face_fmap_bare _ Hperm) in Hperm. rewrite <- Hperm, Hsplit.
      rewrite !fmap_app. cbn. apply Permutation_app_head.
      exact (reverse_Permutation [face p2; face p1; face d2; face d1]).
    + exact (betsOn_record _ _ _ Hfound Hbase).
  - destruct (Hfound s eq_refl) as (Hno & Hbet & Hover & Hplay & Hall & Hrec).
    destruct (Hplay Hplaying) as (Hdealer & Hresult & _).
    unfold sound. cbn. repeat split; try assumption; try congruence.
    intros Hstate. pose proof (Hall Hstate) as Hold. rewrite Hdeck in Hold.
    rewrite <- Hold. rewrite !fmap_app. cbn [fmap list_fmap].
    change (face (with_hidden false c)) with (face c). solve_Permutation.
  - destruct (Hfound s eq_refl) as (Hno & Hbet & Hover & Hplay & Hall & Hrec).
    assert (gameState s ≠ betting) as Hstate by congruence.
    unfold sound. cbn. repeat split; try discriminate; try assumption; eauto.
    intros _. pose proof (Hall Hstate) as Hold. rewrite Hdeck in Hold.
    rewrite <- Hold. rewrite !fmap_app, face_fmap_hidden. cbn [fmap list_fmap].
    change (face (with_hidden false c)) with (face c). solve_Permutation.
  - destruct (Hfound s eq_refl) as (Hno & Hbet & Hover & Hplay & Hall & Hrec).
    assert (gameState s ≠ betting) as Hnot.
    { destruct Hstate as [Hplaying|(Hp & Hd & Hr)]; [congruence|].
      intros Hb. destruct (Hbet Hb) as [_ Hnil]. contradiction. }
    destruct (settle_fields
                (mkSession (id s) (reverse rest)
                   (map (with_hidden false) (dealerCards s) ++ drawn) (playerCards s)
                   dealerTurn (balance s) (bet s) (gameResult s) (provablyFair s)))
      as (Fdeck & Fdealer & Fplayer & Fstate & Fresult & _).
    unfold sound. rewrite Fdeck, Fdealer, Fplayer, Fstate, Fresult, settle_record. cbn.
    repeat split; try discriminate; eauto.
    + intros _. pose proof (Hall Hnot) as Hold.
      rewrite <- (reverse_involutive (deck s)), Hstack, reverse_app in Hold.
      rewrite <- Hold. rewrite !fmap_app, face_fmap_hidden, !fmap_reverse.
      rewrite !reverse_Permutation. solve_Permutation.
    + destruct Hrec as (record & -> & Hrecord). eexists. split; [reflexivity|].
      exact Hrecord.
  - destruct (Hfound s eq_refl) as (_ & _ & _ & _ & _ & (old & Hold & _)).
    rewrite Hold in Hfresh. destruct fresh as [record|]; [|contradiction].
    unfold sound. cbn. repeat split; try discriminate; try congruence.
    exists record. split; [reflexivity | apply Hfresh].
Qed.

Lemma reachable_sound_sessions w :
  shufflePermutes generateShuffledDeck →
  Reachable w → ∀ session, cookie w = Some session → sound session.
Proof.
  intros Hgen Hreach. induction Hreach as [t | w a v w' _ IH Hrun].
  - intros s Hs. discriminate Hs.
  - intros s' Hs'. destruct (perform_step _ _ _ _ Hrun) as [Hsame|(s1 & Hstored & Hstep)].
    + apply IH. congruence.
    + rewrite Hstored in Hs'. injection Hs' as <-.
      exact (Transition_sound _ _ _ Hgen IH Hstep).
Qed.

(** X19. With a generator that returns rearrangements of 0..51, every
    session the actions can leave stored, starting from an empty store,
    is sound: it never rests in the [dealerTurn] state; in the [betting]
    state it holds no cards; in the [gameOver] state it has a result; in
    the [playing] state it has two dealer cards, no result and a
    player's hand of at most 21; out of the [betting] state its deck and
    hands together are exactly the 52 cards, so no card is dealt twice;
    and it has a record whose hash is that of its seed. *)
Theorem reachable_sound :
  shufflePermutes generateShuffledDeck →
  ∀ (w : World) (session : GameSession),
    Reachable w → cookie w = Some session → sound session.
Proof.
  intros Hgen w session Hreach Hcookie.
  exact (reachable_sound_sessions w Hgen Hreach session Hcookie).
Qed.

(** ** No action faults on a reachable world *)

Lemma shufflePermutes_contract :
  shufflePermutes generateShuffledDeck → shuffleContract generateShuffledDeck.
Proof.
  intros Hgen serverSeed clientSeed. split.
  - rewrite (Hgen serverSeed clientSeed). reflexivity.
  - apply Permutation_seq_range, Hgen.
Qed.

Lemma sound_stock session :
  sound session → gameState session = playing →
  (29 ≤ length (deck session))%nat ∧ length (dealerCards session) = 2%nat.
Proof.
  intros (_ & _ & _ & Hplay & Hall & _) Hplaying.
  destruct (Hplay Hplaying) as (Hdealer & _ & Hfine).
  assert (gameState session ≠ betting) as Hnot by congruence.
  pose proof (Permutation_length (Hall Hnot)) as Hlen.
  rewrite length_fmap, !length_app in Hlen.
  change (length orderedDeck) with 52%nat in Hlen.
  pose proof (calculateScore_ge_length (playerCards session)). split; lia.
Qed.

Lemma sound_not_forcible session :
  sound session → gameState session ≠ playing → ¬ forcible session.
Proof.
  intros (Hno & Hbet & Hover & _) Hstate (Hplayer & Hdealer & Hresult).
  destruct (gameState session) eqn:Hs; try congruence.
  - destruct (Hbet eq_refl) as [_ Hnil]. contradiction.
  - destruct (Hover eq_refl) as [r Hr]. congruence.
Qed.

Lemma placeBet_found_returns b sessionId w base :
  shufflePermutes generateShuffledDeck →
  cookie w = Some base → is_Some (provablyFair base) →
  ∃ v w', placeBet b sessionId w = Some (v, w').
Proof.
  intros Hgen Hcookie [record Hrecord].
  destruct ((b <=? 0)%float || (balance base <? b)%float) eqn:Htest.
  - unfold placeBet. rewrite run_bind. cbn [getSession]. rewrite Hcookie.
    rewrite run_bind, run_ret, Htest.
    destruct (show_message_run base "Invalid bet amount" w) as (v & w' & Hrun & _).
    eauto.
  - apply invalid_bet_iff in Htest as [Hpos Hle].
    destruct (createProvablyFairDeck_run (serverSeed record) (clientSeed record) w
                (shufflePermutes_contract Hgen)) as (newDeck & Hdeck & Hlen & _).
    destruct (four_from_end newDeck) as (rest & p2 & p1 & d2 & d1 & Hsplit); [lia|].
    pose proof (placeBet_deal_run b sessionId w base newDeck rest p2 p1 d2 d1 w
                  Hcookie Hpos Hle) as Hrun.
    rewrite Hrecord in Hrun. specialize (Hrun Hdeck Hsplit). cbv zeta in Hrun.
    rewrite Hrun.
    match goal with
    | |- context [createClientGameState ?sF _ _ _ ?wF] =>
        destruct (createClientGameState_run sF false true false wF)
          as (dc & pc & pf & Hview & _)
    end.
    eauto.
Qed.

Lemma perform_returns a w :
  shufflePermutes generateShuffledDeck →
  (∀ session, cookie w = Some session → sound session) →
  ∃ v w', perform a w = Some (v, w').
Proof.
  intros Hgen Hsound. destruct a as [bal|b sid|sid|sid|sid]; cbn [perform].
  - destruct (initializeGame_run bal w) as (v & w' & _ & _ & Hrun & _). eauto.
  - destruct (cookie w) as [base|] eqn:Hcookie.
    + apply (placeBet_found_returns _ _ _ base Hgen Hcookie).
      destruct (Hsound base eq_refl) as (_ & _ & _ & _ & _ & record & Hrecord & _). eauto.
    + destruct (given sid) eqn:Hgiven.
      * rewrite (placeBet_creates _ _ _ Hcookie Hgiven).
        eapply placeBet_found_returns; [exact Hgen | reflexivity | cbn; eauto].
      * unfold placeBet. rewrite run_bind. cbn [getSession]. rewrite Hcookie, Hgiven.
        rewrite run_bind, run_ret.
        destruct (initializeGame_run 1000 w) as (v & w' & _ & _ & Hrun & _). eauto.
  - destruct (cookie w) as [s|] eqn:Hcookie.
    + destruct (decide (gameState s = playing)) as [Hplaying|Hstate].
      * destruct (sound_stock s (Hsound s eq_refl) Hplaying) as [Hdeck _].
        destruct (deck s) as [|c rest _] eqn:Hd using rev_ind; [simpl in Hdeck; lia|].
        destruct (playerHit_playing_run sid w s c rest Hcookie Hplaying Hd)
          as (v & w' & _ & Hrun & _). eauto.
      * unfold playerHit. rewrite run_bind. cbn [getSession]. rewrite Hcookie.
        rewrite (bool_decide_eq_false_2 _ Hstate). cbn [negb].
        destruct (show_message_run s "Invalid game state for hit action" w)
          as (v & w' & Hrun & _). eauto.
    + unfold playerHit. rewrite run_bind. cbn [getSession]. rewrite Hcookie. eauto.
  - destruct (cookie w) as [s|] eqn:Hcookie.
    + destruct (decide (gameState s = playing)) as [Hplaying|Hstate].
      * destruct (sound_stock s (Hsound s eq_refl) Hplaying) as [Hdeck Hdealer].
        destruct (playerStand_playing_unfold sid w s Hcookie Hplaying) as (w1 & ->).
        match goal with
        | |- context [dealerLoop ?stack ?s1 w1] =>
            destruct (dealerLoop_run stack s1 w1)
              as (drawn & rest & s2 & w2 & _ & Hloop & _)
        end.
        { symmetry. apply reverse_involutive. }
        { cbn. rewrite length_map, length_reverse. lia. }
        rewrite Hloop.
        destruct (createClientGameState_run (settle s2) false false false
                    (mkWorld (Some (settle s2)) (tick w2))) as (dc & pc & pf & Hview & _).
        eauto.
      * rewrite (playerStand_stuck_run _ _ _ Hcookie Hstate
                   (sound_not_forcible s (Hsound s eq_refl) Hstate)).
        destruct (show_message_run s
                    "Invalid game state for stand action. Please start a new game." w)
          as (v & w' & Hrun & _). eauto.
    + unfold playerStand. rewrite run_bind. cbn [getSession]. rewrite Hcookie. eauto.
  - destruct (cookie w) as [s|] eqn:Hcookie.
    + destruct (newRound_run sid w s Hcookie) as (v & w' & _ & Hrun & _). eauto.
    + unfold newRound. rewrite run_bind. cbn [getSession]. rewrite Hcookie.
      destruct (given sid); [eauto|].
      destruct (initializeGame_run 1000 w) as (v & w' & _ & _ & Hrun & _). eauto.
Qed.

(** X20. With a generator that returns rearrangements of 0..51, no
    action faults on a world the actions can reach from an empty store:
    every request returns a view. In particular the deck never runs out,
    neither at a hit nor in the dealer's turn. *)
Theorem reachable_never_faults :
  shufflePermutes generateShuffledDeck →
  ∀ (w : World) (a : Action),
    Reachable w → ∃ v w', perform a w = Some (v, w') ∧ Reachable w'.
Proof.
  intros Hgen w a Hreach.
  destruct (perform_returns a w Hgen (reachable_sound_sessions w Hgen Hreach))
    as (v & w' & Hrun).
  exists v, w'. split; [exact Hrun|]. exact (reach_step w a v w' Hreach Hrun).
Qed.

(** X18. With a generator that returns rearrangements of 0..51, on
    every world the actions can reach from an empty store each action
    returns, and the session it leaves stored is either the one it found
    or one of six things: a fresh session (from [initializeGame], or
    from a bet or new round that found nothing), a deal (of any bet that
    passes the test of [placeBet], [NaN] included), a hit that stays in
    play, a bust, a stand settled after the dealer's draws, or a reset
    for a new round. *)
Theorem perform_transition :
  shufflePermutes generateShuffledDeck →
  ∀ (a : Action) (w : World),
    Reachable w →
    ∃ v w',
      perform a w = Some (v, w')
      ∧ (cookie w' = cookie w
         ∨ ∃ session', cookie w' = Some session' ∧ Transition a (cookie w) session').
Proof.
  intros Hgen a w Hreach.
  destruct (perform_returns a w Hgen (reachable_sound_sessions w Hgen Hreach))
    as (v & w' & Hrun).
  exists v, w'. split; [exact Hrun|]. exact (perform_step a w v w' Hrun).
Qed.

(** ** The record in the views *)

Lemma seedGuarded_mirrors session v w :
  cookie w = Some session →
  seedGuarded (provablyFair session) (v_provablyFair v) →
  mirrors v w.
Proof.
  intros Hcookie Hseed. unfold mirrors, storedRecord. rewrite Hcookie. exact Hseed.
Qed.

Lemma show_mirrors session m i h :
  hoare (λ w, cookie w = Some session) (createClientGameState session m i h) mirrors.
Proof.
  eapply hoare_weaken;
    [apply (hoare_createClientGameState (λ w, cookie w = Some session)) | |].
  - intros w t Hw. exact Hw.
  - intros w Hw. exact Hw.
  - intros v w (Hcookie & Hseed & _). eapply seedGuarded_mirrors; eauto.
Qed.

Lemma show_message_mirrors session msg :
  hoare (λ w, cookie w = Some session)
    (view ← createClientGameState session false false false;
     mret (with_message msg view))
    mirrors.
Proof.
  eapply hoare_bind; [apply hoare_createClientGameState; auto|].
  intros view. apply hoare_ret. intros w (Hcookie & Hseed & _).
  eapply seedGuarded_mirrors; eauto.
Qed.

Lemma store_show_mirrors (P : World → Prop) session m i h :
  hoare P (updateSession session;; createClientGameState session m i h) mirrors.
Proof.
  eapply hoare_bind; [apply hoare_updateSession|]. intros ?. apply show_mirrors.
Qed.

Lemma sessionExpired_mirrors (P : World → Prop) :
  (∀ w, P w → cookie w = None) → hoare P (mret sessionExpired) mirrors.
Proof.
  intros HP. apply hoare_ret. intros w Hw.
  unfold mirrors, storedRecord. rewrite (HP w Hw). exact I.
Qed.

Lemma initializeGame_mirrors (P : World → Prop) initialBalance :
  hoare P (initializeGame initialBalance) mirrors.
Proof.
  unfold initializeGame.
  eapply hoare_bind; [apply hoare_any|]. intros ?.
  eapply hoare_bind; [apply hoare_any|]. intros pf.
  eapply hoare_bind; [apply hoare_any|]. intros sid.
  eapply hoare_bind; [apply hoare_createSession|]. intros ?. apply show_mirrors.
Qed.

Lemma placeBet_mirrors b sessionId :
  hoare (λ _, True) (placeBet b sessionId) mirrors.
Proof.
  unfold placeBet.
  eapply hoare_bind; [apply hoare_getSession|]. intros found.
  eapply hoare_bind with
    (R := λ session w, match session with
                       | Some s => cookie w = Some s
                       | None => True
                       end).
  { destruct found as [s|].
    - apply hoare_ret. intros w [_ Hw]. exact Hw.
    - destruct (given sessionId).
      + eapply hoare_bind; [apply hoare_any|]. intros pf.
        eapply hoare_bind; [apply hoare_createSession|]. intros ?.
        apply hoare_ret. intros w Hw. exact Hw.
      + apply hoare_ret. auto. }
  intros [session|]; [|apply initializeGame_mirrors].
  destruct ((b <=? 0)%float || (balance session <? b)%float);
    [apply show_message_mirrors|].
  eapply hoare_bind; [apply hoare_any|]. intros newDeck.
  eapply hoare_bind; [apply hoare_any|]. intros [d1 s1].
  eapply hoare_bind; [apply hoare_any|]. intros [d2 s2].
  eapply hoare_bind; [apply hoare_any|]. intros [p1 s3].
  eapply hoare_bind; [apply hoare_any|]. intros [p2 s4].
  apply store_show_mirrors.
Qed.

Lemma playerHit_mirrors sessionId :
  hoare (λ _, True) (playerHit sessionId) mirrors.
Proof.
  unfold playerHit.
  eapply hoare_bind; [apply hoare_getSession|]. intros [session|].
  - destruct (negb (bool_decide (gameState session = playing))).
    + eapply hoare_weaken; [apply show_message_mirrors| |]; [|auto].
      intros w [_ Hw]. exact Hw.
    + eapply hoare_bind; [apply hoare_any|]. intros [newCard s1].
      apply store_show_mirrors.
  - apply sessionExpired_mirrors. intros w [_ Hw]. exact Hw.
Qed.

Lemma playerStand_mirrors sessionId :
  hoare (λ _, True) (playerStand sessionId) mirrors.
Proof.
  unfold playerStand.
  eapply hoare_bind; [apply hoare_getSession|]. intros [session|].
  - eapply hoare_bind with
      (R := λ forced w, match forced with
                        | Some _ => True
                        | None => cookie w = Some session
                        end).
    { destruct (negb (bool_decide (gameState session = playing))).
      - destruct (_ && _).
        + eapply hoare_bind; [apply hoare_any|]. intros ?. apply hoare_ret. auto.
        + apply hoare_ret. intros w [_ Hw]. exact Hw.
      - apply hoare_ret. auto. }
    intros [s1|]; [|apply show_message_mirrors].
    eapply hoare_bind; [apply hoare_any|]. intros ?.
    eapply hoare_bind; [apply hoare_any|]. intros lastGameState.
    eapply hoare_bind; [apply hoare_any|]. intros s2.
    apply store_show_mirrors.
  - apply sessionExpired_mirrors. intros w [_ Hw]. exact Hw.
Qed.

Lemma newRound_mirrors sessionId :
  hoare (λ _, True) (newRound sessionId) mirrors.
Proof.
  unfold newRound.
  eapply hoare_bind; [apply hoare_getSession|]. intros [session|].
  - eapply hoare_bind; [apply hoare_any|]. intros s1.
    eapply hoare_bind; [apply hoare_updateSession|]. intros ?.
    eapply hoare_bind; [apply hoare_createClientGameState; auto|].
    intros view. apply hoare_ret. intros w (Hcookie & Hseed & _).
    eapply seedGuarded_mirrors; eauto.
  - destruct (given sessionId).
    + apply sessionExpired_mirrors. intros w [_ Hw]. exact Hw.
    + apply initializeGame_mirrors.
Qed.

Lemma perform_mirrors a w v w' :
  perform a w = Some (v, w') → mirrors v w'.
Proof.
  intros Hrun.
  assert (hoare (λ _, True) (perform a) mirrors) as H.
  { destruct a; simpl.
    - apply initializeGame_mirrors.
    - apply placeBet_mirrors.
    - apply playerHit_mirrors.
    - apply playerStand_mirrors.
    - apply newRound_mirrors. }
  exact (H w v w' I Hrun).
Qed.

Lemma Transition_committed a found session' :
  (∀ s record, found = Some s → provablyFair s = Some record → committed record) →
  Transition a found session' →
  ∀ record, provablyFair session' = Some record → committed record.
Proof.
  intros Hfound Hstep.
  destruct Hstep as
    [ sid bal fresh _ Hcommitted _
    | b sessionId base newDeck rest p2 p1 d2 d1 _ Hbase _ _ _ _
    | sessionId s c rest _ Hs _ _ _
    | sessionId s c rest _ Hs _ _ _
    | sessionId s drawn rest _ Hs _ _ _
    | sessionId s fresh _ Hs Hfresh ]; intros record Hrecord.
  - cbn in Hrecord. injection Hrecord as <-. exact Hcommitted.
  - cbn in Hrecord. destruct Hbase as [Hb | (_ & _ & r & -> & Hr & _)].
    + exact (Hfound base record Hb Hrecord).
    + cbn in Hrecord. injection Hrecord as <-. exact Hr.
  - exact (Hfound s record Hs Hrecord).
  - exact (Hfound s record Hs Hrecord).
  - rewrite settle_record in Hrecord. cbn in Hrecord.
    destruct (provablyFair s) as [pf|] eqn:Hpf; [|discriminate Hrecord].
    cbn in Hrecord. injection Hrecord as <-.
    exact (Hfound s pf Hs Hpf).
  - cbn in Hrecord. subst fresh.
    destruct (provablyFair s); [exact (proj1 Hfresh) | contradiction].
Qed.

Lemma reachable_committed w : Reachable w → recordsCommitted w.
Proof.
  intros Hreach. induction Hreach as [t | w a v w' _ IH Hrun].
  - intros s record Hs. discriminate Hs.
  - intros s' record Hs' Hrecord.
    destruct (perform_step _ _ _ _ Hrun) as [Hsame|(s1 & Hstored & Hstep)].
    + apply (IH s' record); congruence.
    + rewrite Hstored in Hs'. injection Hs' as <-.
      exact (Transition_committed _ _ _ (λ s r Hs, IH s r Hs) Hstep record Hrecord).
Qed.

(** X21. Starting from an empty store, whatever the generators, every
    view that carries provably-fair data carries the hash of the server
    seed of the session now stored; so whenever a view reveals a server
    seed, hashing that seed gives the hash the same view shows. *)
Theorem revealed_seed_verifies :
  ∀ (w : World) (a : Action) (v : ClientGameState) (w' : World)
    (shown : ClientProvablyFair),
    Reachable w →
    perform a w = Some (v, w') →
    v_provablyFair v = Some shown →
    (∃ record, storedRecord w' = Some record
               ∧ v_hashedServerSeed shown = hashSeed (serverSeed record))
    ∧ ∀ seed, v_serverSeed shown = Some seed → hashSeed seed = v_hashedServerSeed shown.
Proof.
  intros w a v w' shown Hreach Hrun Hshown.
  pose proof (perform_mirrors a w v w' Hrun) as Hmirror.
  pose proof (reachable_committed w' (reach_step w a v w' Hreach Hrun)) as Hcommitted.
  unfold mirrors, storedRecord in *. rewrite Hshown in Hmirror.
  destruct (cookie w') as [s'|] eqn:Hcookie; [|contradiction].
  destruct (provablyFair s') as [record|] eqn:Hrecord; [|contradiction].
  destruct Hmirror as (_ & _ & Hhash & _ & _ & Hseed).
  pose proof (Hcommitted s' record Hcookie Hrecord) as Hc. unfold committed in Hc.
  split.
  - exists record. split; [reflexivity|]. congruence.
  - intros seed Hs. rewrite Hs in Hseed.
    destruct (completed record); [|discriminate Hseed].
    injection Hseed as ->. congruence.
Qed.

(** ** What the views report *)

Lemma show_reports (a : Action) session m i :
  hoare (λ w, cookie w = Some session) (createClientGameState session m i false)
    (λ v w, cookie w = Some session ∧ reports v session ∧ v_bet v = bet session).
Proof.
  intros w v w' Hcookie Hrun.
  destruct (createClientGameState_run session m i false w) as (dc & pc & pf & Hrun' & _).
  rewrite Hrun in Hrun'. injection Hrun' as -> ->. cbn.
  split; [exact Hcookie|]. unfold reports. cbn. auto 10.
Qed.

Lemma show_faithful (a : Action) session m i :
  hoare (λ w, cookie w = Some session) (createClientGameState session m i false)
    (faithful a).
Proof.
  eapply hoare_weaken; [apply (show_reports a) | auto |].
  intros v w (Hcookie & Hreports & Hbet). unfold faithful. rewrite Hcookie. auto.
Qed.

Lemma show_message_faithful (a : Action) session msg :
  hoare (λ w, cookie w = Some session)
    (view ← createClientGameState session false false false;
     mret (with_message msg view))
    (faithful a).
Proof.
  eapply hoare_bind; [apply (show_reports a)|].
  intros view. apply hoare_ret. intros w (Hcookie & Hreports & Hbet).
  unfold faithful. rewrite Hcookie. split; [exact Hreports | intros _; exact Hbet].
Qed.

Lemma store_show_faithful (a : Action) (P : World → Prop) session m i :
  hoare P (updateSession session;; createClientGameState session m i false) (faithful a).
Proof.
  eapply hoare_bind; [apply hoare_updateSession|]. intros ?. apply show_faithful.
Qed.

Lemma sessionExpired_faithful (a : Action) (P : World → Prop) :
  (∀ w, P w → cookie w = None) → hoare P (mret sessionExpired) (faithful a).
Proof.
  intros HP. apply hoare_ret. intros w Hw.
  unfold faithful. rewrite (HP w Hw). reflexivity.
Qed.

Lemma initializeGame_faithful (a : Action) (P : World → Prop) initialBalance :
  hoare P (initializeGame initialBalance) (faithful a).
Proof.
  unfold initializeGame.
  eapply hoare_bind; [apply hoare_any|]. intros ?.
  eapply hoare_bind; [apply hoare_any|]. intros pf.
  eapply hoare_bind; [apply hoare_any|]. intros sid.
  eapply hoare_bind; [apply hoare_createSession|]. intros ?. apply show_faithful.
Qed.

Lemma placeBet_faithful (a : Action) b sessionId :
  hoare (λ _, True) (placeBet b sessionId) (faithful a).
Proof.
  unfold placeBet.
  eapply hoare_bind; [apply hoare_getSession|]. intros found.
  eapply hoare_bind with
    (R := λ session w, match session with
                       | Some s => cookie w = Some s
                       | None => True
                       end).
  { destruct found as [s|].
    - apply hoare_ret. intros w [_ Hw]. exact Hw.
    - destruct (given sessionId).
      + eapply hoare_bind; [apply hoare_any|]. intros pf.
        eapply hoare_bind; [apply hoare_createSession|]. intros ?.
        apply hoare_ret. intros w Hw. exact Hw.
      + apply hoare_ret. auto. }
  intros [session|]; [|apply initializeGame_faithful].
  destruct ((b <=? 0)%float || (balance session <? b)%float);
    [apply show_message_faithful|].
  eapply hoare_bind; [apply hoare_any|]. intros newDeck.
  eapply hoare_bind; [apply hoare_any|]. intros [d1 s1].
  eapply hoare_bind; [apply hoare_any|]. intros [d2 s2].
  eapply hoare_bind; [apply hoare_any|]. intros [p1 s3].
  eapply hoare_bind; [apply hoare_any|]. intros [p2 s4].
  apply store_show_faithful.
Qed.

Lemma playerHit_faithful (a : Action) sessionId :
  hoare (λ _, True) (playerHit sessionId) (faithful a).
Proof.
  unfold playerHit.
  eapply hoare_bind; [apply hoare_getSession|]. intros [session|].
  - destruct (negb (bool_decide (gameState session = playing))).
    + eapply hoare_weaken; [apply (show_message_faithful a)| |]; [|auto].
      intros w [_ Hw]. exact Hw.
    + eapply hoare_bind; [apply hoare_any|]. intros [newCard s1].
      apply store_show_faithful.
  - apply sessionExpired_faithful. intros w [_ Hw]. exact Hw.
Qed.

Lemma playerStand_faithful (a : Action) sessionId :
  hoare (λ _, True) (playerStand sessionId) (faithful a).
Proof.
  unfold playerStand.
  eapply hoare_bind; [apply hoare_getSession|]. intros [session|].
  - eapply hoare_bind with
      (R := λ forced w, match forced with
                        | Some _ => True
                        | None => cookie w = Some session
                        end).
    { destruct (negb (bool_decide (gameState session = playing))).
      - destruct (_ && _).
        + eapply hoare_bind; [apply hoare_any|]. intros ?. apply hoare_ret. auto.
        + apply hoare_ret. intros w [_ Hw]. exact Hw.
      - apply hoare_ret. auto. }
    intros [s1|]; [|apply show_message_faithful].
    eapply hoare_bind; [apply hoare_any|]. intros ?.
    eapply hoare_bind; [apply hoare_any|]. intros lastGameState.
    eapply hoare_bind; [apply hoare_any|]. intros s2.
    apply store_show_faithful.
  - apply sessionExpired_faithful. intros w [_ Hw]. exact Hw.
Qed.

Lemma newRound_faithful sessionId :
  hoare (λ _, True) (newRound sessionId) (faithful (NewRound sessionId)).
Proof.
  unfold newRound.
  eapply hoare_bind; [apply hoare_getSession|]. intros [session|].
  - eapply hoare_bind; [apply hoare_any|]. intros s1.
    eapply hoare_bind; [apply hoare_updateSession|]. intros ?.
    eapply hoare_bind; [apply (show_reports (NewRound sessionId))|].
    intros view. apply hoare_ret. intros w (Hcookie & Hreports & _).
    unfold faithful. rewrite Hcookie. split; [exact Hreports|].
    intros Hnot. destruct (Hnot sessionId eq_refl).
  - destruct (given sessionId).
    + apply sessionExpired_faithful. intros w [_ Hw]. exact Hw.
    + apply initializeGame_faithful.
Qed.

Lemma perform_faithful a w v w' :
  perform a w = Some (v, w') → faithful a v w'.
Proof.
  intros Hrun.
  assert (hoare (λ _, True) (perform a) (faithful a)) as H.
  { destruct a; simpl.
    - apply initializeGame_faithful.
    - apply placeBet_faithful.
    - apply playerHit_faithful.
    - apply playerStand_faithful.
    - apply newRound_faithful. }
  exact (H w v w' I Hrun).
Qed.

(** X23. The view an action returns reports the session the action
    leaves stored: its identifier, state, balance and result, the score
    of the player's hand and the score of the dealer's whole hand, hole
    card included; and its bet, unless the action is [newRound]. With
    nothing left stored the view is the "session expired" one. *)
Theorem views_report_stored_session :
  ∀ (a : Action) (w : World) (v : ClientGameState) (w' : World),
    perform a w = Some (v, w') →
    match cookie w' with
    | Some session =>
        sessionId v = id session
        ∧ v_gameState v = gameState session
        ∧ v_balance v = balance session
        ∧ v_gameResult v = gameResult session
        ∧ playerScore v = calculateScore (playerCards session)
        ∧ dealerScore v = calculateScore (dealerCards session)
        ∧ ((∀ sessionId, a ≠ NewRound sessionId) → v_bet v = bet session)
    | None => v = sessionExpired
    end.
Proof.
  intros a w v w' Hrun. pose proof (perform_faithful a w v w' Hrun) as Hfaithful.
  unfold faithful, reports in Hfaithful.
  destruct (cookie w'); [|exact Hfaithful]. tauto.
Qed.

(** ** A round from the bet to its settlement *)

Lemma placeBet_opens_round b sessionId w base v w' :
  cookie w = Some base → (b <=? 0)%float = false → (balance base <? b)%float = false →
  placeBet b sessionId w = Some (v, w') →
  ∃ session, cookie w' = Some session ∧ inRound base b session.
Proof.
  intros Hcookie Hpos Hle Hrun.
  destruct (placeBet_found _ _ _ _ _ _ Hcookie Hrun)
    as [[Htest _] | (newDeck & rest & p2 & p1 & d2 & d1 & _ & _ & _ & _ & Hstored)].
  - rewrite (valid_bet_test b (balance base) Hpos Hle) in Htest. discriminate Htest.
  - eexists. split; [exact Hstored|]. unfold inRound. cbn. auto.
Qed.

Lemma playerHit_keeps_round base b sessionId w v w' :
  (∃ session, cookie w = Some session ∧ inRound base b session) →
  playerHit sessionId w = Some (v, w') →
  ∃ session, cookie w' = Some session ∧ inRound base b session.
Proof.
  intros (s & Hcookie & Hbet & Hbal & Hrecord & Hstate) Hrun.
  destruct (perform_step (PlayerHit sessionId) _ _ _ Hrun)
    as [Hsame|(s1 & Hstored & Hstep)].
  { exists s. split; [congruence|]. unfold inRound. auto. }
  exists s1. split; [exact Hstored|]. rewrite Hcookie in Hstep.
  destruct Hstep as
    [ sid bal fresh Hstart _ _
    | b0 sid base0 newDeck rest p2 p1 d2 d1 Ha _ _ _ _ _
    | sid s0 c rest _ Hs Hplaying _ _
    | sid s0 c rest _ Hs Hplaying _ _
    | sid s0 drawn rest Ha _ _ _ _
    | sid s0 fresh Ha _ _ ]; try discriminate Ha.
  - destruct Hstart.
  - injection Hs as <-. unfold inRound. cbn. auto.
  - injection Hs as <-. unfold inRound. cbn. auto 6.
Qed.

Lemma hits_keep_round base b hits : ∀ w w',
  (∃ session, cookie w = Some session ∧ inRound base b session) →
  performAll (PlayerHit <$> hits) w = Some w' →
  ∃ session, cookie w' = Some session ∧ inRound base b session.
Proof.
  induction hits as [|sessionId hits IH]; intros w w' Hround Hrun.
  - cbn in Hrun. injection Hrun as <-. exact Hround.
  - rewrite fmap_cons in Hrun. cbn [performAll perform] in Hrun.
    destruct (playerHit sessionId w) as [[v1 w1]|] eqn:Hhit; [|discriminate Hrun].
    apply (IH w1 w'); [|exact Hrun].
    exact (playerHit_keeps_round base b sessionId w v1 w1 Hround Hhit).
Qed.

Lemma playerStand_closes_round base b sessionId w v w' :
  (∃ session, cookie w = Some session ∧ inRound base b session) →
  playerStand sessionId w = Some (v, w') →
  ∃ session result,
    cookie w' = Some session
    ∧ gameState session = gameOver
    ∧ gameResult session = Some result
    ∧ bet session = b
    ∧ balance session
      = match result with
        | dealerWin | bust => (balance base - b)%float
        | _ => (balance base - b + calculatePayout b result)%float
        end
    ∧ ∀ record,
        provablyFair base = Some record →
        ∃ record',
          provablyFair session = Some record'
          ∧ serverSeed record' = serverSeed record
          ∧ clientSeed record' = clientSeed record
          ∧ hashedServerSeed record' = hashedServerSeed record.
Proof.
  intros (s & Hcookie & Hbet & Hbal & Hrecord & [Hplaying|[Hover Hbust]]) Hrun.
  - destruct (playerStand_playing_transition _ _ _ _ _ Hcookie Hplaying Hrun)
      as (drawn & rest & _ & _ & Hstored).
    match type of Hstored with
    | _ = Some (settle ?s0) =>
        pose proof (settle_record s0) as Hrec;
        destruct (settle_fields s0) as (_ & _ & _ & Hstate & Hresult & Hb & Hsettled & _)
    end.
    cbn [balance bet playerCards dealerCards provablyFair] in Hsettled, Hb, Hrec.
    eexists. eexists. split; [exact Hstored|].
    split; [exact Hstate|]. split; [exact Hresult|].
    split; [congruence|]. split.
    + rewrite Hsettled, Hbal, Hbet.
      cbn [playerCards dealerCards]. destruct (determineGameResult _ _); reflexivity.
    + intros record Hbase. rewrite Hrec, Hrecord, Hbase. cbn. eexists. split; [reflexivity|].
      cbn. auto.
  - assert (cookie w' = Some s) as Hstored.
    { destruct (perform_step (PlayerStand sessionId) _ _ _ Hrun)
        as [Hsame|(s1 & _ & Hstep)]; [congruence|].
      exfalso. rewrite Hcookie in Hstep.
      destruct Hstep as
        [ sid bal fresh Hstart _ _
        | b0 sid base0 newDeck rest p2 p1 d2 d1 Ha _ _ _ _ _
        | sid s0 c rest Ha _ _ _ _
        | sid s0 c rest Ha _ _ _ _
        | sid s0 drawn rest _ Hs Hforced _ _
        | sid s0 fresh Ha _ _ ]; try discriminate Ha.
      - destruct Hstart.
      - injection Hs as <-. destruct Hforced as [Hp|(_ & _ & Hnone)]; congruence. }
    exists s, bust. split; [exact Hstored|].
    split; [exact Hover|]. split; [exact Hbust|]. split; [exact Hbet|]. split.
    + exact Hbal.
    + intros record Hbase. exists record. rewrite Hrecord. auto.
Qed.

(** X24. A round from the bet to its settlement: after a bet [b] that
    passes the test of [placeBet] (neither [b <= 0] nor [b > balance],
    as doubles compare) on a stored session, any number of hits and then
    a stand, the session is in the [gameOver] state with a result, and
    its balance is the balance before the bet, less the bet, plus the
    payout of that result on [b] (nothing is added for a bust or a
    dealer win), the differences and sums being those of doubles.
    The view at the stand shows that result and balance, and the record
    still has the seeds and the hash it had when the bet was placed. *)
Theorem round_accounting :
  ∀ (b : float) (sessionId sessionId' : option string) (hits : list (option string))
    (w w1 w2 : World) (base : GameSession) (v : ClientGameState),
    cookie w = Some base →
    (b <=? 0)%float = false → (balance base <? b)%float = false →
    performAll (PlaceBet b sessionId :: (PlayerHit <$> hits)) w = Some w1 →
    playerStand sessionId' w1 = Some (v, w2) →
    ∃ session result,
      cookie w2 = Some session
      ∧ gameState session = gameOver
      ∧ gameResult session = Some result
      ∧ bet session = b
      ∧ balance session
        = match result with
          | dealerWin | bust => (balance base - b)%float
          | _ => (balance base - b + calculatePayout b result)%float
          end
      ∧ v_gameResult v = Some result
      ∧ v_balance v = balance session
      ∧ ∀ record,
          provablyFair base = Some record →
          ∃ record',
            provablyFair session = Some record'
            ∧ serverSeed record' = serverSeed record
            ∧ clientSeed record' = clientSeed record
            ∧ hashedServerSeed record' = hashedServerSeed record.
Proof.
  intros b sessionId sessionId' hits w w1 w2 base v Hcookie Hpos Hle Hrun Hstand.
  cbn [performAll perform] in Hrun.
  destruct (placeBet b sessionId w) as [[v0 w0]|] eqn:Hbet; [|discriminate Hrun].
  pose proof (placeBet_opens_round _ _ _ _ _ _ Hcookie Hpos Hle Hbet) as Hround.
  pose proof (hits_keep_round base b hits w0 w1 Hround Hrun) as Hround1.
  destruct (playerStand_closes_round base b sessionId' w1 v w2 Hround1 Hstand)
    as (s2 & r & Hstored & Hstate & Hresult & Hb & Hbal & Hrecord).
  pose proof (perform_faithful (PlayerStand sessionId') w1 v w2 Hstand) as Hfaithful.
  unfold faithful in Hfaithful. rewrite Hstored in Hfaithful.
  destruct Hfaithful as [(_ & _ & Hvbal & Hvres & _) _].
  exists s2, r. repeat (split; [first [assumption | congruence]|]). exact Hrecord.
Qed.

(** ** A bet that is not a number *)

Lemma ltb_nan (x : float) : (x <? nan)%float = false.
Proof.
  rewrite FloatAxioms.ltb_spec. unfold SFltb.
  change (Prim2SF nan) with S754_nan.
  destruct (Prim2SF x) as [s|s| |s m e]; try destruct s; reflexivity.
Qed.

Lemma sub_nan (x : float) : (x - nan)%float = nan.
Proof.
  apply FloatAxioms.Prim2SF_inj. rewrite FloatAxioms.sub_spec.
  change (Prim2SF nan) with S754_nan. unfold FloatAxioms.SF64sub, SFsub.
  destruct (Prim2SF x) as [s|s| |s m e]; reflexivity.
Qed.

(** X25. [NaN] passes the test of [placeBet], whatever the balance:
    neither [NaN <= 0] nor [NaN > balance] holds. On a stored session
    with a provably-fair record the bet is taken like any other: the
    cards are dealt, the state is [playing], and the bet and the balance
    of the session, and of the view returned, are [NaN]. *)
Theorem placeBet_takes_NaN :
  shuffleContract generateShuffledDeck →
  ∀ (sessionId : option string) (w : World) (session : GameSession)
    (record : ProvablyFairData),
    cookie w = Some session →
    provablyFair session = Some record →
    ∃ v w' session',
      placeBet nan sessionId w = Some (v, w')
      ∧ cookie w' = Some session'
      ∧ gameState session' = playing
      ∧ length (dealerCards session') = 2%nat
      ∧ length (playerCards session') = 2%nat
      ∧ bet session' = nan
      ∧ balance session' = nan
      ∧ v_gameState v = playing
      ∧ v_bet v = nan
      ∧ v_balance v = nan
      ∧ message v = "".
Proof.
  intros Hgen sessionId w session record Hcookie Hrecord.
  destruct (createProvablyFairDeck_run (serverSeed record) (clientSeed record) w Hgen)
    as (newDeck & Hdeck & Hlen & _).
  destruct (four_from_end newDeck) as (rest & p2 & p1 & d2 & d1 & Hsplit); [lia|].
  pose proof (placeBet_deal_run nan sessionId w session newDeck rest p2 p1 d2 d1 w
                Hcookie eq_refl (ltb_nan (balance session))) as Hrun.
  rewrite Hrecord in Hrun. specialize (Hrun Hdeck Hsplit). cbv zeta in Hrun.
  rewrite Hrun.
  match goal with
  | |- context [createClientGameState ?sF _ _ _ ?wF] =>
      destruct (createClientGameState_run sF false true false wF)
        as (dc & pc & pf & Hview & _)
  end.
  rewrite Hview. cbn [gameState balance bet] in *.
  do 2 eexists. eexists. split; [reflexivity|]. cbn. rewrite sub_nan.
  repeat split; reflexivity.
Qed.

End Engine.

(** ** The theorems at the sample table

    Each theorem that carries hypotheses is applied once to concrete
    data, with the hypotheses discharged by evaluation. *)

Lemma identityShuffle_contract : shuffleContract identityShuffle.
Proof.
  intros serverSeed clientSeed. split; [reflexivity|].
  apply Forall_forall. intros index Hin.
  apply elem_of_seq in Hin. lia.
Qed.

Lemma createProvablyFairDeck_deterministic_witness :
  ∃ shuffled,
    createProvablyFairDeck identityShuffle "server-seed" "client-seed" sampleWorld
    = Some (shuffled, sampleWorld)
    ∧ createProvablyFairDeck identityShuffle "server-seed" "client-seed" (mkWorld None 7)
      = Some (shuffled, mkWorld None 7)
    ∧ length shuffled = 52%nat.
Proof.
  destruct (createProvablyFairDeck_deterministic identityShuffle identityShuffle_contract
              "server-seed" "client-seed" sampleWorld (mkWorld None 7))
    as (shuffled & H1 & H2 & Hlen & _).
  exists shuffled. split; [exact H1|]. split; [exact H2 | exact Hlen].
Defined.

Lemma serverSeed_withheld_until_completed_witness :
  ∃ v w',
    perform sampleIds sampleSeeds sampleRandom sampleHash identityShuffle
      (PlayerStand None) sampleWorld = Some (v, w')
    ∧ shownSeed v = Some "server-seed".
Proof.
  eexists _, _. split; [vm_compute; reflexivity|].
  etransitivity.
  - apply (serverSeed_withheld_until_completed sampleIds sampleSeeds sampleRandom sampleHash
             identityShuffle (PlayerStand None) sampleWorld).
    vm_compute. reflexivity.
  - reflexivity.
Defined.

Lemma playerStand_dealer_draws_to_17_witness :
  ∃ v w' session' hole,
    playerStand sampleIds None sampleWorld = Some (v, w')
    ∧ cookie w' = Some session'
    ∧ 17 ≤ calculateScore (dealerCards session')
    ∧ gameState session' = gameOver
    ∧ dealerCards session' !! 1%nat = Some (mkCard hearts R6 (Some false))
    ∧ v_dealerCards v !! 1%nat = Some hole
    ∧ c_suit hole = Some hearts ∧ c_rank hole = Some R6 ∧ c_hidden hole = false.
Proof.
  destruct (playerStand_dealer_draws_to_17 sampleIds None sampleWorld sampleSession)
    as (drawn & v & w' & session' & Hrun & Hstored & _ & _ & _ & Hfinal & _ & _ & Hover & _
        & _ & _ & _ & _ & Hshown & Hseen).
  - reflexivity.
  - reflexivity.
  - simpl. lia.
  - destruct (Hseen 1%nat (with_hidden true (card R6 hearts)) eq_refl)
      as (hole & Hhole & Hsuit & Hrank & Hhidden).
    exists v, w', session', hole.
    split; [exact Hrun|]. split; [exact Hstored|]. split; [exact Hfinal|].
    split; [exact Hover|].
    split; [exact (Hshown 1%nat (with_hidden true (card R6 hearts)) eq_refl)|].
    auto.
Defined.

Lemma playerHit_draws_and_busts_witness :
  ∃ v w' session',
    playerHit sampleIds None sampleWorld = Some (v, w')
    ∧ cookie w' = Some session'
    ∧ playerCards session'
      = playerCards sampleSession ++ [with_hidden false (card RK spades)]
    ∧ balance session' = 950%float.
Proof.
  destruct (playerHit_draws_and_busts sampleIds None sampleWorld sampleSession
              (card RK spades) (take 51 orderedDeck))
    as (v & w' & session' & Hrun & Hstored & Hhand & _ & Hbalance & _).
  - reflexivity.
  - reflexivity.
  - reflexivity.
  - exists v, w', session'. auto.
Defined.

Lemma placeBet_invalid_no_mutation_witness :
  ∃ v w',
    placeBet sampleIds sampleSeeds sampleRandom sampleHash identityShuffle
      2000%float None sampleWorld = Some (v, w')
    ∧ cookie w' = Some sampleSession
    ∧ message v = "Invalid bet amount".
Proof.
  destruct (placeBet_invalid_no_mutation sampleIds sampleSeeds sampleRandom sampleHash
              identityShuffle 2000%float None sampleWorld sampleSession)
    as (v & w' & Hrun & Hstored & Hmessage & _).
  - reflexivity.
  - right. reflexivity.
  - exists v, w'. auto.
Defined.

Lemma playerHit_bust_frame_witness :
  ∃ v w' session',
    playerHit sampleIds None sampleWorld = Some (v, w')
    ∧ cookie w' = Some session'
    ∧ gameResult session' = Some bust
    ∧ provablyFair session' = Some sampleRecord
    ∧ shownSeed v = None.
Proof.
  destruct (playerHit_bust_frame sampleIds None sampleWorld sampleSession
              (card RK spades) (take 51 orderedDeck))
    as (v & w' & session' & Hrun & Hstored & _ & Hresult & Hrecord & _ & _ & Hopen).
  - reflexivity.
  - reflexivity.
  - reflexivity.
  - reflexivity.
  - destruct Hopen as (_ & Hseed & _); [reflexivity|].
    exists v, w', session'. auto.
Defined.

(** C6. [placeBet] takes a bet on a settled session under the record of
    the round before, where [newRound] would have made a fresh one. From
    an empty store: initialize, bet 50, stand (the round is settled as a
    push and its record completed), bet 50 again. The session is in the
    [playing] state with no result and with that same completed record;
    the dealer's hole card is sent as a placeholder, and the view of
    this round in play carries the server seed of the record. *)
Theorem placeBet_on_settled_session_shows_seed :
  ∃ w settled record v w' session' hole,
    performAll sampleIds sampleSeeds sampleRandom sampleHash identityShuffle
      [InitializeGame 1000; PlaceBet 50 None; PlayerStand None] (mkWorld None 0) = Some w
    ∧ cookie w = Some settled
    ∧ gameState settled = gameOver
    ∧ gameResult settled = Some push
    ∧ provablyFair settled = Some record
    ∧ completed record = true
    ∧ placeBet sampleIds sampleSeeds sampleRandom sampleHash identityShuffle
        50 None w = Some (v, w')
    ∧ cookie w' = Some session'
    ∧ gameState session' = playing
    ∧ gameResult session' = None
    ∧ provablyFair session' = Some record
    ∧ v_gameState v = playing
    ∧ v_dealerCards v !! 1%nat = Some hole
    ∧ opaque hole ∧ c_hidden hole = true
    ∧ shownSeed v = Some (serverSeed record).
Proof.
  do 7 eexists. split; [vm_compute; reflexivity|].
  split; [reflexivity|]. split; [reflexivity|]. split; [reflexivity|].
  split; [reflexivity|]. split; [reflexivity|].
  split; [vm_compute; reflexivity|].
  split; [reflexivity|]. split; [reflexivity|]. split; [reflexivity|].
  split; [reflexivity|]. split; [reflexivity|]. split; [reflexivity|].
  split; [split; reflexivity|]. split; reflexivity.
Qed.

(** C10. A round that ends by a bust with the server seed disclosed. A
    bet placed on a settled session without a new round in between
    keeps the completed record. From an empty store: initialize, bet 50,
    stand (a push, 20 against 20), bet 50 again. The session is in play
    with [completed = true]; the hit that follows draws the nine of
    spades onto the player's 20, and the view of the bust carries the
    server seed. *)
Lemma playerHit_bust_in_completed_round :
  ∃ w session v w' session',
    performAll sampleIds sampleSeeds sampleRandom sampleHash identityShuffle
      [InitializeGame 1000; PlaceBet 50 None; PlayerStand None; PlaceBet 50 None]
      (mkWorld None 0) = Some w
    ∧ cookie w = Some session
    ∧ gameState session = playing
    ∧ 21 < calculateScore (playerCards session ++ [with_hidden false (card R9 spades)])
    ∧ playerHit sampleIds None w = Some (v, w')
    ∧ cookie w' = Some session'
    ∧ gameResult session' = Some bust
    ∧ (completed <$> provablyFair session') = Some true
    ∧ shownSeed v = Some "5eed".
Proof.
  do 5 eexists. split; [vm_compute; reflexivity|].
  split; [reflexivity|]. split; [reflexivity|]. split; [reflexivity|].
  split; [vm_compute; reflexivity|].
  split; [reflexivity|]. split; [reflexivity|]. split; reflexivity.
Qed.

(** The view returned by the opening bet: the dealer's second entry is a
    placeholder, and the score next to it is that of both cards (king
    and queen of spades). *)
Lemma placeBet_view_scores_hole_card :
  ∃ w v w' hole,
    performAll sampleIds sampleSeeds sampleRandom sampleHash identityShuffle
      [InitializeGame 1000] (mkWorld None 0) = Some w
    ∧ placeBet sampleIds sampleSeeds sampleRandom sampleHash identityShuffle
        50 None w = Some (v, w')
    ∧ v_dealerCards v !! 1%nat = Some hole
    ∧ opaque hole ∧ c_hidden hole = true
    ∧ dealerScore v = 20.
Proof.
  do 4 eexists. split; [vm_compute; reflexivity|].
  split; [vm_compute; reflexivity|].
  split; [reflexivity|]. split; [split; reflexivity|]. split; reflexivity.
Qed.


(** ** The further properties at the sample table *)

Lemma tally_inj a : ∀ b, tally a = tally b → a = b.
Proof.
  induction a as [|a IH]; intros [|b] Heq; cbn in Heq;
    try reflexivity; try discriminate Heq.
  injection Heq as Heq. f_equal. exact (IH b Heq).
Qed.

Lemma identityShuffle_permutes : shufflePermutes identityShuffle.
Proof. intros serverSeed clientSeed. reflexivity. Qed.

Lemma calculateScore_Permutation_witness :
  calculateScore [card RA spades; card RK hearts; card R5 clubs]
  = calculateScore [card R5 clubs; card RA spades; card RK hearts].
Proof.
  apply (calculateScore_Permutation
           [card RA spades; card RK hearts; card R5 clubs]
           [card R5 clubs; card RA spades; card RK hearts]).
  apply (bool_decide_unpack _). vm_compute. exact I.
Defined.

Lemma calculateScore_bust_stays_witness :
  3 ≤ calculateScore [card RK spades; card RQ hearts; card R5 clubs]
  ∧ 21 < calculateScore ([card RK spades; card RQ hearts; card R5 clubs] ++ [card RA clubs]).
Proof.
  destruct (calculateScore_bust_stays [card RK spades; card RQ hearts; card R5 clubs]
              [card RA clubs]) as [Hlength Hbust].
  split; [exact Hlength|]. apply Hbust. vm_compute. reflexivity.
Defined.

Lemma determineGameResult_late_21_pushes_witness :
  determineGameResult [card R7 spades; card R7 hearts; card R7 clubs]
    [card RA spades; card RK spades] = push.
Proof.
  apply (determineGameResult_late_21_pushes
           [card R7 spades; card R7 hearts; card R7 clubs]
           [card RA spades; card RK spades]).
  - reflexivity.
  - simpl. lia.
  - reflexivity.
Defined.

Lemma createProvablyFairDeck_permutes_witness :
  ∃ shuffled,
    createProvablyFairDeck identityShuffle "server-seed" "client-seed" sampleWorld
    = Some (shuffled, sampleWorld)
    ∧ shuffled ≡ₚ orderedDeck ∧ NoDup shuffled.
Proof.
  destruct (createProvablyFairDeck_permutes identityShuffle "server-seed" "client-seed"
              sampleWorld)
    as (shuffled & Hrun & Hperm & Hnodup & _).
  - reflexivity.
  - exists shuffled. auto.
Defined.

Lemma createClientGameState_ids_distinct_witness :
  ∃ v w',
    createClientGameState tally sampleSession false true false sampleWorld = Some (v, w')
    ∧ NoDup (c_id <$> (v_dealerCards v ++ v_playerCards v)).
Proof.
  eexists _, _. split; [vm_compute; reflexivity|].
  eapply (createClientGameState_ids_distinct tally tally_inj sampleSession false true false
            sampleWorld).
  vm_compute. reflexivity.
Defined.

Lemma no_session_expired_witness :
  playerHit sampleIds (Some "session") (mkWorld None 0)
  = Some (sessionExpired, mkWorld None 0)
  ∧ newRound sampleIds sampleSeeds sampleHash (Some "session") (mkWorld None 0)
    = Some (sessionExpired, mkWorld None 0).
Proof.
  destruct (no_session_expired sampleIds sampleSeeds sampleHash (Some "session")
              (mkWorld None 0)) as (Hhit & _ & Hnew).
  - reflexivity.
  - split; [exact Hhit|]. apply Hnew. reflexivity.
Defined.

Lemma playerHit_wrong_state_witness :
  ∃ v w',
    playerHit sampleIds None (mkWorld (Some idleSession) 0) = Some (v, w')
    ∧ cookie w' = Some idleSession
    ∧ message v = "Invalid game state for hit action".
Proof.
  destruct (playerHit_wrong_state sampleIds None (mkWorld (Some idleSession) 0) idleSession)
    as (v & w' & Hrun & Hstored & Hmessage & _).
  - reflexivity.
  - simpl. discriminate.
  - exists v, w'. auto.
Defined.

Lemma playerStand_wrong_state_witness :
  ∃ v w',
    playerStand sampleIds None (mkWorld (Some idleSession) 0) = Some (v, w')
    ∧ cookie w' = Some idleSession
    ∧ message v = "Invalid game state for stand action. Please start a new game.".
Proof.
  destruct (playerStand_wrong_state sampleIds None (mkWorld (Some idleSession) 0)
              idleSession)
    as (v & w' & Hrun & Hstored & Hmessage & _).
  - reflexivity.
  - simpl. discriminate.
  - left. reflexivity.
  - exists v, w'. auto.
Defined.

Lemma playerStand_forces_playing_witness :
  playerStand sampleIds None (mkWorld (Some pausedSession) 0)
  = playerStand sampleIds None (mkWorld (Some (with_gameState playing pausedSession)) 0).
Proof.
  apply (playerStand_forces_playing sampleIds None 0%nat pausedSession).
  - simpl. discriminate.
  - simpl. discriminate.
  - simpl. discriminate.
  - reflexivity.
Defined.

Lemma playerStand_dealer_stands_pat_witness :
  ∃ v w' session',
    playerStand sampleIds None (mkWorld (Some patSession) 0) = Some (v, w')
    ∧ cookie w' = Some session'
    ∧ deck session' = deck patSession
    ∧ gameState session' = gameOver.
Proof.
  destruct (playerStand_dealer_stands_pat sampleIds None (mkWorld (Some patSession) 0)
              patSession)
    as (v & w' & session' & Hrun & Hstored & Hdeck & _ & _ & Hover & _).
  - reflexivity.
  - reflexivity.
  - vm_compute. discriminate.
  - exists v, w', session'. auto.
Defined.

Lemma playerStand_deck_runs_out_witness :
  playerStand sampleIds None (mkWorld (Some drySession) 0) = None.
Proof.
  apply (playerStand_deck_runs_out sampleIds None (mkWorld (Some drySession) 0) drySession).
  - reflexivity.
  - reflexivity.
  - intros [|n] _; vm_compute; reflexivity.
Defined.

Lemma newRound_resets_witness :
  ∃ v w' session',
    newRound sampleIds sampleSeeds sampleHash None sampleWorld = Some (v, w')
    ∧ cookie w' = Some session'
    ∧ gameState session' = betting
    ∧ balance session' = 950%float
    ∧ v_bet v = 50%float.
Proof.
  destruct (newRound_resets sampleIds sampleSeeds sampleHash None sampleWorld sampleSession)
    as (v & w' & session' & Hrun & Hstored & Hstate & _ & _ & _ & _ & Hbalance & _ & _ & _
        & Hbet & _).
  - reflexivity.
  - exists v, w', session'. auto.
Defined.

Lemma placeBet_deals_witness :
  ∃ v w' session',
    placeBet sampleIds sampleSeeds sampleRandom sampleHash identityShuffle
      50%float None sampleWorld = Some (v, w')
    ∧ cookie w' = Some session'
    ∧ length (deck session') = 48%nat
    ∧ gameState session' = playing
    ∧ bet session' = 50%float.
Proof.
  destruct (placeBet_deals sampleIds sampleSeeds sampleRandom sampleHash identityShuffle
              identityShuffle_contract 50%float None sampleWorld sampleSession sampleRecord)
    as (v & w' & session' & newDeck & d1 & d2 & p1 & p2 & e1 & e2 & Hrun & Hstored & _ & _
        & Hlen & _ & _ & Hstate & _ & Hbet & _).
  - reflexivity.
  - reflexivity.
  - reflexivity.
  - reflexivity.
  - exists v, w', session'. auto.
Defined.

Lemma perform_transition_witness :
  ∃ w v w',
    performAll sampleIds sampleSeeds sampleRandom sampleHash identityShuffle
      [InitializeGame 1000; PlaceBet 50 None] (mkWorld None 0) = Some w
    ∧ perform sampleIds sampleSeeds sampleRandom sampleHash identityShuffle
        (PlayerStand None) w = Some (v, w')
    ∧ (cookie w' = cookie w
       ∨ ∃ session',
           cookie w' = Some session'
           ∧ Transition sampleHash identityShuffle (PlayerStand None) (cookie w) session').
Proof.
  eexists.
  match goal with
  | |- ∃ v w', ?run = Some ?w ∧ _ =>
      assert (run = Some w) as Hrun by (vm_compute; reflexivity)
  end.
  destruct (perform_transition sampleIds sampleSeeds sampleRandom sampleHash
              identityShuffle identityShuffle_permutes (PlayerStand None) _
              (performAll_reachable sampleIds sampleSeeds sampleRandom sampleHash
                 identityShuffle _ _ _ (reach_empty _ _ _ _ _ 0%nat) Hrun))
    as (v & w' & Hstep & Hkind).
  exists v, w'. split; [exact Hrun|]. split; [exact Hstep | exact Hkind].
Defined.

Lemma reachable_sound_witness :
  ∃ w session,
    performAll sampleIds sampleSeeds sampleRandom sampleHash identityShuffle
      [InitializeGame 1000; PlaceBet 50 None; PlayerHit None] (mkWorld None 0) = Some w
    ∧ cookie w = Some session
    ∧ sound sampleHash session.
Proof.
  eexists _, _. split; [vm_compute; reflexivity|]. split; [reflexivity|].
  eapply (reachable_sound sampleIds sampleSeeds sampleRandom sampleHash identityShuffle
            identityShuffle_permutes).
  - eapply (performAll_reachable sampleIds sampleSeeds sampleRandom sampleHash
              identityShuffle
              [InitializeGame 1000; PlaceBet 50 None; PlayerHit None] (mkWorld None 0)).
    + apply reach_empty.
    + vm_compute. reflexivity.
  - reflexivity.
Defined.

Lemma reachable_never_faults_witness :
  ∃ w v w',
    performAll sampleIds sampleSeeds sampleRandom sampleHash identityShuffle
      [InitializeGame 1000; PlaceBet 50 None] (mkWorld None 0) = Some w
    ∧ perform sampleIds sampleSeeds sampleRandom sampleHash identityShuffle
        (PlayerStand None) w = Some (v, w').
Proof.
  eexists. 
  match goal with
  | |- ∃ v w', ?run = Some ?w ∧ _ =>
      assert (run = Some w) as Hrun by (vm_compute; reflexivity)
  end.
  destruct (reachable_never_faults sampleIds sampleSeeds sampleRandom sampleHash
              identityShuffle identityShuffle_permutes _ (PlayerStand None)
              (performAll_reachable sampleIds sampleSeeds sampleRandom sampleHash
                 identityShuffle _ _ _ (reach_empty _ _ _ _ _ 0%nat) Hrun))
    as (v & w' & Hstep & _).
  exists v, w'. split; [exact Hrun | exact Hstep].
Defined.

Lemma revealed_seed_verifies_witness :
  ∃ w v w' shown,
    performAll sampleIds sampleSeeds sampleRandom sampleHash identityShuffle
      [InitializeGame 1000; PlaceBet 50 None] (mkWorld None 0) = Some w
    ∧ perform sampleIds sampleSeeds sampleRandom sampleHash identityShuffle
        (PlayerStand None) w = Some (v, w')
    ∧ v_provablyFair v = Some shown
    ∧ v_serverSeed shown = Some "5eed"
    ∧ sampleHash "5eed" = v_hashedServerSeed shown.
Proof.
  eexists. eexists. eexists. eexists.
  match goal with
  | |- ?run0 = Some ?w ∧ ?run1 = Some (?v, ?w') ∧ _ =>
      assert (run0 = Some w) as Hinit by (vm_compute; reflexivity);
      assert (run1 = Some (v, w')) as Hrun by (vm_compute; reflexivity)
  end.
  split; [exact Hinit|]. split; [exact Hrun|].
  split; [reflexivity|]. split; [reflexivity|].
  exact (proj2 (revealed_seed_verifies sampleIds sampleSeeds sampleRandom sampleHash
                  identityShuffle _ (PlayerStand None) _ _ _
                  (performAll_reachable sampleIds sampleSeeds sampleRandom sampleHash
                     identityShuffle _ _ _ (reach_empty _ _ _ _ _ 0%nat) Hinit)
                  Hrun eq_refl)
           "5eed" eq_refl).
Defined.

Lemma views_report_stored_session_witness :
  ∃ v w' session,
    perform sampleIds sampleSeeds sampleRandom sampleHash identityShuffle
      (PlayerHit None) sampleWorld = Some (v, w')
    ∧ cookie w' = Some session
    ∧ v_balance v = balance session
    ∧ dealerScore v = calculateScore (dealerCards session).
Proof.
  eexists. eexists. eexists.
  match goal with
  | |- ?run = Some (?v, ?w') ∧ _ =>
      assert (run = Some (v, w')) as Hrun by (vm_compute; reflexivity)
  end.
  split; [exact Hrun|]. split; [reflexivity|].
  pose proof (views_report_stored_session sampleIds sampleSeeds sampleRandom sampleHash
                identityShuffle (PlayerHit None) sampleWorld _ _ Hrun) as Hreport.
  cbn [cookie] in Hreport. destruct Hreport as (_ & _ & Hbalance & _ & _ & Hdealer & _).
  split; [exact Hbalance | exact Hdealer].
Defined.

Lemma round_accounting_witness :
  ∃ w w1 v w2 session result,
    performAll sampleIds sampleSeeds sampleRandom sampleHash identityShuffle
      [InitializeGame 1000] (mkWorld None 0) = Some w
    ∧ performAll sampleIds sampleSeeds sampleRandom sampleHash identityShuffle
        (PlaceBet 50 None :: (PlayerHit <$> [])) w = Some w1
    ∧ playerStand sampleIds None w1 = Some (v, w2)
    ∧ cookie w2 = Some session
    ∧ gameResult session = Some result
    ∧ result = push
    ∧ balance session = 1000%float.
Proof.
  eexists. eexists. eexists. eexists.
  match goal with
  | |- ∃ session result, ?run0 = Some ?w ∧ ?run1 = Some ?w1 ∧ ?stand = Some (?v, ?w2) ∧ _ =>
      assert (run0 = Some w) as Hinit by (vm_compute; reflexivity);
      assert (run1 = Some w1) as Hrun by (vm_compute; reflexivity);
      assert (stand = Some (v, w2)) as Hstand by (vm_compute; reflexivity)
  end.
  match type of Hrun with
  | performAll _ _ _ _ _ _ (mkWorld (Some ?base) ?t) = Some ?w1 =>
      match type of Hstand with
      | _ = Some (?v, ?w2) =>
          destruct (round_accounting sampleIds sampleSeeds sampleRandom sampleHash
                      identityShuffle 50%float None None [] (mkWorld (Some base) t) w1 w2 base v)
            as (session & result & Hstored & _ & Hresult & _ & Hbalance & _)
      end
  end.
  - reflexivity.
  - reflexivity.
  - reflexivity.
  - exact Hrun.
  - exact Hstand.
  - exists session, result.
    split; [exact Hinit|]. split; [exact Hrun|]. split; [exact Hstand|].
    split; [exact Hstored|]. split; [exact Hresult|].
    assert (result = push) as Hpush.
    { cbn [cookie] in Hstored. injection Hstored as <-.
      vm_compute in Hresult. congruence. }
    split; [exact Hpush|]. rewrite Hbalance, Hpush. vm_compute. reflexivity.
Defined.

Lemma placeBet_takes_NaN_witness :
  ∃ v w' session',
    placeBet sampleIds sampleSeeds sampleRandom sampleHash identityShuffle
      nan None sampleWorld = Some (v, w')
    ∧ cookie w' = Some session'
    ∧ gameState session' = playing
    ∧ balance session' = nan
    ∧ v_balance v = nan.
Proof.
  destruct (placeBet_takes_NaN sampleIds sampleSeeds sampleRandom sampleHash identityShuffle
              identityShuffle_contract None sampleWorld sampleSession sampleRecord)
    as (v & w' & session' & Hrun & Hstored & Hstate & _ & _ & _ & Hbalance & _ & _
        & Hshown & _).
  - reflexivity.
  - reflexivity.
  - exists v, w', session'. auto.
Defined.
